(** * MPI_Poisson: a shallow embedding of the distributed 2D Poisson solver

    The program is an SPMD code: every process runs the same [main] on its
    own tile of the grid and meets the others only in blocking MPI calls
    ([MPI_Sendrecv], [MPI_Allreduce], [MPI_Bcast]).  The embedding keeps

    - C [int] as [Z] with the 32-bit two's complement wrap-around written
      out (module [CInt]), and [size_t] as [Z] reduced modulo [2^64]
      (module [CSize]);
    - C [double] as Rocq's primitive binary64 floats, so every definition
      evaluates to the value the IEEE-754 hardware produces;
    - a [double **] grid as the flat row-major buffer the program allocates
      ([phi[x]] points to [phi[0] + x * dim[Y_DIR]]), a [list float];
    - the process grid as the list of the per-process states in rank order,
      the blocking collectives being the points where all processes step
      together. *)

From Stdlib Require Import ZArith Lia Bool Floats.
From stdpp Require Import base list.

#[local] Set Warnings "-inexact-float".
#[local] Open Scope Z_scope.

(** ** C [int] arithmetic *)

Module CInt.

Definition INT_MAX : Z := 2147483647.
Definition INT_MIN : Z := -2147483648.

(** Reduction of a mathematical integer to the 32-bit two's complement
    range, as the usual compilers implement a signed overflow. *)
Definition wrap (z : Z) : Z := (z + 2147483648) mod 4294967296 - 2147483648.

Definition add (a b : Z) : Z := wrap (a + b).
Definition sub (a b : Z) : Z := wrap (a - b).
Definition mul (a b : Z) : Z := wrap (a * b).
(** [/] and [%] truncate toward zero (C99 6.5.5). *)
Definition div (a b : Z) : Z := wrap (Z.quot a b).
Definition rem (a b : Z) : Z := Z.rem a b.

Definition in_range (z : Z) : Prop := INT_MIN <= z <= INT_MAX.

End CInt.

(** ** C [size_t] arithmetic: 64 bits, unsigned *)

Module CSize.

Definition SIZE_MAX : Z := 18446744073709551615.

Definition wrap (z : Z) : Z := z mod 18446744073709551616.

(** The conversion of an [int] operand that meets a [size_t] operand. *)
Definition of_int (z : Z) : Z := wrap z.

Definition mul (a b : Z) : Z := wrap (a * b).

End CSize.

(** ** Setup_Grid: the bounds of a tile along one axis

    [offset[d] = gridsize[d] * proc_coord[d] / P_grid[d]],
    [upper_offset[d] = gridsize[d] * (proc_coord[d] + 1) / P_grid[d]],
    [dim[d] = (upper_offset[d] - offset[d]) + 2]. *)

Definition Setup_Grid_offset (gridsize proc_coord P_grid : Z) : Z :=
  CInt.div (CInt.mul gridsize proc_coord) P_grid.

Definition Setup_Grid_upper_offset (gridsize proc_coord P_grid : Z) : Z :=
  CInt.div (CInt.mul gridsize (CInt.add proc_coord 1)) P_grid.

Definition Setup_Grid_dim (gridsize proc_coord P_grid : Z) : Z :=
  CInt.add
    (CInt.sub (Setup_Grid_upper_offset gridsize proc_coord P_grid)
              (Setup_Grid_offset gridsize proc_coord P_grid))
    2.

(** A global cell index [g] (0-based along the axis) lies in the interior
    of the tile at process coordinate [c]. *)
Definition owns (gridsize P_grid c g : Z) : Prop :=
  Setup_Grid_offset gridsize c P_grid <= g
  < Setup_Grid_upper_offset gridsize c P_grid.

(** ** Grids in memory

    [phi], [source], [pCG], [rCG] and [vCG] are each one block of
    [dim[X_DIR] * dim[Y_DIR]] elements; the row pointers make [g[x][y]] the
    element [x * dim[Y_DIR] + y] of the block.  Reading outside the block
    is undefined in C; [load] answers 0 there, and the theorems below are
    stated for tiles whose accesses stay inside their blocks.

    The program forms the row offset [x * dim[Y_DIR]] and the number of
    elements [dim[Y_DIR] * dim[X_DIR]] in [int].  [idx] is the
    mathematical value of the offset; the two agree while
    [dim[X_DIR] * dim[Y_DIR] <= INT_MAX], and beyond that the program
    overflows an [int].  [row_offset] is the program's own arithmetic;
    that it agrees with [idx] on the tiles Setup_Grid builds is part of
    what is proved about Setup_Grid. *)

Definition load (b : list float) (i : nat) : float := default 0%float (b !! i).
Definition load_int (b : list Z) (i : nat) : Z := default 0%Z (b !! i).
Definition store (b : list float) (i : nat) (v : float) : list float :=
  <[i := v]> b.

Definition idx (dimy x y : nat) : nat := (x * dimy + y)%nat.

(** [x * dim[Y_DIR]] of [phi[x] = phi[0] + x * dim[Y_DIR]]. *)
Definition row_offset (dimy x : Z) : Z := CInt.mul x dimy.

(** The process-local variables of the program ("local grid related
    variables" and "local CG related variables"). *)
Record Tile : Type := mkTile {
  dim_X : nat;
  dim_Y : nat;
  offset_X : Z;
  offset_Y : Z;
  phi : list float;
  source : list Z;
  pCG : list float;
  rCG : list float;
  vCG : list float;
  global_residue : float
}.

Definition set_phi (t : Tile) (b : list float) : Tile :=
  mkTile (dim_X t) (dim_Y t) (offset_X t) (offset_Y t)
         b (source t) (pCG t) (rCG t) (vCG t) (global_residue t).
Definition set_pCG (t : Tile) (b : list float) : Tile :=
  mkTile (dim_X t) (dim_Y t) (offset_X t) (offset_Y t)
         (phi t) (source t) b (rCG t) (vCG t) (global_residue t).
Definition set_rCG (t : Tile) (b : list float) : Tile :=
  mkTile (dim_X t) (dim_Y t) (offset_X t) (offset_Y t)
         (phi t) (source t) (pCG t) b (vCG t) (global_residue t).
Definition set_vCG (t : Tile) (b : list float) : Tile :=
  mkTile (dim_X t) (dim_Y t) (offset_X t) (offset_Y t)
         (phi t) (source t) (pCG t) (rCG t) b (global_residue t).
Definition set_global_residue (t : Tile) (g : float) : Tile :=
  mkTile (dim_X t) (dim_Y t) (offset_X t) (offset_Y t)
         (phi t) (source t) (pCG t) (rCG t) (vCG t) g.

(** [g[x][y]] for a grid [g] of tile [t]. *)
Definition cell (t : Tile) (g : list float) (x y : nat) : float :=
  load g (idx (dim_Y t) x y).
Definition put (t : Tile) (g : list float) (x y : nat) (v : float)
  : list float :=
  store g (idx (dim_Y t) x y) v.
(** [source[x][y] != 1] *)
Definition not_fixed (t : Tile) (x y : nat) : bool :=
  negb (load_int (source t) (idx (dim_Y t) x y) =? 1)%Z.

(** ** Loops

    [for (i = lo; i < hi; i++) body], and the nest that every sweep of the
    program uses:
    [for (x = 1; x < dim[X_DIR] - 1; x++)
       for (y = 1; y < dim[Y_DIR] - 1; y++) body]. *)

Definition for_ {S : Type} (lo hi : nat) (body : nat -> S -> S) (s : S) : S :=
  foldl (fun s i => body i s) s (seq lo (hi - lo)).

Definition for_interior {S : Type} (t : Tile) (body : nat -> nat -> S -> S)
  : S -> S :=
  for_ 1 (dim_X t - 1) (fun x => for_ 1 (dim_Y t - 1) (fun y => body x y)).

(** The interior cells in the order the nest visits them. *)
Definition interior_cells (t : Tile) : list (nat * nat) :=
  x ← seq 1 (dim_X t - 1 - 1); (fun y => (x, y)) <$> seq 1 (dim_Y t - 1 - 1).

Definition interior (t : Tile) (x y : nat) : bool :=
  (1 <=? x)%nat && (x <? dim_X t - 1)%nat &&
  (1 <=? y)%nat && (y <? dim_Y t - 1)%nat.

(** The grid [g] with the interior cells selected by [sel] replaced by
    [val x y] and every other element kept: the loop-free description of a
    sweep that the theorems compare the loops with. *)
Definition update_interior (t : Tile) (sel : nat -> nat -> bool)
  (val : nat -> nat -> float) (g : list float) : list float :=
  imap (fun i v =>
          let x := (i / dim_Y t)%nat in
          let y := (i mod dim_Y t)%nat in
          if interior t x y && sel x y then val x y else v) g.

(** Loop invariant of a sweep: [g] is the grid reached from [g0] when the
    cells [visited] have been processed, the selected ones now holding
    [val] and every other element being as in [g0]. *)
Definition swept (t : Tile) (sel : nat -> nat -> bool)
  (val : nat -> nat -> float) (visited : list (nat * nat))
  (g0 g : list float) : Prop :=
  length g = length g0 /\
  (forall x y, (x, y) ∈ visited -> sel x y = true ->
               g !! idx (dim_Y t) x y = Some (val x y)) /\
  (forall i, (forall x y, (x, y) ∈ visited -> sel x y = true ->
                          idx (dim_Y t) x y <> i) ->
             g !! i = g0 !! i).

(** ** Do_Step: one red-black SOR sweep *)

Definition omega : float := 1.95%float.

(** [max_err < e ? e : max_err], the running maximum of Do_Step. *)
Definition track_max (max_err e : float) : float :=
  if (max_err <? e)%float then e else max_err.

Definition Do_Step_cell (t : Tile) (parity : Z) (x y : nat)
  (st : list float * float) : list float * float :=
  let '(phi, max_err) := st in
  let parity_offset := CInt.add (offset_X t) (offset_Y t) in
  if (CInt.rem (CInt.add (CInt.add (Z.of_nat x) (Z.of_nat y)) parity_offset) 2
        =? parity)%Z
     && not_fixed t x y
  then
    let old_phi := cell t phi x y in
    let c := ((cell t phi (x + 1) y + cell t phi (x - 1) y +
               cell t phi x (y + 1) + cell t phi x (y - 1)) * 0.25
              - old_phi)%float in
    let phi := put t phi x y (old_phi + omega * c)%float in
    (phi, track_max max_err (abs (old_phi - cell t phi x y)))
  else st.

Definition Do_Step (t : Tile) (parity : Z) : Tile * float :=
  let '(phi', max_err) :=
    for_interior t (Do_Step_cell t parity) (phi t, 0%float) in
  (set_phi t phi', max_err).

(** *** Do_Step in the words of the specification *)

(** The cell's global coordinate sum is congruent to [parity] modulo 2 and
    the cell is not a source. *)
Definition sor_eligible (t : Tile) (parity : Z) (x y : nat) : bool :=
  ((Z.of_nat x + Z.of_nat y + offset_X t + offset_Y t) mod 2 =? parity)%Z
  && not_fixed t x y.

(** [old + 1.95 * (0.25 * (sum of the 4 axis neighbours) - old)] *)
Definition sor_new_value (t : Tile) (g : list float) (x y : nat) : float :=
  let old := cell t g x y in
  (old + 1.95 * (0.25 * (cell t g (x + 1) y + cell t g (x - 1) y +
                         cell t g x (y + 1) + cell t g x (y - 1))
                 - old))%float.

(** The cells a sweep of the given parity updates, in sweep order. *)
Definition sor_updated (t : Tile) (parity : Z) : list (nat * nat) :=
  filter (fun c => sor_eligible t parity c.1 c.2 = true) (interior_cells t).

(** What the data model promises of a tile: both extents include the two
    halo cells, every block has [dim[X_DIR] * dim[Y_DIR]] elements, the
    offsets are those of a tile of the global grid (not negative), and the
    coordinate sums fit an [int]. *)
Record tile_ok (t : Tile) : Prop := {
  dim_X_ok : (2 <= dim_X t)%nat;
  dim_Y_ok : (2 <= dim_Y t)%nat;
  phi_ok : length (phi t) = (dim_X t * dim_Y t)%nat;
  source_ok : length (source t) = (dim_X t * dim_Y t)%nat;
  offset_X_ok : (0 <= offset_X t)%Z;
  offset_Y_ok : (0 <= offset_Y t)%Z;
  sum_ok : (offset_X t + offset_Y t + Z.of_nat (dim_X t) + Z.of_nat (dim_Y t)
            <= CInt.INT_MAX)%Z
}.

(** ** The process grid

    [MPI_Cart_create] with dimensions [P_grid] and no wrap-around numbers
    the processes in row-major order of their coordinates.  A neighbour
    that would lie outside the grid is [MPI_PROC_NULL], here [None]. *)

Record Topology : Type := mkTopology {
  P_grid_X : nat;
  P_grid_Y : nat
}.

Definition Cart_coords (tp : Topology) (rank : nat) : nat * nat :=
  ((rank / P_grid_Y tp)%nat, (rank mod P_grid_Y tp)%nat).

Definition Cart_rank (tp : Topology) (cx cy : nat) : nat :=
  (cx * P_grid_Y tp + cy)%nat.

Inductive Neighbour : Type := proc_top | proc_right | proc_bottom | proc_left.

(** [MPI_Cart_shift(grid_comm, Y_DIR, 1, &proc_top, &proc_bottom)] and
    [MPI_Cart_shift(grid_comm, X_DIR, 1, &proc_left, &proc_right)]. *)
Definition neighbour (tp : Topology) (rank : nat) (n : Neighbour)
  : option nat :=
  let '(cx, cy) := Cart_coords tp rank in
  match n with
  | proc_top =>
      if (cy =? 0)%nat then None else Some (Cart_rank tp cx (cy - 1))
  | proc_bottom =>
      if (cy + 1 <? P_grid_Y tp)%nat then Some (Cart_rank tp cx (cy + 1))
      else None
  | proc_left =>
      if (cx =? 0)%nat then None else Some (Cart_rank tp (cx - 1) cy)
  | proc_right =>
      if (cx + 1 <? P_grid_X tp)%nat then Some (Cart_rank tp (cx + 1) cy)
      else None
  end.

(** ** Setup_MPI_Datatypes *)

Inductive Dir : Type := X_DIR | Y_DIR.

(** [MPI_Type_vector(count, blocklength, stride, MPI_DOUBLE, &type)] *)
Record MPI_Datatype : Type := MPI_Type_vector {
  count : nat;
  blocklength : nat;
  stride : nat
}.

(** [border_type[d]] as Setup_MPI_Datatypes builds it on a tile. *)
Definition border_type (t : Tile) (d : Dir) : MPI_Datatype :=
  match d with
  | Y_DIR => MPI_Type_vector (dim_X t - 2) 1 (dim_Y t)
  | X_DIR => MPI_Type_vector (dim_Y t - 2) 1 1
  end.

(** The displacements, in elements, that one item of the datatype
    addresses. *)
Definition type_map (ty : MPI_Datatype) : list nat :=
  k ← seq 0 (count ty);
  (fun j => (k * stride ty + j)%nat) <$> seq 0 (blocklength ty).

(** The message one item of type [ty] at element [base] of [g] makes, and
    the block after a message has been received into such an item. *)
Definition pack (g : list float) (base : nat) (ty : MPI_Datatype)
  : list float :=
  (fun d => load g (base + d)) <$> type_map ty.

Definition unpack (g : list float) (base : nat) (ty : MPI_Datatype)
  (msg : list float) : list float :=
  foldl (fun g dv => store g (base + dv.1) dv.2) g (zip (type_map ty) msg).

(** The tile widths the specification speaks of. *)
Definition interior_width (t : Tile) : nat := dim_X t - 2.
Definition interior_height (t : Tile) : nat := dim_Y t - 2.

(** ** Exchange_Borders *)

(** The grid that is exchanged: [pCG] when [CG] is defined, [phi]
    otherwise. *)
Inductive Field : Type := Phi | PCG.

Definition get (f : Field) (t : Tile) : list float :=
  match f with Phi => phi t | PCG => pCG t end.
Definition set (f : Field) (t : Tile) (g : list float) : Tile :=
  match f with Phi => set_phi t g | PCG => set_pCG t g end.

(** One [MPI_Sendrecv(&g[x][y], 1, border_type[sendtype], dest, tag,
    &g[x'][y'], 1, border_type[recvtype], source, tag, grid_comm, &status)]. *)
Record Sendrecv : Type := mkSendrecv {
  sendbuf : Tile -> nat * nat;
  sendtype : Dir;
  dest : Neighbour;
  recvbuf : Tile -> nat * nat;
  recvtype : Dir;
  recvfrom : Neighbour
}.

Definition at_cell (t : Tile) (c : nat * nat) : nat := idx (dim_Y t) c.1 c.2.

(** What one process has after the call: it receives the message that its
    [recvfrom] neighbour addresses to it in this call; towards
    [MPI_PROC_NULL] nothing is sent and from it nothing is received. *)
Definition recv_tile (tp : Topology) (f : Field) (c : Sendrecv)
  (w : list Tile) (rank : nat) (t : Tile) : Tile :=
  match neighbour tp rank (recvfrom c) with
  | None => t
  | Some s =>
      match w !! s with
      | Some ts =>
          if decide (neighbour tp s (dest c) = Some rank) then
            set f t
              (unpack (get f t) (at_cell t (recvbuf c t))
                      (border_type t (recvtype c))
                      (pack (get f ts) (at_cell ts (sendbuf c ts))
                            (border_type ts (sendtype c))))
          else t
      | None => t
      end
  end.

(** All processes make the same call. *)
Definition MPI_Sendrecv (tp : Topology) (f : Field) (c : Sendrecv)
  (w : list Tile) : list Tile :=
  imap (recv_tile tp f c w) w.

(** The [k]-th cell that an item of [border_type[d]] placed at cell [c0]
    addresses, and the test that a cell is one of them. *)
Definition line (d : Dir) (c0 : nat * nat) (k : nat) : nat * nat :=
  match d with
  | Y_DIR => ((c0.1 + k)%nat, c0.2)
  | X_DIR => (c0.1, (c0.2 + k)%nat)
  end.

Definition on_line (t : Tile) (d : Dir) (c0 : nat * nat) (x y : nat) : bool :=
  match d with
  | Y_DIR => (y =? c0.2)%nat && (c0.1 <=? x)%nat
             && (x <? c0.1 + (dim_X t - 2))%nat
  | X_DIR => (x =? c0.1)%nat && (c0.2 <=? y)%nat
             && (y <? c0.2 + (dim_Y t - 2))%nat
  end.

(** The four calls of Exchange_Borders: traffic in direction top, bottom,
    left and right. *)
Definition Exchange_Borders_calls : list Sendrecv :=
  [ mkSendrecv (fun _ => (1, 1)%nat) Y_DIR proc_top
               (fun t => (1, dim_Y t - 1)%nat) Y_DIR proc_bottom;
    mkSendrecv (fun t => (1, dim_Y t - 2)%nat) Y_DIR proc_bottom
               (fun _ => (1, 0)%nat) Y_DIR proc_top;
    mkSendrecv (fun _ => (1, 1)%nat) X_DIR proc_left
               (fun t => (dim_X t - 1, 1)%nat) X_DIR proc_right;
    mkSendrecv (fun t => (dim_X t - 2, 1)%nat) X_DIR proc_right
               (fun _ => (0, 1)%nat) X_DIR proc_left ].

Definition Exchange_Borders_on (f : Field) (tp : Topology) (w : list Tile)
  : list Tile :=
  foldl (fun w c => MPI_Sendrecv tp f c w) w Exchange_Borders_calls.

(** The program is compiled with [CG] defined and exchanges [pCG]; the
    [#else] branch exchanges [phi]. *)
Definition Exchange_Borders : Topology -> list Tile -> list Tile :=
  Exchange_Borders_on PCG.
Definition Exchange_Borders_SOR : Topology -> list Tile -> list Tile :=
  Exchange_Borders_on Phi.

(** *** Vocabulary for the halo after an exchange *)

(** The position along its line of a cell that lies on it. *)
Definition along (d : Dir) (c0 : nat * nat) (x y : nat) : nat :=
  match d with Y_DIR => (x - c0.1)%nat | X_DIR => (y - c0.2)%nat end.

(** The line of an item placed at [c0] stays inside the tile. *)
Definition line_fits (t : Tile) (d : Dir) (c0 : nat * nat) : Prop :=
  match d with
  | Y_DIR => (c0.1 + (dim_X t - 2) <= dim_X t)%nat /\ (c0.2 < dim_Y t)%nat
  | X_DIR => (c0.1 < dim_X t)%nat /\ (c0.2 + (dim_Y t - 2) <= dim_Y t)%nat
  end.

Definition opposite (n : Neighbour) : Neighbour :=
  match n with
  | proc_top => proc_bottom
  | proc_bottom => proc_top
  | proc_left => proc_right
  | proc_right => proc_left
  end.

(** The tiles of a process grid fit together for an exchange of the field
    [f]: there is one tile per rank, the extent in x is the same along a
    column of processes ([dx]) and the extent in y along a row ([dy]), as
    Setup_Grid computes them, every tile has its halo and its block. *)
Record grid_ok (tp : Topology) (f : Field) (dx dy : nat -> nat)
  (w : list Tile) : Prop := {
  grid_ranks : length w = (P_grid_X tp * P_grid_Y tp)%nat;
  grid_dim_X : forall r t, w !! r = Some t -> dim_X t = dx (Cart_coords tp r).1;
  grid_dim_Y : forall r t, w !! r = Some t -> dim_Y t = dy (Cart_coords tp r).2;
  grid_halo : forall r t, w !! r = Some t ->
                          (2 <= dim_X t)%nat /\ (2 <= dim_Y t)%nat;
  grid_block : forall r t, w !! r = Some t ->
                           length (get f t) = (dim_X t * dim_Y t)%nat
}.

(** A run of calls. *)
Definition exchange (f : Field) (tp : Topology) (l : list Sendrecv)
  (w : list Tile) : list Tile :=
  foldl (fun w c => MPI_Sendrecv tp f c w) w l.

(** The [k]-th cell of the halo line of [t] that faces its neighbour [n],
    and the [k]-th cell of the interior line next to it. *)
Definition halo_cell (t : Tile) (n : Neighbour) (k : nat) : nat * nat :=
  match n with
  | proc_top => (k, 0%nat)
  | proc_bottom => (k, (dim_Y t - 1)%nat)
  | proc_left => (0%nat, k)
  | proc_right => ((dim_X t - 1)%nat, k)
  end.

Definition border_cell (t : Tile) (n : Neighbour) (k : nat) : nat * nat :=
  match n with
  | proc_top => (k, 1%nat)
  | proc_bottom => (k, (dim_Y t - 2)%nat)
  | proc_left => (1%nat, k)
  | proc_right => ((dim_X t - 2)%nat, k)
  end.

(** The number of interior cells along that line, the number of cells of
    the tile along it, and the extent of the tile across it. *)
Definition border_length (t : Tile) (n : Neighbour) : nat :=
  match n with
  | proc_top | proc_bottom => (dim_X t - 2)%nat
  | proc_left | proc_right => (dim_Y t - 2)%nat
  end.

Definition halo_length (t : Tile) (n : Neighbour) : nat :=
  match n with
  | proc_top | proc_bottom => dim_X t
  | proc_left | proc_right => dim_Y t
  end.

Definition depth (t : Tile) (n : Neighbour) : nat :=
  match n with
  | proc_top | proc_bottom => dim_Y t
  | proc_left | proc_right => dim_X t
  end.

(** Process [b] lies next to process [a] on side [n], in the coordinates
    of the process grid: same column and the row above or below, or same
    row and the column to the left or to the right. *)
Definition adjacent (tp : Topology) (a b : nat) (n : Neighbour) : Prop :=
  (b < P_grid_X tp * P_grid_Y tp)%nat /\
  match n with
  | proc_top =>
      (Cart_coords tp b).1 = (Cart_coords tp a).1 /\
      ((Cart_coords tp b).2 + 1)%nat = (Cart_coords tp a).2
  | proc_bottom =>
      (Cart_coords tp b).1 = (Cart_coords tp a).1 /\
      (Cart_coords tp b).2 = ((Cart_coords tp a).2 + 1)%nat
  | proc_left =>
      ((Cart_coords tp b).1 + 1)%nat = (Cart_coords tp a).1 /\
      (Cart_coords tp b).2 = (Cart_coords tp a).2
  | proc_right =>
      (Cart_coords tp b).1 = ((Cart_coords tp a).1 + 1)%nat /\
      (Cart_coords tp b).2 = (Cart_coords tp a).2
  end.


(** ** Reductions

    [MPI_Allreduce] with [MPI_SUM] and [MPI_MAX] over [grid_comm]; MPI
    leaves the order of the combination to the implementation, the model
    combines in rank order. *)

Definition C_max (a b : float) : float := if (b <? a)%float then a else b.

Definition MPI_Allreduce_SUM (l : list float) : float :=
  match l with
  | [] => 0%float
  | x :: l => foldl (fun a b => (a + b)%float) x l
  end.

Definition MPI_Allreduce_MAX (l : list float) : float :=
  match l with
  | [] => 0%float
  | x :: l => foldl C_max x l
  end.

(** ** InitCG *)

(** The three blocks [malloc] hands to InitCG.  Their contents are
    whatever the allocator left there. *)
Record CG_blocks : Type := mkCG_blocks {
  block_p : list float;
  block_r : list float;
  block_v : list float
}.

Definition neighbour_sum (t : Tile) (g : list float) (x y : nat) : float :=
  (cell t g (x + 1) y + cell t g (x - 1) y +
   cell t g x (y + 1) + cell t g x (y - 1))%float.

Definition InitCG_cell (t : Tile) (x y : nat)
  (st : list float * list float * float) : list float * list float * float :=
  let '(pCG, rCG, rdotr) := st in
  let rCG := put t rCG x y 0%float in
  let rCG :=
    if not_fixed t x y
    then put t rCG x y (neighbour_sum t (phi t) x y * 0.25)%float
    else rCG in
  let pCG := put t pCG x y (cell t rCG x y) in
  (pCG, rCG, (rdotr + cell t rCG x y * cell t rCG x y)%float).

Definition InitCG_local (m : CG_blocks) (t : Tile) : Tile * float :=
  let '(p, r, rdotr) :=
    for_interior t (InitCG_cell t) (block_p m, block_r m, 0%float) in
  (set_vCG (set_rCG (set_pCG t p) r) (block_v m), rdotr).

Definition InitCG (malloc : nat -> CG_blocks) (w : list Tile) : list Tile :=
  let locals := imap (fun rank t => InitCG_local (malloc rank) t) w in
  let global := MPI_Allreduce_SUM (snd <$> locals) in
  (fun l => set_global_residue l.1 global) <$> locals.

(** ** Do_Step_CG

    The function is cut at its two [MPI_Allreduce] calls. *)

Definition Do_Step_CG_v_cell (t : Tile) (x y : nat) (v : list float)
  : list float :=
  let v := put t v x y (cell t (pCG t) x y) in
  if not_fixed t x y
  then put t v x y (cell t v x y - neighbour_sum t (pCG t) x y * 0.25)%float
  else v.

(** [s += a[x][y] * b[x][y]] over the interior. *)
Definition dot_interior (t : Tile) (a b : list float) : float :=
  for_interior t (fun x y s => (s + cell t a x y * cell t b x y)%float)
               0%float.

Definition Do_Step_CG_pdotv (t : Tile) : Tile * float :=
  let t := set_vCG t (for_interior t (Do_Step_CG_v_cell t) (vCG t)) in
  (t, dot_interior t (pCG t) (vCG t)).

Definition Do_Step_CG_update (global_pdotv : float) (t : Tile)
  : Tile * float :=
  let a := (global_residue t / global_pdotv)%float in
  let t :=
    set_phi t
      (for_interior t
         (fun x y g => put t g x y (cell t g x y + a * cell t (pCG t) x y)%float)
         (phi t)) in
  let t :=
    set_rCG t
      (for_interior t
         (fun x y g => put t g x y (cell t g x y - a * cell t (vCG t) x y)%float)
         (rCG t)) in
  (t, dot_interior t (rCG t) (rCG t)).

Definition Do_Step_CG_direction (global_new_rdotr : float) (t : Tile) : Tile :=
  let g := (global_new_rdotr / global_residue t)%float in
  let t := set_global_residue t global_new_rdotr in
  set_pCG t
    (for_interior t
       (fun x y p => put t p x y (cell t (rCG t) x y + g * cell t p x y)%float)
       (pCG t)).

Definition Do_Step_CG (w : list Tile) : list Tile :=
  let l1 := Do_Step_CG_pdotv <$> w in
  let global_pdotv := MPI_Allreduce_SUM (snd <$> l1) in
  let l2 := (fun l => Do_Step_CG_update global_pdotv l.1) <$> l1 in
  let global_new_rdotr := MPI_Allreduce_SUM (snd <$> l2) in
  (fun l => Do_Step_CG_direction global_new_rdotr l.1) <$> l2.

(** *** One CG iteration in the words of the specification

    (b) [v], (c) the dot product [p.v] and its global sum, (d) the step
    length [a], (e) [phi] and [r], (f) the new residual norm, (g) [gamma],
    (h) [p]; each grid is described cell by cell, without loops. *)

Definition everywhere (x y : nat) : bool := true.

Definition sum_interior (t : Tile) (f : nat -> nat -> float) : float :=
  foldl (fun s c => (s + f c.1 c.2)%float) 0%float (interior_cells t).

Definition cg_v (t : Tile) : list float :=
  update_interior t everywhere
    (fun x y =>
       if not_fixed t x y
       then (cell t (pCG t) x y
             - 0.25 * (cell t (pCG t) (x + 1) y + cell t (pCG t) (x - 1) y
                       + cell t (pCG t) x (y + 1) + cell t (pCG t) x (y - 1)))%float
       else cell t (pCG t) x y)
    (vCG t).

Definition cg_pdotv (t : Tile) : float :=
  sum_interior t (fun x y => (cell t (pCG t) x y * cell t (cg_v t) x y)%float).

Definition cg_global_pdotv (w : list Tile) : float :=
  MPI_Allreduce_SUM (cg_pdotv <$> w).

Definition cg_a (w : list Tile) (t : Tile) : float :=
  (global_residue t / cg_global_pdotv w)%float.

Definition cg_phi (w : list Tile) (t : Tile) : list float :=
  update_interior t everywhere
    (fun x y => (cell t (phi t) x y + cg_a w t * cell t (pCG t) x y)%float)
    (phi t).

Definition cg_r (w : list Tile) (t : Tile) : list float :=
  update_interior t everywhere
    (fun x y => (cell t (rCG t) x y - cg_a w t * cell t (cg_v t) x y)%float)
    (rCG t).

Definition cg_new_rdotr (w : list Tile) : float :=
  MPI_Allreduce_SUM
    ((fun t => sum_interior t (fun x y => (cell t (cg_r w t) x y
                                           * cell t (cg_r w t) x y)%float))
       <$> w).

Definition cg_gamma (w : list Tile) (t : Tile) : float :=
  (cg_new_rdotr w / global_residue t)%float.

Definition cg_p (w : list Tile) (t : Tile) : list float :=
  update_interior t everywhere
    (fun x y => (cell t (cg_r w t) x y + cg_gamma w t * cell t (pCG t) x y)%float)
    (pCG t).

Definition CG_iteration (w : list Tile) : list Tile :=
  (fun t => mkTile (dim_X t) (dim_Y t) (offset_X t) (offset_Y t)
                   (cg_phi w t) (source t) (cg_p w t) (cg_r w t) (cg_v t)
                   (cg_new_rdotr w)) <$> w.

(** The CG grids of a tile have been allocated with the tile's extents. *)
Record cg_ok (t : Tile) : Prop := {
  cg_phi_ok : length (phi t) = (dim_X t * dim_Y t)%nat;
  cg_pCG_ok : length (pCG t) = (dim_X t * dim_Y t)%nat;
  cg_rCG_ok : length (rCG t) = (dim_X t * dim_Y t)%nat;
  cg_vCG_ok : length (vCG t) = (dim_X t * dim_Y t)%nat
}.

(** ** Solve

    Every process keeps its own copy of [global_residue], [precision_goal],
    [max_iter] and [count]; the copies agree (they come out of
    [MPI_Allreduce] and [MPI_Bcast]), and the model reads the loop test off
    the copy of process 0.  The loops recurse on a fuel argument; [Solve]
    and [Solve_SOR] supply [max_iter] of it, and [None] would mean that it
    ran out. *)

Definition residue (w : list Tile) : float :=
  match w with
  | t :: _ => global_residue t
  | [] => 0%float
  end.

Fixpoint Solve_loop (fuel : nat) (tp : Topology) (precision_goal : float)
  (max_iter : Z) (w : list Tile) (count : Z) : option (list Tile * Z) :=
  if (precision_goal <? residue w)%float && (count <? max_iter)%Z then
    match fuel with
    | O => None
    | S fuel =>
        Solve_loop fuel tp precision_goal max_iter
                   (Do_Step_CG (Exchange_Borders tp w)) (CInt.add count 1)
    end
  else Some (w, count).

(** [Solve] as compiled ([CG] defined): the final grids and the iteration
    count that is printed. *)
Definition Solve (tp : Topology) (malloc : nat -> CG_blocks)
  (precision_goal : float) (max_iter : Z) (w : list Tile)
  : option (list Tile * Z) :=
  Solve_loop (Z.to_nat max_iter) tp precision_goal max_iter (InitCG malloc w) 0.

(** One pass through the body of the SOR loop: the grids and the new
    [global_delta]. *)
Definition SOR_iteration (tp : Topology) (w : list Tile) : list Tile * float :=
  let s1 := (fun t => Do_Step t 0) <$> w in
  let w1 := Exchange_Borders_SOR tp (fst <$> s1) in
  let s2 := (fun t => Do_Step t 1) <$> w1 in
  let w2 := Exchange_Borders_SOR tp (fst <$> s2) in
  let delta := zip_with C_max (snd <$> s1) (snd <$> s2) in
  (w2, MPI_Allreduce_MAX delta).

Fixpoint Solve_SOR_loop (fuel : nat) (tp : Topology) (precision_goal : float)
  (max_iter : Z) (w : list Tile) (global_delta : float) (count : Z)
  : option (list Tile * float * Z) :=
  if (precision_goal <? global_delta)%float && (count <? max_iter)%Z then
    match fuel with
    | O => None
    | S fuel =>
        let '(w, global_delta) := SOR_iteration tp w in
        Solve_SOR_loop fuel tp precision_goal max_iter w global_delta
                       (CInt.add count 1)
    end
  else Some (w, global_delta, count).

(** [Solve] of the [#else] branch. *)
Definition Solve_SOR (tp : Topology) (precision_goal : float) (max_iter : Z)
  (w : list Tile) : option (list Tile * float * Z) :=
  Solve_SOR_loop (Z.to_nat max_iter) tp precision_goal max_iter w
                 (2 * precision_goal)%float 0.

(** The loop test of both variants. *)
Definition keeps_running (precision_goal metric : float) (max_iter count : Z)
  : bool :=
  (precision_goal <? metric)%float && (count <? max_iter)%Z.

(** The shape the two loops share:
    [while (metric > precision_goal && count < max_iter) { body; count++; }] *)
Fixpoint while_running {S : Type} (fuel : nat) (body : S -> S)
  (metric : S -> float) (precision_goal : float) (max_iter : Z)
  (s : S) (count : Z) : option (S * Z) :=
  if keeps_running precision_goal (metric s) max_iter count then
    match fuel with
    | O => None
    | S fuel =>
        while_running fuel body metric precision_goal max_iter
                      (body s) (CInt.add count 1)
    end
  else Some (s, count).

(** The states the loops pass through. *)
Fixpoint CG_state (tp : Topology) (w : list Tile) (k : nat) : list Tile :=
  match k with
  | O => w
  | S k => Do_Step_CG (Exchange_Borders tp (CG_state tp w k))
  end.

Fixpoint SOR_state (tp : Topology) (w : list Tile) (delta : float) (k : nat)
  : list Tile * float :=
  match k with
  | O => (w, delta)
  | S k => SOR_iteration tp (SOR_state tp w delta k).1
  end.

(** ** Setup_Grid: the tile of a process *)

(** The input file as [fscanf] reads it on process 0 and [MPI_Bcast]
    distributes it. *)
Record Input : Type := mkInput {
  nx : Z;
  ny : Z;
  precision_goal_in : float;
  max_iter_in : Z;
  sources : list (float * float * float)
}.

(** Conversion of an [int] to [double] (exact). *)
Definition int_to_double (z : Z) : float :=
  if (z <? 0)%Z then (- of_uint63 (Uint63.of_Z (- z)))%float
  else of_uint63 (Uint63.of_Z z).

(** Conversion of a [double] to [int]: the fraction is discarded; outside
    the range of [int] the conversion is undefined in C and gives
    [INT_MIN] on the usual hardware. *)
Definition double_to_int (f : float) : Z :=
  match Prim2SF f with
  | S754_zero _ => 0
  | S754_finite s m e =>
      let a := if (0 <=? e)%Z then Z.pos m * 2 ^ e else Z.pos m / 2 ^ (- e) in
      let v := if s then - a else a in
      if (CInt.INT_MIN <=? v)%Z && (v <=? CInt.INT_MAX)%Z then v
      else CInt.INT_MIN
  | _ => CInt.INT_MIN
  end.

(** "put sources in field": one [source:] record. *)
Definition Setup_Grid_source (gridsize_X gridsize_Y : Z) (t : Tile)
  (s : float * float * float) : Tile :=
  let '(source_x, source_y, source_val) := s in
  let x := double_to_int (source_x * int_to_double gridsize_X)%float in
  let y := double_to_int (source_y * int_to_double gridsize_Y)%float in
  let x := CInt.add x 1 in
  let y := CInt.add y 1 in
  let x := CInt.sub x (offset_X t) in
  let y := CInt.sub y (offset_Y t) in
  if (0 <? x) && (x <? CInt.sub (Z.of_nat (dim_X t)) 1)
     && (0 <? y) && (y <? CInt.sub (Z.of_nat (dim_Y t)) 1)
  then
    mkTile (dim_X t) (dim_Y t) (offset_X t) (offset_Y t)
           (put t (phi t) (Z.to_nat x) (Z.to_nat y) source_val)
           (<[idx (dim_Y t) (Z.to_nat x) (Z.to_nat y) := 1]> (source t))
           (pCG t) (rCG t) (vCG t) (global_residue t)
  else t.

(** The requests of Setup_Grid to [malloc].  The row pointers take
    [dim[X_DIR] * sizeof(double * )] bytes: the extent is converted to
    [size_t] and multiplied there.  A block takes
    [dim[Y_DIR] * dim[X_DIR] * sizeof(element)] bytes: the product of the
    two extents is formed in [int], then converted to [size_t] and
    multiplied by the size of an element, 8 for [phi] and 4 for
    [source]. *)
Definition rows_bytes (dimx : Z) : Z := CSize.mul (CSize.of_int dimx) 8.

Definition block_bytes (dimx dimy size : Z) : Z :=
  CSize.mul (CSize.of_int (CInt.mul dimy dimx)) size.

(** The number of elements of [size] bytes that the block holds. *)
Definition block_length (dimx dimy : nat) (size : Z) : nat :=
  Z.to_nat (block_bytes (Z.of_nat dimx) (Z.of_nat dimy) size / size).

(** The tile before any source is placed: all values '0'.  The CG grids do
    not exist before InitCG. *)
Definition blank_tile (dimx dimy : nat) (ox oy : Z) : Tile :=
  mkTile dimx dimy ox oy
         (replicate (block_length dimx dimy 8) 0%float)
         (replicate (block_length dimx dimy 4) 0)
         [] [] [] 0%float.

(** The tile Setup_Grid leaves behind when its four calls of [malloc]
    return a block ([Setup_Grid_run] below has the calls).  The extents
    of a tile are natural numbers: the record has no tile for an extent
    that is not positive, which the program computes from a grid size
    that is not positive; [valid_input] excludes such input. *)
Definition Setup_Grid (tp : Topology) (inp : Input) (rank : nat) : Tile :=
  let '(cx, cy) := Cart_coords tp rank in
  let px := Z.of_nat (P_grid_X tp) in
  let py := Z.of_nat (P_grid_Y tp) in
  let t :=
    blank_tile (Z.to_nat (Setup_Grid_dim (nx inp) (Z.of_nat cx) px))
               (Z.to_nat (Setup_Grid_dim (ny inp) (Z.of_nat cy) py))
               (Setup_Grid_offset (nx inp) (Z.of_nat cx) px)
               (Setup_Grid_offset (ny inp) (Z.of_nat cy) py) in
  foldl (Setup_Grid_source (nx inp) (ny inp)) t (sources inp).

(** The messages of Setup_Grid that end the program, in the order of the
    calls of [malloc]: for the row pointers of [phi], for those of
    [source], for the block of [phi] and for the block of [source]. *)
Inductive Fatal : Type :=
| malloc_phi_failed
| malloc_source_failed
| malloc_phi_block_failed
| malloc_source_block_failed.

(** How a function that may end the program comes back: it returns, or
    it has called [Debug(mesg, 1)], which prints [mesg] and calls
    [exit(1)]. *)
Inductive Outcome (A : Type) : Type :=
| Returns (a : A)
| Exits (mesg : Fatal).

Arguments Returns {A} a.
Arguments Exits {A} mesg.

(** Setup_Grid with its calls of [malloc].  [malloc i bytes] tells
    whether the [i]-th call of the process, which asks for [bytes] bytes,
    returns a block; the process exits at the first call that returns
    [NULL]. *)
Definition Setup_Grid_run (malloc : nat -> Z -> bool) (tp : Topology)
  (inp : Input) (rank : nat) : Outcome Tile :=
  let '(cx, cy) := Cart_coords tp rank in
  let dimx :=
    Setup_Grid_dim (nx inp) (Z.of_nat cx) (Z.of_nat (P_grid_X tp)) in
  let dimy :=
    Setup_Grid_dim (ny inp) (Z.of_nat cy) (Z.of_nat (P_grid_Y tp)) in
  if negb (malloc 0%nat (rows_bytes dimx)) then Exits malloc_phi_failed
  else if negb (malloc 1%nat (rows_bytes dimx)) then Exits malloc_source_failed
  else if negb (malloc 2%nat (block_bytes dimx dimy 8))
  then Exits malloc_phi_block_failed
  else if negb (malloc 3%nat (block_bytes dimx dimy 4))
  then Exits malloc_source_block_failed
  else Returns (Setup_Grid tp inp rank).

(** ** main *)

Definition processes (tp : Topology) (inp : Input) : list Tile :=
  Setup_Grid tp inp <$> seq 0 (P_grid_X tp * P_grid_Y tp).

Definition main (tp : Topology) (malloc : nat -> CG_blocks) (inp : Input)
  : option (list Tile * Z) :=
  Solve tp malloc (precision_goal_in inp) (max_iter_in inp) (processes tp inp).

Definition main_SOR (tp : Topology) (inp : Input)
  : option (list Tile * float * Z) :=
  Solve_SOR tp (precision_goal_in inp) (max_iter_in inp) (processes tp inp).

(** The processes come back from a function together; when one of them
    has exited, the run has ended, here with the message of the first
    such process in rank order. *)
Fixpoint all_return {A : Type} (l : list (Outcome A)) : Outcome (list A) :=
  match l with
  | [] => Returns []
  | Exits mesg :: _ => Exits mesg
  | Returns a :: l =>
      match all_return l with
      | Returns l' => Returns (a :: l')
      | Exits mesg => Exits mesg
      end
  end.

(** [processes] and [main_SOR] with the calls of [malloc] in Setup_Grid;
    [malloc rank] is the allocator of process [rank]. *)
Definition processes_run (malloc : nat -> nat -> Z -> bool) (tp : Topology)
  (inp : Input) : Outcome (list Tile) :=
  all_return ((fun rank => Setup_Grid_run (malloc rank) tp inp rank)
                <$> seq 0 (P_grid_X tp * P_grid_Y tp)).

Definition main_SOR_run (malloc : nat -> nat -> Z -> bool) (tp : Topology)
  (inp : Input) : Outcome (option (list Tile * float * Z)) :=
  match processes_run malloc tp inp with
  | Returns w =>
      Returns (Solve_SOR tp (precision_goal_in inp) (max_iter_in inp) w)
  | Exits mesg => Exits mesg
  end.

(** *** Vocabulary for the fixed cells *)

(** Same extents and the same sources. *)
Definition same_tile (t t' : Tile) : Prop :=
  dim_X t' = dim_X t /\ dim_Y t' = dim_Y t /\ source t' = source t.

(** The invariant of a source cell [(x, y)] of process [a] under the steps
    of the SOR build: the cell still has the value it has in [A0]. *)
Definition keeps_phi (a : nat) (A0 : Tile) (x y : nat) (w : list Tile) : Prop :=
  exists A, w !! a = Some A /\ same_tile A0 A /\
            cell A0 (phi A) x y = cell A0 (phi A0) x y.

(** The value [v] is the load-time value [v0], up to the sign of a zero:
    [-0.0 + +0.0] is [+0.0]. *)
Definition unchanged (v0 v : float) : Prop :=
  v = v0 \/ (v0 = neg_zero /\ v = zero).

(** The invariant of a source cell under the steps of the CG build: [p]
    and [r] are zero there and [phi] is unchanged. *)
Definition cg_fixed (a : nat) (A0 : Tile) (x y : nat) (w : list Tile) : Prop :=
  exists A, w !! a = Some A /\ same_tile A0 A /\
            is_zero (cell A0 (pCG A) x y) = true /\
            is_zero (cell A0 (rCG A) x y) = true /\
            unchanged (cell A0 (phi A0) x y) (cell A0 (phi A) x y).

(** The step length [a] and the ratio [gamma] that the next CG iteration
    computes are finite numbers on every process. *)
Definition finite_step (tp : Topology) (w : list Tile) : bool :=
  let w' := Exchange_Borders tp w in
  forallb (fun t => is_finite (cg_a w' t) && is_finite (cg_gamma w' t)) w'.

(** The blocks the allocator hands to InitCG have the size asked for. *)
Definition blocks_fit (m : CG_blocks) (t : Tile) : Prop :=
  length (block_p m) = (dim_X t * dim_Y t)%nat /\
  length (block_r m) = (dim_X t * dim_Y t)%nat /\
  length (block_v m) = (dim_X t * dim_Y t)%nat.

(** The residual InitCG computes at a cell. *)
Definition InitCG_r (t : Tile) (x y : nat) : float :=
  if not_fixed t x y
  then ((cell t (phi t) (x + 1) y + cell t (phi t) (x - 1) y
         + cell t (phi t) x (y + 1) + cell t (phi t) x (y - 1)) * 0.25)%float
  else 0%float.

(** The grids of the CG build fit together. *)
Definition cg_world_ok (tp : Topology) (dx dy : nat -> nat) (w : list Tile)
  : Prop :=
  grid_ok tp PCG dx dy w /\ Forall cg_ok w.

(** [phi[x][y]] on process [a] of a grid of tiles. *)
Definition phi_at (w : list Tile) (a x y : nat) : float :=
  match w !! a with
  | Some t => cell t (phi t) x y
  | None => 0%float
  end.

(** ** Setup_Grid: vocabulary for the tiles of a run *)

(** The global cell (0-based) that a [source:] record addresses:
    [x = source_x * gridsize[X_DIR]], [y = source_y * gridsize[Y_DIR]]. *)
Definition source_cell (gridsize_X gridsize_Y : Z) (s : float * float * float)
  : Z * Z :=
  (double_to_int (s.1.1 * int_to_double gridsize_X)%float,
   double_to_int (s.1.2 * int_to_double gridsize_Y)%float).

(** The global cell (0-based) behind the local cell [(x, y)] of a tile:
    local index 1 is global index [offset]. *)
Definition global_cell (t : Tile) (x y : nat) : Z * Z :=
  (offset_X t + Z.of_nat x - 1, offset_Y t + Z.of_nat y - 1).

(** An input and a process grid for which the [int] arithmetic of
    Setup_Grid does not overflow: the grid sizes and the numbers of
    processes are positive, the products [gridsize * P_grid] of the
    offsets fit an [int], and so does the number of cells of the grid
    with its halo, which bounds the number of elements of every tile and
    every row offset in it. *)
Record valid_input (tp : Topology) (inp : Input) : Prop := {
  nx_pos : 1 <= nx inp;
  ny_pos : 1 <= ny inp;
  P_grid_X_pos : 1 <= Z.of_nat (P_grid_X tp);
  P_grid_Y_pos : 1 <= Z.of_nat (P_grid_Y tp);
  nx_fits : nx inp * Z.of_nat (P_grid_X tp) <= CInt.INT_MAX;
  ny_fits : ny inp * Z.of_nat (P_grid_Y tp) <= CInt.INT_MAX;
  sum_fits : nx inp + ny inp + 4 <= CInt.INT_MAX;
  block_fits : (nx inp + 2) * (ny inp + 2) <= CInt.INT_MAX
}.

(** [dim[X_DIR]] and [dim[Y_DIR]] of the processes at a coordinate. *)
Definition tile_dim_X (tp : Topology) (inp : Input) (cx : nat) : nat :=
  Z.to_nat (Setup_Grid_dim (nx inp) (Z.of_nat cx) (Z.of_nat (P_grid_X tp))).
Definition tile_dim_Y (tp : Topology) (inp : Input) (cy : nat) : nat :=
  Z.to_nat (Setup_Grid_dim (ny inp) (Z.of_nat cy) (Z.of_nat (P_grid_Y tp))).

(** The extents and the offsets of a tile. *)
Definition geometry (t : Tile) : nat * nat * Z * Z :=
  (dim_X t, dim_Y t, offset_X t, offset_Y t).

(** The four corner cells of a tile's halo. *)
Definition corner (t : Tile) (x y : nat) : bool :=
  ((x =? 0)%nat || (x =? dim_X t - 1)%nat)
  && ((y =? 0)%nat || (y =? dim_Y t - 1)%nat).

(** ** Write_Grid

    The lines of [output<rank>.dat]: one
    [fprintf(f, "%i %i %f\n", x + offset[X_DIR], y + offset[Y_DIR], phi[x][y])]
    per interior cell, each as the three values that are formatted. *)
Definition Write_Grid (t : Tile) : list (Z * Z * float) :=
  for_interior t
    (fun x y out =>
       out ++ [(CInt.add (Z.of_nat x) (offset_X t),
                CInt.add (Z.of_nat y) (offset_Y t),
                cell t (phi t) x y)])
    [].

(** ** The timer

    [ticks], [timer_on] and [wtime] ("benchmark related variables").  The
    readings of [clock()] and [MPI_Wtime()] are arguments; [clock_t] is a
    64-bit [long]. *)

Module CLong.

Definition wrap (z : Z) : Z :=
  (z + 9223372036854775808) mod 18446744073709551616 - 9223372036854775808.
Definition sub (a b : Z) : Z := wrap (a - b).
Definition in_range (z : Z) : Prop :=
  -9223372036854775808 <= z <= 9223372036854775807.

End CLong.

Record Timer : Type := mkTimer {
  ticks : Z;
  timer_on : Z;
  wtime : float
}.

Definition start_timer (clock : Z) (MPI_Wtime : float) (s : Timer) : Timer :=
  if timer_on s =? 0 then mkTimer clock 1 MPI_Wtime else s.

Definition resume_timer (clock : Z) (MPI_Wtime : float) (s : Timer) : Timer :=
  if timer_on s =? 0
  then mkTimer (CLong.sub clock (ticks s)) 1 (MPI_Wtime - wtime s)%float
  else s.

Definition stop_timer (clock : Z) (MPI_Wtime : float) (s : Timer) : Timer :=
  if negb (timer_on s =? 0)
  then mkTimer (CLong.sub clock (ticks s)) 0 (MPI_Wtime - wtime s)%float
  else s.

Definition CLOCKS_PER_SEC : Z := 1000000.

(** Conversion of a [long] to [double] (rounded to nearest). *)
Definition long_to_double (z : Z) : float :=
  if z =? -9223372036854775808 then (-0x1p63)%float
  else if z <? 0 then (- of_uint63 (Uint63.of_Z (- z)))%float
  else of_uint63 (Uint63.of_Z z).

(** The two numbers print_timer formats after the rank and [P]: the wall
    clock time and the CPU percentage. *)
Definition timer_report (s : Timer) : float * float :=
  (wtime s,
   (100.0 * long_to_double (ticks s)
    * (1.0 / long_to_double CLOCKS_PER_SEC) / wtime s)%float).

(** print_timer: a running timer is stopped at the readings [c1], [w1],
    reported, and resumed at the readings [c2], [w2]. *)
Definition print_timer (c1 : Z) (w1 : float) (c2 : Z) (w2 : float) (s : Timer)
  : (float * float) * Timer :=
  if negb (timer_on s =? 0) then
    let s := stop_timer c1 w1 s in
    (timer_report s, resume_timer c2 w2 s)
  else (timer_report s, s).

(** ** Example runs *)

(** One process. *)
Definition single : Topology := mkTopology 1 1.

(** An allocator that hands out blocks of zeros. *)
Definition zeroed (n : nat) : CG_blocks :=
  mkCG_blocks (replicate n 0%float) (replicate n 0%float) (replicate n 0%float).

(** A 4 x 4 grid with two sources. *)
Definition small_input : Input :=
  mkInput 4 4 0.0001 5000 [(0.5, 0.5, 1); (0, 0.25, 3)]%float.

(** A 3 x 3 grid with one source of value 1e200 at its centre. *)
Definition huge_source_input : Input :=
  mkInput 3 3 0.0001 5 [(0.5, 0.5, 1e200)]%float.

(** A 4 x 1 grid whose two end cells are sources of value [3 * 2^-537],
    with the smallest positive [double] as precision goal. *)
Definition tiny_source_input : Input :=
  mkInput 4 1 0x1p-1074 1
          [(0, 0, 0x1.8p-536); (0.75, 0, 0x1.8p-536)]%float.

(** A 3 x 3 grid without sources and with a negative precision goal. *)
Definition negative_goal_input : Input :=
  mkInput 3 3 (-1) 1 [].

(** An allocator that hands every process zeroed blocks of the size of
    its tile. *)
Definition calloc (tp : Topology) (inp : Input) (rank : nat) : CG_blocks :=
  zeroed (dim_X (Setup_Grid tp inp rank) * dim_Y (Setup_Grid tp inp rank))%nat.

(** Four processes in a 2 x 2 grid. *)
Definition quad : Topology := mkTopology 2 2.

(** * Lemmas and theorems *)

(** ** Integer arithmetic *)

Lemma wrap_small z : CInt.in_range z -> CInt.wrap z = z.
Proof.
  unfold CInt.in_range, CInt.wrap, CInt.INT_MIN, CInt.INT_MAX. intros H.
  rewrite Z.mod_small; lia.
Qed.

Section Axis.
Variables n P : Z.
Hypothesis Hn : 1 <= n.
Hypothesis HP : 1 <= P.
Hypothesis Hfit : n * P <= CInt.INT_MAX.

Lemma offset_floor c :
  0 <= c <= P -> Setup_Grid_offset n c P = n * c / P.
Proof using Hn HP Hfit.
  intros Hc. unfold Setup_Grid_offset, CInt.div, CInt.mul.
  assert (0 <= n * c <= n * P) by nia.
  rewrite (wrap_small (n * c)) by (unfold CInt.in_range, CInt.INT_MIN; lia).
  rewrite Z.quot_div_nonneg by lia.
  apply wrap_small. unfold CInt.in_range, CInt.INT_MIN.
  assert (0 <= n * c / P) by (apply Z.div_pos; lia).
  assert (n * c / P <= n * c) by (apply Z.div_le_upper_bound; nia).
  lia.
Qed.

Lemma upper_offset_floor c :
  0 <= c < P -> Setup_Grid_upper_offset n c P = n * (c + 1) / P.
Proof using Hn HP Hfit.
  intros Hc. unfold Setup_Grid_upper_offset.
  assert (P <= CInt.INT_MAX) by nia.
  unfold CInt.add. rewrite (wrap_small (c + 1))
    by (unfold CInt.in_range, CInt.INT_MIN; lia).
  apply (offset_floor (c + 1)). lia.
Qed.

Lemma floor_mono a b : a <= b -> n * a / P <= n * b / P.
Proof using Hn HP. intros. apply Z.div_le_mono; nia. Qed.

Lemma owner_exists g :
  0 <= g < n ->
  let c := ((g + 1) * P - 1) / n in
  0 <= c < P /\ n * c / P <= g < n * (c + 1) / P.
Proof using Hn HP.
  intros Hg c.
  assert (Hc0 : 0 <= c) by (apply Z.div_pos; nia).
  assert (Hc1 : n * c <= (g + 1) * P - 1)
    by (unfold c; apply Z.mul_div_le; lia).
  assert (Hc2 : (g + 1) * P - 1 < n * (c + 1)).
  { unfold c. pose proof (Z.mul_succ_div_gt ((g + 1) * P - 1) n). lia. }
  split; [nia|]. split.
  - assert (n * c / P < g + 1); [|lia].
    apply Z.div_lt_upper_bound; lia.
  - assert (g + 1 <= n * (c + 1) / P); [|lia].
    apply Z.div_le_lower_bound; lia.
Qed.

End Axis.

(** ** Partition coverage (C1) *)

Lemma owns_unique n P c c' g :
  1 <= n -> 1 <= P -> n * P <= CInt.INT_MAX ->
  0 <= c < P -> 0 <= c' < P ->
  owns n P c g -> owns n P c' g -> c = c'.
Proof.
  intros Hn HP Hfit Hc Hc'. unfold owns.
  rewrite !offset_floor, !upper_offset_floor by lia. intros H1 H2.
  destruct (Z.lt_trichotomy c c') as [Hlt | [-> | Hlt]]; [exfalso | done | exfalso].
  - pose proof (floor_mono n P Hn HP (c + 1) c' ltac:(lia)). lia.
  - pose proof (floor_mono n P Hn HP (c' + 1) c ltac:(lia)). lia.
Qed.

(** C1, amended.  Along an axis of [n >= 1] cells cut over [P >= 1]
    processes, and as long as the product [n * P] is representable as a C
    [int], the bounds computed by Setup_Grid are the floor formulas, the
    interior intervals [[offset c, upper_offset c)] for [c = 0 .. P-1] start
    at 0, end at [n], each begins where the previous one ends, and every
    global cell of [[0, n)] lies in the interval of exactly one process. *)
Theorem partition_coverage (n P : Z) :
  1 <= n -> 1 <= P -> n * P <= CInt.INT_MAX ->
  (forall c, 0 <= c < P ->
     Setup_Grid_offset n c P = n * c / P /\
     Setup_Grid_upper_offset n c P = n * (c + 1) / P /\
     Setup_Grid_offset n c P <= Setup_Grid_upper_offset n c P) /\
  Setup_Grid_offset n 0 P = 0 /\
  Setup_Grid_upper_offset n (P - 1) P = n /\
  (forall c, 0 <= c < P - 1 ->
     Setup_Grid_upper_offset n c P = Setup_Grid_offset n (c + 1) P) /\
  (forall c c' g, 0 <= c < P -> 0 <= c' < P ->
     owns n P c g -> owns n P c' g -> c = c') /\
  (forall g, 0 <= g < n -> exists c, 0 <= c < P /\ owns n P c g) /\
  (forall c g, 0 <= c < P -> owns n P c g -> 0 <= g < n).
Proof.
  intros Hn HP Hfit. repeat split.
  - apply offset_floor; lia.
  - apply upper_offset_floor; lia.
  - rewrite offset_floor, upper_offset_floor by lia.
    apply floor_mono; lia.
  - rewrite offset_floor by lia. rewrite Z.mul_0_r. apply Z.div_0_l. lia.
  - rewrite upper_offset_floor by lia.
    replace (P - 1 + 1) with P by lia. apply Z.div_mul. lia.
  - intros c Hc. rewrite upper_offset_floor, offset_floor by lia. done.
  - intros c c' g. apply owns_unique; assumption.
  - intros g Hg. exists (((g + 1) * P - 1) / n).
    destruct (owner_exists n P Hn HP g Hg) as [Hc Hown].
    split; [exact Hc|]. unfold owns.
    rewrite offset_floor, upper_offset_floor by lia. exact Hown.
  - destruct H0 as [H0 _]. rewrite offset_floor in H0 by lia.
    assert (0 <= n * c / P) by (apply Z.div_pos; nia). lia.
  - destruct H0 as [_ H0]. rewrite upper_offset_floor in H0 by lia.
    assert (n * (c + 1) / P <= n * P / P) by (apply floor_mono; lia).
    rewrite Z.div_mul in H1 by lia. lia.
Qed.

Lemma partition_coverage_witness :
  1 <= 10 /\ 1 <= 3 /\ 10 * 3 <= CInt.INT_MAX /\
  Setup_Grid_upper_offset 10 (3 - 1) 3 = 10.
Proof.
  assert (H1 : 1 <= 10) by lia.
  assert (H2 : 1 <= 3) by lia.
  assert (H3 : 10 * 3 <= CInt.INT_MAX) by (unfold CInt.INT_MAX; lia).
  split; [exact H1 | split; [exact H2 | split; [exact H3 |]]].
  exact (proj1 (proj2 (proj2 (partition_coverage 10 3 H1 H2 H3)))).
Defined.

(** C1 as stated fails once [n * (coord + 1)] leaves the range of [int]:
    with [n = 2^30] cells on [P = 2] processes the product for the second
    process is [2^31], which wraps to [-2^31]; its upper bound becomes
    [-2^30], and global cell [2^29] lies in no interior interval. *)
Lemma partition_coverage_overflow :
  1 <= 1073741824 /\ 1 <= 2 /\
  Setup_Grid_upper_offset 1073741824 1 2 = -1073741824 /\
  ~ (exists c, 0 <= c < 2 /\ owns 1073741824 2 c 536870912).
Proof.
  repeat split; try lia.
  intros [c [Hc Hown]].
  assert (c = 0 \/ c = 1) as [-> | ->] by lia;
    vm_compute in Hown; destruct Hown as [H1 H2]; congruence.
Qed.

(** ** Loops and grids *)

#[local] Open Scope nat_scope.

Lemma for_foldl {S : Type} lo hi (body : nat -> S -> S) s :
  for_ lo hi body s = foldl (fun s i => body i s) s (seq lo (hi - lo)).
Proof. reflexivity. Qed.

Lemma for_interior_cells {S : Type} t (body : nat -> nat -> S -> S) s :
  for_interior t body s = foldl (fun s c => body c.1 c.2 s) s (interior_cells t).
Proof.
  unfold for_interior, interior_cells, for_.
  generalize (seq 1 (dim_X t - 1 - 1)) as xs. intros xs. revert s.
  induction xs as [|x xs IH]; intros s; [done|].
  rewrite bind_cons, foldl_app. cbn [foldl]. rewrite IH. f_equal.
  generalize (seq 1 (dim_Y t - 1 - 1)) as ys. intros ys. revert s.
  induction ys as [|y ys IHy]; intros s; [done|]. cbn. apply IHy.
Qed.

Lemma interior_cells_spec t x y :
  (x, y) ∈ interior_cells t <-> interior t x y = true.
Proof.
  unfold interior_cells, interior. rewrite list_elem_of_bind. split.
  - intros (x' & Hy & Hx). apply list_elem_of_fmap in Hy as (y' & Heq & Hy).
    inversion Heq; subst. apply elem_of_seq in Hx, Hy.
    repeat (apply andb_true_intro; split);
      first [apply Nat.leb_le | apply Nat.ltb_lt]; lia.
  - intros H. repeat (apply andb_prop in H as [H ?]).
    apply Nat.leb_le in H. apply Nat.ltb_lt in H0, H2. apply Nat.leb_le in H1.
    exists x. split.
    + apply list_elem_of_fmap. exists y. split; [done|]. apply elem_of_seq. lia.
    + apply elem_of_seq. lia.
Qed.

Lemma interior_cells_NoDup t : NoDup (interior_cells t).
Proof.
  unfold interior_cells. apply NoDup_bind.
  - intros x1 x2 c _ _ H1 H2.
    apply list_elem_of_fmap in H1 as (? & -> & _).
    apply list_elem_of_fmap in H2 as (? & Heq & _). by inversion Heq.
  - intros x _. apply NoDup_fmap_2; [|apply NoDup_seq].
    intros y1 y2 Heq. by inversion Heq.
  - apply NoDup_seq.
Qed.

Lemma interior_bounds t x y :
  interior t x y = true ->
  1 <= x /\ x + 1 < dim_X t /\ 1 <= y /\ y + 1 < dim_Y t.
Proof.
  unfold interior. intros H. repeat (apply andb_prop in H as [H ?]).
  apply Nat.leb_le in H. apply Nat.ltb_lt in H0, H2. apply Nat.leb_le in H1.
  lia.
Qed.

Lemma idx_lt dimx dimy x y : x < dimx -> y < dimy -> idx dimy x y < dimx * dimy.
Proof. unfold idx. nia. Qed.

Lemma idx_div dimy x y : y < dimy -> idx dimy x y / dimy = x.
Proof.
  intros. unfold idx. rewrite Nat.div_add_l by lia.
  rewrite Nat.div_small by lia. lia.
Qed.

Lemma idx_mod dimy x y : y < dimy -> idx dimy x y mod dimy = y.
Proof.
  intros. unfold idx. rewrite Nat.add_comm, Nat.Div0.mod_add.
  apply Nat.mod_small. lia.
Qed.

Lemma idx_inj dimy x y x' y' :
  y < dimy -> y' < dimy -> idx dimy x y = idx dimy x' y' -> x = x' /\ y = y'.
Proof.
  intros Hy Hy' Heq. split.
  - rewrite <- (idx_div dimy x y Hy), <- (idx_div dimy x' y' Hy'). by rewrite Heq.
  - rewrite <- (idx_mod dimy x y Hy), <- (idx_mod dimy x' y' Hy'). by rewrite Heq.
Qed.

Lemma idx_div_mod dimy i : 0 < dimy -> idx dimy (i / dimy) (i mod dimy) = i.
Proof.
  intros. unfold idx. pose proof (Nat.div_mod_eq i dimy). lia.
Qed.

(** A loop invariant rule for a sweep over a list of cells: [Inv l s] is
    to hold of the state [s] reached when exactly the cells [l] have been
    visited. *)
Lemma foldl_inv {S C : Type} (Inv : list C -> S -> Prop)
  (body : S -> C -> S) (cells : list C) (s0 : S) :
  Inv [] s0 ->
  (forall l1 c l2 s, cells = l1 ++ c :: l2 -> Inv l1 s ->
                     Inv (l1 ++ [c]) (body s c)) ->
  Inv cells (foldl body s0 cells).
Proof.
  intros H0 Hstep.
  assert (forall l1 l2, cells = l1 ++ l2 -> Inv l1 (foldl body s0 l1)) as H.
  { induction l1 as [|c l1 IH] using rev_ind; intros l2 Heq; [done|].
    rewrite foldl_app. cbn. rewrite <- app_assoc in Heq. cbn in Heq.
    eapply Hstep; [exact Heq|]. eapply IH. exact Heq. }
  apply (H cells []). by rewrite app_nil_r.
Qed.

Lemma cell_put t g x y v :
  idx (dim_Y t) x y < length g -> cell t (put t g x y v) x y = v.
Proof.
  intros H. unfold cell, put, load, store.
  by rewrite list_lookup_insert_eq.
Qed.

Lemma put_length t g x y v : length (put t g x y v) = length g.
Proof. apply length_insert. Qed.

Lemma interior_idx_lt t x y :
  interior t x y = true -> idx (dim_Y t) x y < dim_X t * dim_Y t.
Proof. intros H%interior_bounds. apply idx_lt; lia. Qed.

Section Sweep.
Variable t : Tile.
Variable sel : nat -> nat -> bool.
Variable val : nat -> nat -> float.
Variable g0 : list float.
Hypothesis g0_length : length g0 = dim_X t * dim_Y t.

Lemma swept_nil : swept t sel val [] g0 g0.
Proof.
  split; [done|]. split; [|done]. intros x y H. by apply elem_of_nil in H.
Qed.

Lemma swept_snoc l1 x y l2 g :
  interior_cells t = l1 ++ (x, y) :: l2 ->
  swept t sel val l1 g0 g ->
  swept t sel val (l1 ++ [(x, y)]) g0
        (if sel x y then put t g x y (val x y) else g).
Proof using g0_length.
  intros Hsplit (Hlen & Hnew & Hold).
  pose proof (interior_cells_NoDup t) as Hnd. rewrite Hsplit in Hnd.
  apply NoDup_app in Hnd as (_ & Hnotin & _).
  assert (Hin : forall c, c ∈ l1 ++ [(x, y)] -> interior t c.1 c.2 = true).
  { intros [x' y'] Hc. apply interior_cells_spec. rewrite Hsplit.
    apply elem_of_app in Hc as [Hc | Hc]; apply elem_of_app; [by left | right].
    apply list_elem_of_singleton in Hc as ->. apply elem_of_cons. by left. }
  assert (Hxy : interior t x y = true).
  { apply (Hin (x, y)), elem_of_app. right. by apply list_elem_of_singleton. }
  assert (Hdiff : forall x' y', (x', y') ∈ l1 ->
                    idx (dim_Y t) x' y' <> idx (dim_Y t) x y).
  { intros x' y' Hc Heq.
    pose proof (Hin (x', y') ltac:(apply elem_of_app; by left)) as Hc'.
    apply interior_bounds in Hc', Hxy. cbn in Hc'.
    apply idx_inj in Heq as [-> ->]; [|lia..].
    apply (Hnotin (x, y)); [done|]. apply elem_of_cons. by left. }
  split; [|split].
  - destruct (sel x y); [rewrite put_length|]; done.
  - intros x' y' Hc Hs. apply elem_of_app in Hc as [Hc | Hc].
    + destruct (sel x y).
      * unfold put, store. rewrite list_lookup_insert_ne; [by apply Hnew|].
        intros Heq. by apply (Hdiff x' y').
      * by apply Hnew.
    + apply list_elem_of_singleton in Hc. inversion Hc; subst x' y'.
      rewrite Hs. unfold put, store. apply list_lookup_insert_eq.
      rewrite Hlen, g0_length. by apply interior_idx_lt.
  - intros i Hi.
    assert (g !! i = g0 !! i) as <-.
    { apply Hold. intros x' y' Hc Hs. apply Hi; [|done].
      apply elem_of_app. by left. }
    destruct (sel x y) eqn:Hs; [|done].
    unfold put, store. apply list_lookup_insert_ne. apply Hi; [|done].
    apply elem_of_app. right. by apply list_elem_of_singleton.
Qed.

Lemma swept_all g :
  swept t sel val (interior_cells t) g0 g -> g = update_interior t sel val g0.
Proof.
  intros (Hlen & Hnew & Hold). apply list_eq. intros i.
  unfold update_interior. rewrite list_lookup_imap.
  destruct (g0 !! i) as [v|] eqn:Hv; cbn.
  - destruct (interior t (i / dim_Y t) (i mod dim_Y t)) eqn:Hint; cbn.
    + destruct (sel (i / dim_Y t) (i mod dim_Y t)) eqn:Hs.
      * pose proof (interior_bounds _ _ _ Hint).
        rewrite <- (idx_div_mod (dim_Y t) i) at 1 by lia.
        apply Hnew; [|done]. by apply interior_cells_spec.
      * rewrite <- Hv. apply Hold. intros x y Hc Hsxy <-.
        apply interior_cells_spec, interior_bounds in Hc.
        rewrite idx_div, idx_mod in Hs by lia. congruence.
    + rewrite <- Hv. apply Hold. intros x y Hc Hsxy <-.
      apply interior_cells_spec in Hc. pose proof (interior_bounds _ _ _ Hc).
      rewrite idx_div, idx_mod in Hint by lia. congruence.
  - rewrite <- Hv. apply Hold. intros x y Hc _ <-.
    apply interior_cells_spec, interior_idx_lt in Hc.
    apply lookup_ge_None in Hv. lia.
Qed.

(** An element no selected visited cell occupies still has its old value. *)
Lemma swept_cell_old l g x y :
  swept t sel val l g0 g ->
  (forall x' y', (x', y') ∈ l -> sel x' y' = true ->
                 idx (dim_Y t) x' y' <> idx (dim_Y t) x y) ->
  cell t g x y = cell t g0 x y.
Proof.
  intros (_ & _ & Hold) H. unfold cell, load. by rewrite Hold.
Qed.

End Sweep.

(** ** Floating point *)

Lemma float_mul_comm (x y : float) : (x * y)%float = (y * x)%float.
Proof.
  apply Prim2SF_inj. rewrite !mul_spec. unfold SF64mul, SFmul.
  destruct (Prim2SF x) as [sx | sx | | sx mx ex],
           (Prim2SF y) as [sy | sy | | sy my ey];
    try reflexivity; try (by rewrite xorb_comm).
  by rewrite xorb_comm, Pos.mul_comm, Z.add_comm.
Qed.

Lemma SFcompare_antisym a b :
  SFcompare b a = option_map CompOpp (SFcompare a b).
Proof.
  destruct a as [sa | sa | | sa ma ea], b as [sb | sb | | sb mb eb];
    cbn; try done; try (by destruct sa); try (by destruct sb);
    try (by destruct sa, sb).
  rewrite (Z.compare_antisym ea eb), !Pos.compare_cont_spec.
  rewrite (Pos.compare_antisym ma mb).
  destruct sa, sb, (ea ?= eb)%Z, (ma ?= mb)%positive; done.
Qed.

Lemma SFcompare_None a b :
  SFcompare a b = None -> a = S754_nan \/ b = S754_nan.
Proof. destruct a, b; cbn; try done; auto. Qed.

Lemma SFcompare_refl a : a <> S754_nan -> SFcompare a a = Some Eq.
Proof.
  destruct a as [s | s | | s m e]; cbn; try done; try (by destruct s).
  intros _. rewrite Z.compare_refl, Pos.compare_cont_refl. by destruct s.
Qed.

Lemma is_nan_spec (x : float) : is_nan x = true <-> Prim2SF x = S754_nan.
Proof.
  unfold is_nan. rewrite FloatAxioms.eqb_spec. unfold SFeqb. split.
  - intros H. destruct (Prim2SF x) as [s | s | | s m e] eqn:Hx; [| |done|];
      by rewrite SFcompare_refl in H.
  - by intros ->.
Qed.

Lemma is_nan_false (x : float) : is_nan x = false <-> Prim2SF x <> S754_nan.
Proof.
  rewrite <- is_nan_spec. by destruct (is_nan x).
Qed.

(** [!(x > y)] is [x <= y] unless one of the two is a NaN. *)
Lemma float_not_gt_le (x y : float) :
  is_nan x = false -> is_nan y = false ->
  (y <? x)%float = false -> (x <=? y)%float = true.
Proof.
  rewrite !is_nan_false, ltb_spec, leb_spec. unfold SFltb, SFleb.
  intros Hx Hy. rewrite (SFcompare_antisym (Prim2SF x) (Prim2SF y)).
  destruct (SFcompare (Prim2SF x) (Prim2SF y)) as [[]|] eqn:Hc; cbn; try done.
  by destruct (SFcompare_None _ _ Hc).
Qed.

Lemma float_ltb_not_nan (x y : float) :
  (x <? y)%float = true -> is_nan x = false /\ is_nan y = false.
Proof.
  rewrite !is_nan_false, ltb_spec. unfold SFltb.
  destruct (Prim2SF x), (Prim2SF y); cbn; done.
Qed.

(** [a <= m] and [m < e] give [a < e], when [a] is not a NaN. *)
Lemma SFltb_le_lt (a m e : spec_float) :
  a <> S754_nan -> SFltb m a = false -> SFltb m e = true -> SFltb a e = true.
Proof.
  unfold SFltb.
  destruct a as [sa|sa| |sa ma ea], m as [sm|sm| |sm mm em],
    e as [se|se| |se me ee]; cbn; try done;
    repeat match goal with s : bool |- _ => destruct s end; cbn; try done;
    change (PosDef.Pos.compare_cont Eq) with Pos.compare;
    repeat match goal with
    | |- context [(?x ?= ?y)%Z] => destruct (Z.compare_spec x y)
    | |- context [(?x ?= ?y)%positive] => destruct (Pos.compare_spec x y)
    end; cbn; try done; try lia.
Qed.

Lemma float_le_lt (a m e : float) :
  is_nan a = false -> (m <? a)%float = false -> (m <? e)%float = true ->
  (a <? e)%float = true.
Proof.
  rewrite is_nan_false, !ltb_spec. apply SFltb_le_lt.
Qed.



(** The change Do_Step reports and the maxima formed of such changes are
    never NaN: a NaN never wins the comparison [max_err < e]. *)
Lemma track_max_not_nan m e :
  is_nan m = false -> is_nan (track_max m e) = false.
Proof.
  intros Hm. unfold track_max. destruct (m <? e)%float eqn:H; [|done].
  by apply float_ltb_not_nan in H as [_ H].
Qed.

(** ** Do_Step (C2) *)

Lemma Do_Step_parity t parity x y :
  tile_ok t -> x < dim_X t -> y < dim_Y t ->
  (CInt.rem (CInt.add (CInt.add (Z.of_nat x) (Z.of_nat y))
                      (CInt.add (offset_X t) (offset_Y t))) 2 =? parity)%Z
  = ((Z.of_nat x + Z.of_nat y + offset_X t + offset_Y t) mod 2 =? parity)%Z.
Proof.
  intros [] Hx Hy. unfold CInt.add, CInt.rem.
  rewrite (wrap_small (Z.of_nat x + Z.of_nat y))
    by (unfold CInt.in_range, CInt.INT_MIN; lia).
  rewrite (wrap_small (offset_X t + offset_Y t))
    by (unfold CInt.in_range, CInt.INT_MIN; lia).
  rewrite wrap_small by (unfold CInt.in_range, CInt.INT_MIN; lia).
  rewrite Z.rem_mod_nonneg by lia. f_equal. f_equal. lia.
Qed.

(** Red and black: the four axis neighbours of a cell of one colour have
    the other colour. *)
Lemma sor_eligible_neighbour t parity x y x' y' :
  sor_eligible t parity x y = true ->
  (x' = x + 1 /\ y' = y) \/ (x' + 1 = x /\ y' = y) \/
  (x' = x /\ y' = y + 1) \/ (x' = x /\ y' + 1 = y) ->
  sor_eligible t parity x' y' = false.
Proof.
  unfold sor_eligible. intros H Hn. apply andb_prop in H as [H _].
  apply Z.eqb_eq in H. apply andb_false_intro1, Z.eqb_neq.
  intros H'. revert H H'. generalize (offset_X t) (offset_Y t). intros ox oy.
  Z.div_mod_to_equations. lia.
Qed.

Lemma filter_snoc_bool {C : Type} (f : C -> bool) l c :
  filter (fun c => f c = true) (l ++ [c])
  = filter (fun c => f c = true) l ++ (if f c then [c] else []).
Proof.
  rewrite filter_app. f_equal. rewrite filter_cons, filter_nil.
  destruct (f c); [rewrite decide_True | rewrite decide_False]; done.
Qed.

Lemma interior_cells_split t l1 x y l2 :
  interior_cells t = l1 ++ (x, y) :: l2 ->
  interior t x y = true /\ ((x, y) ∉ l1) /\
  (forall a b, (a, b) ∈ l1 -> interior t a b = true).
Proof.
  intros Hsplit. pose proof (interior_cells_NoDup t) as Hnd.
  rewrite Hsplit in Hnd. apply NoDup_app in Hnd as (_ & Hnotin & _).
  split; [|split].
  - apply interior_cells_spec. rewrite Hsplit. apply elem_of_app. right.
    apply elem_of_cons. by left.
  - intros Hc. apply (Hnotin _ Hc). apply elem_of_cons. by left.
  - intros a b Hc. apply interior_cells_spec. rewrite Hsplit.
    apply elem_of_app. by left.
Qed.

Lemma Do_Step_sweep t parity :
  tile_ok t ->
  exists g,
    for_interior t (Do_Step_cell t parity) (phi t, 0%float)
    = (g, foldl track_max 0%float
            (map (fun c => abs (cell t (phi t) c.1 c.2
                                - sor_new_value t (phi t) c.1 c.2)%float)
                 (sor_updated t parity)))
    /\ swept t (sor_eligible t parity) (sor_new_value t (phi t))
             (interior_cells t) (phi t) g.
Proof.
  intros Hok. rewrite for_interior_cells.
  set (err := fun c : nat * nat =>
                abs (cell t (phi t) c.1 c.2
                     - sor_new_value t (phi t) c.1 c.2)%float).
  set (sel := fun c : nat * nat => sor_eligible t parity c.1 c.2).
  pose (Inv := fun (l : list (nat * nat)) (s : list float * float) =>
          swept t (sor_eligible t parity) (sor_new_value t (phi t)) l (phi t) s.1
          /\ s.2 = foldl track_max 0%float
                     (map err (filter (fun c => sel c = true) l))).
  assert (Inv (interior_cells t)
            (foldl (fun s c => Do_Step_cell t parity c.1 c.2 s)
                   (phi t, 0%float) (interior_cells t))) as HInv.
  { apply foldl_inv.
    - split; [apply swept_nil | done].
    - intros l1 [x y] l2 [g m] Hsplit [Hsw Hm]. cbn [fst snd] in *.
      destruct (interior_cells_split _ _ _ _ _ Hsplit) as (Hint & Hnotin & Hl1).
      pose proof (interior_bounds _ _ _ Hint) as Hb.
      pose proof (swept_snoc t (sor_eligible t parity)
                    (sor_new_value t (phi t)) (phi t) (phi_ok t Hok)
                    l1 x y l2 g Hsplit Hsw) as Hsnoc.
      unfold Inv, Do_Step_cell. rewrite filter_snoc_bool.
      rewrite Do_Step_parity by (done || lia).
      change (((Z.of_nat x + Z.of_nat y + offset_X t + offset_Y t) mod 2
               =? parity)%Z && not_fixed t x y)
        with (sor_eligible t parity x y).
      destruct (sor_eligible t parity x y) eqn:Hsel; cbn [fst snd].
      + assert (Hread : forall x' y',
                  (x' = x /\ y' = y) \/ (x' = x + 1 /\ y' = y) \/
                  (x' + 1 = x /\ y' = y) \/ (x' = x /\ y' = y + 1) \/
                  (x' = x /\ y' + 1 = y) ->
                  cell t g x' y' = cell t (phi t) x' y').
        { intros x' y' Hn.
          eapply swept_cell_old; [exact Hsw|].
          intros a b Hab Hs Heq.
          pose proof (interior_bounds _ _ _ (Hl1 a b Hab)).
          apply idx_inj in Heq as [-> ->]; [|lia..].
          destruct Hn as [[-> ->] | Hn]; [by apply Hnotin|].
          rewrite (sor_eligible_neighbour t parity x y x' y' Hsel) in Hs
            by tauto.
          done. }
        rewrite (Hread x y) by (left; done).
        rewrite (Hread (x + 1) y), (Hread (x - 1) y), (Hread x (y + 1)),
          (Hread x (y - 1)) by lia.
        assert (Hval :
          (cell t (phi t) x y
           + omega * ((cell t (phi t) (x + 1) y + cell t (phi t) (x - 1) y
                       + cell t (phi t) x (y + 1) + cell t (phi t) x (y - 1))
                      * 0.25 - cell t (phi t) x y))%float
          = sor_new_value t (phi t) x y).
        { unfold sor_new_value, omega. by rewrite (float_mul_comm 0.25). }
        rewrite Hval. rewrite cell_put.
        2:{ destruct Hsw as [-> _]. rewrite (phi_ok t Hok).
            by apply interior_idx_lt. }
        split; [exact Hsnoc|].
        rewrite map_app, foldl_app. subst m.
        change (sel (x, y)) with (sor_eligible t parity x y).
        by rewrite Hsel.
      + split; [exact Hsnoc|]. subst m.
        change (sel (x, y)) with (sor_eligible t parity x y).
        by rewrite Hsel, app_nil_r. }
  destruct (foldl _ _ _) as [g m]. destruct HInv as [Hsw Hm].
  cbn [fst snd] in *. exists g. split; [|exact Hsw]. by rewrite Hm.
Qed.




(** ** Do_Step_CG (C3) *)

(** A sweep whose body stores into the cell it visits a value that depends
    on that cell alone is the cell-by-cell update of the interior. *)
Lemma for_interior_pointwise t
  (body : nat -> nat -> list float -> list float)
  (val : nat -> nat -> float) (g0 : list float) :
  length g0 = dim_X t * dim_Y t ->
  (forall x y g, interior t x y = true -> length g = length g0 ->
                 cell t g x y = cell t g0 x y ->
                 body x y g = put t g x y (val x y)) ->
  for_interior t body g0 = update_interior t everywhere val g0.
Proof.
  intros Hlen Hbody. rewrite for_interior_cells.
  apply swept_all; [done|].
  apply (foldl_inv (fun l g => swept t everywhere val l g0 g)).
  - by apply swept_nil.
  - intros l1 [x y] l2 g Hsplit Hsw. cbn [fst snd].
    destruct (interior_cells_split _ _ _ _ _ Hsplit) as (Hint & Hnotin & Hl1).
    pose proof (interior_bounds _ _ _ Hint) as Hb.
    rewrite Hbody.
    + apply (swept_snoc t everywhere val g0 Hlen l1 x y l2 g Hsplit Hsw).
    + done.
    + apply Hsw.
    + eapply swept_cell_old; [exact Hsw|]. intros a b Hab _ Heq.
      pose proof (interior_bounds _ _ _ (Hl1 a b Hab)).
      apply idx_inj in Heq as [-> ->]; [|lia..]. by apply Hnotin.
Qed.

Lemma dot_interior_sum t a b :
  dot_interior t a b
  = sum_interior t (fun x y => (cell t a x y * cell t b x y)%float).
Proof. unfold dot_interior. by rewrite for_interior_cells. Qed.

Lemma Do_Step_CG_pdotv_spec t :
  cg_ok t -> Do_Step_CG_pdotv t = (set_vCG t (cg_v t), cg_pdotv t).
Proof.
  intros Hok. unfold Do_Step_CG_pdotv.
  assert (for_interior t (Do_Step_CG_v_cell t) (vCG t) = cg_v t) as ->.
  { apply for_interior_pointwise; [apply Hok|].
    intros x y g Hint Hlen _. unfold Do_Step_CG_v_cell.
    assert (idx (dim_Y t) x y < length g) as Hi.
    { rewrite Hlen, (cg_vCG_ok t Hok). by apply interior_idx_lt. }
    destruct (not_fixed t x y); [|done].
    rewrite cell_put by done. unfold put, store.
    rewrite list_insert_insert_eq. by rewrite (float_mul_comm 0.25). }
  by rewrite dot_interior_sum.
Qed.

Lemma Do_Step_CG_update_spec gp t :
  cg_ok t ->
  let a := (global_residue t / gp)%float in
  let phi' :=
    update_interior t everywhere
      (fun x y => (cell t (phi t) x y + a * cell t (pCG t) x y)%float) (phi t) in
  let r' :=
    update_interior t everywhere
      (fun x y => (cell t (rCG t) x y - a * cell t (vCG t) x y)%float) (rCG t) in
  Do_Step_CG_update gp t
  = (set_rCG (set_phi t phi') r',
     sum_interior t (fun x y => (cell t r' x y * cell t r' x y)%float)).
Proof.
  intros Hok a phi' r'. unfold Do_Step_CG_update. fold a.
  assert (for_interior t
            (fun x y g => put t g x y (cell t g x y + a * cell t (pCG t) x y)%float)
            (phi t) = phi') as ->.
  { apply for_interior_pointwise; [apply Hok|].
    intros x y g _ _ Hc. by rewrite Hc. }
  set (t1 := set_phi t phi').
  assert (for_interior t1
            (fun x y g => put t1 g x y (cell t1 g x y - a * cell t1 (vCG t1) x y)%float)
            (rCG t1) = r') as ->.
  { apply (for_interior_pointwise t1); [apply Hok|].
    intros x y g _ _ Hc. by rewrite Hc. }
  by rewrite dot_interior_sum.
Qed.

Lemma Do_Step_CG_direction_spec gn t :
  cg_ok t ->
  let g := (gn / global_residue t)%float in
  Do_Step_CG_direction gn t
  = set_pCG (set_global_residue t gn)
      (update_interior t everywhere
         (fun x y => (cell t (rCG t) x y + g * cell t (pCG t) x y)%float)
         (pCG t)).
Proof.
  intros Hok g. unfold Do_Step_CG_direction. fold g. f_equal.
  apply (for_interior_pointwise (set_global_residue t gn)); [apply Hok|].
  intros x y p _ _ Hc. by rewrite Hc.
Qed.

Lemma update_interior_length t sel val g :
  length (update_interior t sel val g) = length g.
Proof. unfold update_interior. apply length_imap. Qed.

Lemma update_interior_cell t sel val g x y :
  length g = dim_X t * dim_Y t -> interior t x y = true ->
  cell t (update_interior t sel val g) x y
  = if sel x y then val x y else cell t g x y.
Proof.
  intros Hlen Hint. pose proof (interior_bounds _ _ _ Hint) as Hb.
  unfold cell, load, update_interior. rewrite list_lookup_imap.
  destruct (lookup_lt_is_Some_2 g (idx (dim_Y t) x y)) as [v Hv].
  { rewrite Hlen. by apply interior_idx_lt. }
  rewrite Hv. cbn. rewrite idx_div, idx_mod by lia. rewrite Hint. cbn.
  by destruct (sel x y).
Qed.

Lemma CG_iteration_lookup w a :
  CG_iteration w !! a
  = (fun t => mkTile (dim_X t) (dim_Y t) (offset_X t) (offset_Y t)
                     (cg_phi w t) (source t) (cg_p w t) (cg_r w t) (cg_v t)
                     (cg_new_rdotr w)) <$> w !! a.
Proof. unfold CG_iteration. by rewrite list_lookup_fmap. Qed.

(** The loops of Do_Step_CG, cut at the two reductions, compute the
    iteration the specification describes. *)
Lemma Do_Step_CG_iteration (w : list Tile) :
  Forall cg_ok w -> Do_Step_CG w = CG_iteration w.
Proof.
  intros Hok. unfold Do_Step_CG, CG_iteration.
  assert (H1 : Do_Step_CG_pdotv <$> w
               = (fun t => (set_vCG t (cg_v t), cg_pdotv t)) <$> w).
  { apply list_fmap_ext. intros i t Hi. apply Do_Step_CG_pdotv_spec.
    eapply Forall_lookup_1; eauto. }
  rewrite H1. clear H1.
  rewrite <- !list_fmap_compose.
  change (MPI_Allreduce_SUM (snd ∘ (fun t => (set_vCG t (cg_v t), cg_pdotv t)) <$> w))
    with (cg_global_pdotv w).
  assert (H2 : forall t, cg_ok t ->
            Do_Step_CG_update (cg_global_pdotv w) (set_vCG t (cg_v t))
            = (set_rCG (set_phi (set_vCG t (cg_v t)) (cg_phi w t)) (cg_r w t),
               sum_interior t (fun x y => (cell t (cg_r w t) x y
                                           * cell t (cg_r w t) x y)%float))).
  { intros t Ht. rewrite Do_Step_CG_update_spec; [done|].
    destruct Ht. split; try done. cbn. unfold cg_v, update_interior.
    by rewrite length_imap. }
  assert (H3 : MPI_Allreduce_SUM
                 (snd ∘ (fun l => Do_Step_CG_update (cg_global_pdotv w) l.1)
                      ∘ (fun t => (set_vCG t (cg_v t), cg_pdotv t)) <$> w)
               = cg_new_rdotr w).
  { unfold cg_new_rdotr. f_equal. apply list_fmap_ext. intros i t Hi.
    unfold compose. cbn [fst snd].
    rewrite H2; [done|]. eapply Forall_lookup_1; eauto. }
  rewrite H3. apply list_fmap_ext. intros i t Hi.
  assert (Ht : cg_ok t) by (eapply Forall_lookup_1; eauto).
  unfold compose. cbn [fst snd]. rewrite H2 by done. cbn [fst snd].
  rewrite Do_Step_CG_direction_spec.
  - reflexivity.
  - destruct Ht. split; cbn; try done;
      unfold cg_phi, cg_r, cg_v, update_interior; by rewrite length_imap.
Qed.


(** ** Descriptors of the border transfers (C6) *)

(** C6, amended.  The calls of Exchange_Borders that talk to the top and
    bottom neighbours use [border_type[Y_DIR]], which covers
    [dim[X_DIR] - 2] (the interior width) elements at stride [dim[Y_DIR]]
    (the row length); the calls that talk to the left and right neighbours
    use [border_type[X_DIR]], which covers [dim[Y_DIR] - 2] (the interior
    height) elements at stride 1. *)
Theorem border_type_descriptors (t : Tile) :
  (forall c, c ∈ Exchange_Borders_calls ->
     dest c = proc_top \/ dest c = proc_bottom ->
     (recvfrom c = proc_top \/ recvfrom c = proc_bottom) /\
     sendtype c = Y_DIR /\ recvtype c = Y_DIR) /\
  (forall c, c ∈ Exchange_Borders_calls ->
     dest c = proc_left \/ dest c = proc_right ->
     (recvfrom c = proc_left \/ recvfrom c = proc_right) /\
     sendtype c = X_DIR /\ recvtype c = X_DIR) /\
  border_type t Y_DIR = MPI_Type_vector (interior_width t) 1 (dim_Y t) /\
  border_type t X_DIR = MPI_Type_vector (interior_height t) 1 1.
Proof.
  unfold Exchange_Borders_calls. repeat split;
    repeat (apply elem_of_cons in H as [-> | H]; cbn in *;
            [solve [tauto | destruct H0; discriminate] |]);
    by apply elem_of_nil in H.
Qed.

(** C6 as stated fails on a tile with a 3 x 2 interior: the call that
    sends to the top neighbour uses a descriptor of 3 elements at stride 4,
    not of [interior_height = 2] elements at stride 1. *)
Lemma border_type_claim_fails :
  let t := blank_tile 5 4 0 0 in
  ~ (forall c, c ∈ Exchange_Borders_calls ->
       (dest c = proc_top \/ dest c = proc_bottom ->
        count (border_type t (sendtype c)) = interior_height t /\
        stride (border_type t (sendtype c)) = 1) /\
       (dest c = proc_left \/ dest c = proc_right ->
        count (border_type t (sendtype c)) = interior_width t /\
        stride (border_type t (sendtype c)) = dim_Y t)).
Proof.
  intros t H.
  destruct (H (mkSendrecv (fun _ => (1, 1)) Y_DIR proc_top
                          (fun t => (1, dim_Y t - 1)) Y_DIR proc_bottom))
    as [Htop _].
  - apply elem_of_cons. by left.
  - destruct Htop as [Hc _]; [by left|]. cbn in Hc. discriminate.
Qed.

(** ** The iteration cap (C9) *)

Lemma InitCG_phi malloc w : phi <$> InitCG malloc w = phi <$> w.
Proof.
  unfold InitCG. apply list_eq. intros i.
  rewrite !list_lookup_fmap, list_lookup_imap.
  destruct (w !! i) as [t|]; [|done]. cbn. unfold InitCG_local.
  by destruct (for_interior t (InitCG_cell t) _) as [[p r] rd].
Qed.

(** C9.  With [max_iter = 0] the loop of Solve is not entered, in the CG
    build and in the SOR build alike: the count reported is 0 and [phi] is
    on every process the grid that Setup_Grid left. *)
Theorem max_iter_zero tp malloc inp :
  max_iter_in inp = 0%Z ->
  (exists w, main tp malloc inp = Some (w, 0%Z)
             /\ phi <$> w = phi <$> processes tp inp) /\
  (exists delta, main_SOR tp inp = Some (processes tp inp, delta, 0%Z)).
Proof.
  intros H. unfold main, main_SOR, Solve, Solve_SOR. rewrite H.
  change (Z.to_nat 0) with O. cbn [Solve_loop Solve_SOR_loop].
  change (0 <? 0)%Z with false. rewrite !andb_false_r. split.
  - eexists. split; [done|]. apply InitCG_phi.
  - by eexists.
Qed.

(** ** The trivial case of CG (C8) *)

Lemma Prim2SF_zero : Prim2SF 0%float = S754_zero false.
Proof. reflexivity. Qed.

Lemma float_ltb_zero_asym (g : float) :
  (0 <? g)%float = true -> (g <? 0)%float = false.
Proof.
  rewrite !ltb_spec, Prim2SF_zero. unfold SFltb.
  destruct (Prim2SF g) as [s | s | | s m e]; cbn; try done; by destruct s.
Qed.

Lemma load_replicate_zero n i : load (replicate n 0%float) i = 0%float.
Proof.
  unfold load. destruct (replicate n 0%float !! i) as [v|] eqn:H; [|done].
  by apply lookup_replicate in H as [-> _].
Qed.

Lemma cell_put_zero t g x y : cell t (put t g x y 0%float) x y = 0%float.
Proof.
  unfold cell, put, load, store.
  destruct (decide (idx (dim_Y t) x y < length g)) as [H|H].
  - by rewrite list_lookup_insert_eq.
  - rewrite (lookup_ge_None_2 (<[_ := _]> g)); [done|].
    rewrite length_insert. lia.
Qed.

Lemma InitCG_local_blank m dimx dimy ox oy :
  (InitCG_local m (blank_tile dimx dimy ox oy)).2 = 0%float.
Proof.
  unfold InitCG_local. rewrite for_interior_cells.
  set (t := blank_tile dimx dimy ox oy).
  assert ((foldl (fun s c => InitCG_cell t c.1 c.2 s)
                 (block_p m, block_r m, 0%float) (interior_cells t)).2
          = 0%float) as H.
  { apply (foldl_inv (fun _ (s : list float * list float * float) =>
                        s.2 = 0%float)); [done|].
    intros _ [x y] _ [[p r] rd] _ Hrd. cbn [fst snd] in *. subst rd.
    unfold InitCG_cell.
    assert (neighbour_sum t (phi t) x y * 0.25 = 0)%float as ->.
    { unfold neighbour_sum, cell. cbn [phi t blank_tile].
      by rewrite !load_replicate_zero. }
    cbn [snd]. destruct (not_fixed t x y); by rewrite !cell_put_zero. }
  destruct (foldl _ _ _) as [[p r] rd]. exact H.
Qed.

(** C8.  On one process, with no source in the input, the grid Setup_Grid
    builds is all zeros, InitCG leaves [global_residue = 0], and for every
    positive precision goal Solve does no iteration and reports count 0. *)
Theorem CG_trivial_case malloc inp :
  sources inp = [] ->
  (0 <? precision_goal_in inp)%float = true ->
  exists dimx dimy ox oy,
    processes single inp = [blank_tile dimx dimy ox oy] /\
    residue (InitCG malloc (processes single inp)) = 0%float /\
    main single malloc inp = Some (InitCG malloc (processes single inp), 0%Z).
Proof.
  intros Hsrc Hgoal.
  assert (exists dimx dimy ox oy,
            processes single inp = [blank_tile dimx dimy ox oy])
    as (dimx & dimy & ox & oy & Hw).
  { unfold processes, Setup_Grid. rewrite Hsrc. cbn. by do 4 eexists. }
  assert (residue (InitCG malloc (processes single inp)) = 0%float) as Hres.
  { rewrite Hw. unfold InitCG. cbn.
    pose proof (InitCG_local_blank (malloc 0%nat) dimx dimy ox oy) as H.
    destruct (InitCG_local _ _) as [t' rd]. cbn in *. by subst rd. }
  exists dimx, dimy, ox, oy. split; [done|]. split; [done|].
  unfold main, Solve.
  destruct (Z.to_nat (max_iter_in inp)); cbn [Solve_loop];
    by rewrite Hres, (float_ltb_zero_asym _ Hgoal).
Qed.

(** ** Termination of Solve (C7) *)

Section While.
Context {S : Type} (body : S -> S) (metric : S -> float).
Variable precision_goal : float.
Variable max_iter : Z.
Hypothesis max_iter_int : (max_iter <= CInt.INT_MAX)%Z.

Lemma while_running_spec fuel s count :
  (0 <= count)%Z -> (max_iter - count <= Z.of_nat fuel)%Z ->
  exists k : nat,
    while_running fuel body metric precision_goal max_iter s count
    = Some (Nat.iter k body s, (count + Z.of_nat k)%Z) /\
    (forall j, j < k ->
       keeps_running precision_goal (metric (Nat.iter j body s))
                     max_iter (count + Z.of_nat j) = true) /\
    keeps_running precision_goal (metric (Nat.iter k body s))
                  max_iter (count + Z.of_nat k) = false.
Proof using max_iter_int.
  revert s count. induction fuel as [|fuel IH]; intros s count Hc Hf.
  - exists 0. cbn [while_running Nat.iter].
    assert (keeps_running precision_goal (metric s) max_iter count = false)
      as Hk.
    { unfold keeps_running. apply andb_false_intro2, Z.ltb_ge. lia. }
    rewrite Z.add_0_r, Hk. split; [done|]. split; [lia | done].
  - cbn [while_running].
    destruct (keeps_running precision_goal (metric s) max_iter count) eqn:Hk.
    + assert (count < max_iter)%Z as Hlt.
      { unfold keeps_running in Hk. apply andb_prop in Hk as [_ Hk].
        by apply Z.ltb_lt. }
      unfold CInt.add. rewrite wrap_small
        by (unfold CInt.in_range, CInt.INT_MIN; lia).
      destruct (IH (body s) (count + 1)%Z) as (k & Hrun & Hbefore & Hexit);
        [lia | lia |].
      exists (Datatypes.S k).
      assert (forall j, Nat.iter j body (body s) = Nat.iter (Datatypes.S j) body s)
        as Hiter.
      { intros j. by rewrite Nat.iter_succ_r. }
      rewrite Hiter in Hrun, Hexit.
      replace (count + Z.of_nat (Datatypes.S k))%Z
        with (count + 1 + Z.of_nat k)%Z by lia.
      split; [done|]. split; [|done].
      intros [|j] Hj; [by rewrite Z.add_0_r|].
      replace (count + Z.of_nat (Datatypes.S j))%Z
        with (count + 1 + Z.of_nat j)%Z by lia.
      rewrite <- Hiter. apply Hbefore. lia.
    + exists 0. cbn [Nat.iter]. rewrite Z.add_0_r.
      split; [done|]. split; [lia | done].
Qed.

End While.

Lemma Solve_loop_while fuel tp goal max_iter w count :
  Solve_loop fuel tp goal max_iter w count
  = while_running fuel (fun w => Do_Step_CG (Exchange_Borders tp w)) residue
                  goal max_iter w count.
Proof.
  revert w count. induction fuel as [|fuel IH]; intros w count; [done|].
  cbn [Solve_loop while_running]. unfold keeps_running. by rewrite IH.
Qed.

Lemma Solve_SOR_loop_while fuel tp goal max_iter w delta count :
  Solve_SOR_loop fuel tp goal max_iter w delta count
  = while_running fuel (fun s => SOR_iteration tp s.1) snd
                  goal max_iter (w, delta) count.
Proof.
  revert w delta count.
  induction fuel as [|fuel IH]; intros w delta count; [done|].
  cbn [Solve_SOR_loop while_running fst snd]. unfold keeps_running.
  destruct (SOR_iteration tp w) as [w' delta']. by rewrite IH.
Qed.

Lemma CG_state_iter tp w k :
  CG_state tp w k = Nat.iter k (fun w => Do_Step_CG (Exchange_Borders tp w)) w.
Proof. induction k as [|k IH]; [done|]. cbn. by rewrite IH. Qed.

Lemma SOR_state_iter tp w delta k :
  SOR_state tp w delta k
  = Nat.iter k (fun s => SOR_iteration tp s.1) (w, delta).
Proof. induction k as [|k IH]; [done|]. cbn. by rewrite IH. Qed.

Lemma Do_Step_not_nan t parity : is_nan (Do_Step t parity).2 = false.
Proof.
  unfold Do_Step. rewrite for_interior_cells.
  assert (is_nan (foldl (fun s c => Do_Step_cell t parity c.1 c.2 s)
                        (phi t, 0%float) (interior_cells t)).2 = false) as H.
  { apply (foldl_inv (fun _ (s : list float * float) => is_nan s.2 = false));
      [done|].
    intros _ [x y] _ [g m] _ Hm. unfold Do_Step_cell. cbn [fst snd] in *.
    destruct (_ && _); [|done]. cbn [snd]. by apply track_max_not_nan. }
  by destruct (foldl _ _ _).
Qed.

Lemma C_max_not_nan a b :
  is_nan a = false -> is_nan b = false -> is_nan (C_max a b) = false.
Proof. intros Ha Hb. unfold C_max. by destruct (b <? a)%float. Qed.

Lemma MPI_Allreduce_MAX_not_nan l :
  Forall (fun x => is_nan x = false) l -> is_nan (MPI_Allreduce_MAX l) = false.
Proof.
  destruct l as [|x l]; [done|]. intros H. apply Forall_cons in H as [Hx Hl].
  cbn. revert x Hx. induction Hl as [|y l Hy Hl IH]; intros x Hx; [done|].
  cbn. apply IH. by apply C_max_not_nan.
Qed.

Lemma SOR_iteration_not_nan tp w : is_nan (SOR_iteration tp w).2 = false.
Proof.
  unfold SOR_iteration. cbn [snd]. apply MPI_Allreduce_MAX_not_nan.
  apply Forall_zip_with_fst with (Q := fun x => is_nan x = false)
                                 (P := fun x => is_nan x = false).
  - apply Forall_fmap, Forall_fmap, Forall_true. intros t.
    apply Do_Step_not_nan.
  - apply Forall_fmap, Forall_fmap, Forall_true. intros t a Ha.
    apply C_max_not_nan; [done | apply Do_Step_not_nan].
Qed.

(** What the generic loop lemma says of a loop started with [count = 0] and
    [max_iter] units of fuel. *)
Lemma while_running_from_zero {S : Type} (body : S -> S) (metric : S -> float)
  goal max_iter s :
  (0 <= max_iter <= CInt.INT_MAX)%Z ->
  exists k : nat,
    while_running (Z.to_nat max_iter) body metric goal max_iter s 0
    = Some (Nat.iter k body s, Z.of_nat k) /\
    (Z.of_nat k <= max_iter)%Z /\
    (forall j, j < k -> (goal <? metric (Nat.iter j body s))%float = true) /\
    ((Z.of_nat k < max_iter)%Z ->
     (goal <? metric (Nat.iter k body s))%float = false).
Proof.
  intros Hmax.
  destruct (while_running_spec body metric goal max_iter ltac:(lia)
              (Z.to_nat max_iter) s 0%Z ltac:(lia) ltac:(lia))
    as (k & Hrun & Hbefore & Hexit).
  exists k. rewrite Z.add_0_l in Hrun. split; [done|].
  assert (forall j, j < k ->
            (goal <? metric (Nat.iter j body s))%float = true
            /\ (Z.of_nat j < max_iter)%Z) as Hb.
  { intros j Hj. specialize (Hbefore j Hj). unfold keeps_running in Hbefore.
    apply andb_prop in Hbefore as [H1 H2]. apply Z.ltb_lt in H2.
    split; [done | lia]. }
  split; [|split].
  - destruct k as [|k]; [lia|]. destruct (Hb k ltac:(lia)). lia.
  - intros j Hj. by apply Hb.
  - intros Hlt. unfold keeps_running in Hexit.
    apply andb_false_iff in Hexit as [H | H]; [done|].
    apply Z.ltb_ge in H. lia.
Qed.

(** C7, amended.  For a positive precision goal and an iteration cap that
    is a non-negative [int], both variants of Solve terminate normally
    after some number [k <= max_iter] of iterations and report [k]; the
    loop keeps running exactly as long as the global metric (the
    [global_residue] of CG, the global maximum of the two half-sweep
    changes of SOR, which starts at twice the goal) compares greater than
    the goal and the count is below [max_iter].  So an exit below the cap
    means that the metric is not greater than the goal: it is at or below
    the goal whenever it is not a NaN, which the SOR metric never is after
    an iteration. *)
Theorem Solve_termination tp malloc goal max_iter w :
  (0 <? goal)%float = true -> (0 <= max_iter <= CInt.INT_MAX)%Z ->
  (exists k : nat,
     Solve tp malloc goal max_iter w
     = Some (CG_state tp (InitCG malloc w) k, Z.of_nat k) /\
     (Z.of_nat k <= max_iter)%Z /\
     (forall j, j < k ->
        (goal <? residue (CG_state tp (InitCG malloc w) j))%float = true) /\
     ((Z.of_nat k < max_iter)%Z ->
      (goal <? residue (CG_state tp (InitCG malloc w) k))%float = false /\
      (is_nan (residue (CG_state tp (InitCG malloc w) k)) = false ->
       (residue (CG_state tp (InitCG malloc w) k) <=? goal)%float = true))) /\
  (exists k : nat,
     Solve_SOR tp goal max_iter w
     = Some (SOR_state tp w (2 * goal) k, Z.of_nat k) /\
     (Z.of_nat k <= max_iter)%Z /\
     (forall j, j < k ->
        (goal <? (SOR_state tp w (2 * goal) j).2)%float = true) /\
     (0 < k -> is_nan (SOR_state tp w (2 * goal) k).2 = false) /\
     ((Z.of_nat k < max_iter)%Z ->
      (goal <? (SOR_state tp w (2 * goal) k).2)%float = false /\
      (0 < k -> ((SOR_state tp w (2 * goal) k).2 <=? goal)%float = true))).
Proof.
  intros Hgoal Hmax.
  destruct (float_ltb_not_nan _ _ Hgoal) as [_ Hgoal_nan]. split.
  - unfold Solve. rewrite Solve_loop_while.
    destruct (while_running_from_zero
                (fun w => Do_Step_CG (Exchange_Borders tp w)) residue
                goal max_iter (InitCG malloc w) Hmax)
      as (k & Hrun & Hle & Hbefore & Hexit).
    exists k. rewrite !CG_state_iter. split; [done|]. split; [done|].
    split.
    + intros j Hj. rewrite CG_state_iter. by apply Hbefore.
    + intros Hlt. split; [by apply Hexit|]. intros Hnan.
      apply float_not_gt_le; [done | done | by apply Hexit].
  - unfold Solve_SOR. rewrite Solve_SOR_loop_while.
    destruct (while_running_from_zero
                (fun s => SOR_iteration tp s.1) snd
                goal max_iter (w, (2 * goal)%float) Hmax)
      as (k & Hrun & Hle & Hbefore & Hexit).
    exists k. rewrite !SOR_state_iter. split; [done|]. split; [done|].
    assert (0 < k ->
            is_nan (Nat.iter k (fun s => SOR_iteration tp s.1)
                             (w, (2 * goal)%float)).2 = false) as Hnan.
    { destruct k as [|k]; [lia|]. intros _. rewrite Nat.iter_succ.
      apply SOR_iteration_not_nan. }
    split; [|split; [done|]].
    + intros j Hj. rewrite SOR_state_iter. by apply Hbefore.
    + intros Hlt. split; [by apply Hexit|]. intros Hk.
      apply float_not_gt_le; [by apply Hnan | done | by apply Hexit].
Qed.

(** ** Exchange_Borders (C5) *)

Lemma type_map_vector n s :
  type_map (MPI_Type_vector n 1 s) = (fun k => k * s) <$> seq 0 n.
Proof.
  unfold type_map. cbn [count stride blocklength].
  induction (seq 0 n) as [|k l IH]; [done|].
  rewrite bind_cons, IH. cbn. f_equal. lia.
Qed.

Lemma unpack_vector_spec n s base : 0 < s ->
  forall k0 g msg,
    let r := foldl (fun g (dv : nat * float) => store g (base + dv.1) dv.2) g
                   (zip ((fun k => k * s) <$> seq k0 n) msg) in
    length r = length g /\
    (forall j v, j < n -> msg !! j = Some v ->
                 base + (k0 + j) * s < length g ->
                 r !! (base + (k0 + j) * s) = Some v) /\
    (forall i, (forall j, j < n -> j < length msg -> i <> base + (k0 + j) * s) ->
               r !! i = g !! i).
Proof.
  intros Hs. induction n as [|n IH]; intros k0 g msg r.
  - subst r. cbn. split; [done|]. split; [lia | done].
  - destruct msg as [|v0 msg].
    + subst r. cbn. split; [done|]. split; [done | done].
    + subst r. cbn [seq fmap list_fmap zip zip_with foldl fst snd].
      destruct (IH (Datatypes.S k0) (store g (base + k0 * s) v0) msg)
        as (Hlen & Hnew & Hold).
      unfold store in *. rewrite length_insert in Hlen, Hnew.
      split; [done|]. split.
      * intros [|j] v Hj Hv Hb.
        -- cbn in Hv. inversion Hv; subst v0. rewrite Hold.
           ++ rewrite Nat.add_0_r. apply list_lookup_insert_eq.
              by rewrite Nat.add_0_r in Hb.
           ++ intros j' _ _. nia.
        -- cbn in Hv.
           replace (base + (k0 + Datatypes.S j) * s)
             with (base + (Datatypes.S k0 + j) * s) by lia.
           apply Hnew; [lia | done | lia].
      * intros i Hi. rewrite Hold.
        -- apply list_lookup_insert_ne. specialize (Hi 0). cbn in Hi.
           rewrite Nat.add_0_r in Hi. apply not_eq_sym, Hi; lia.
        -- intros j Hj Hjl. specialize (Hi (Datatypes.S j)). cbn in Hi.
           replace (base + (Datatypes.S k0 + j) * s)
             with (base + (k0 + Datatypes.S j) * s) by lia.
           apply Hi; lia.
Qed.

Lemma unpack_length g base ty msg : length (unpack g base ty msg) = length g.
Proof.
  unfold unpack. generalize (zip (type_map ty) msg) as l. intros l. revert g.
  induction l as [|dv l IH]; intros g; [done|].
  cbn. rewrite IH. apply length_insert.
Qed.

Lemma border_type_vector t d :
  border_type t d
  = MPI_Type_vector (count (border_type t d)) 1 (stride (border_type t d)).
Proof. by destruct d. Qed.

Lemma at_cell_line t d c0 k :
  at_cell t c0 + k * stride (border_type t d) = at_cell t (line d c0 k).
Proof. destruct d; unfold at_cell, idx; cbn; lia. Qed.

Lemma pack_length t d c0 g :
  length (pack g (at_cell t c0) (border_type t d)) = count (border_type t d).
Proof.
  unfold pack. rewrite border_type_vector, type_map_vector.
  by rewrite !length_fmap, length_seq.
Qed.

Lemma pack_lookup t d c0 g k :
  k < count (border_type t d) ->
  pack g (at_cell t c0) (border_type t d) !! k
  = Some (cell t g (line d c0 k).1 (line d c0 k).2).
Proof.
  intros Hk. unfold pack. rewrite border_type_vector, type_map_vector.
  rewrite !list_lookup_fmap, lookup_seq_lt by done. cbn.
  by rewrite at_cell_line.
Qed.

Lemma on_line_along t d c0 x y :
  on_line t d c0 x y = true ->
  along d c0 x y < count (border_type t d) /\
  line d c0 (along d c0 x y) = (x, y).
Proof.
  destruct d; cbn; intros H; repeat (apply andb_prop in H as [H ?]);
    apply Nat.eqb_eq in H; apply Nat.leb_le in H1; apply Nat.ltb_lt in H0;
    subst; (split; [lia | f_equal; lia]).
Qed.

Lemma line_on_line t d c0 k :
  k < count (border_type t d) ->
  on_line t d c0 (line d c0 k).1 (line d c0 k).2 = true.
Proof.
  destruct d; cbn; intros H; repeat (apply andb_true_intro; split);
    first [apply Nat.eqb_eq | apply Nat.leb_le | apply Nat.ltb_lt]; lia.
Qed.

Lemma unpack_cell_off t d c0 g msg x y :
  line_fits t d c0 -> y < dim_Y t ->
  on_line t d c0 x y = false ->
  cell t (unpack g (at_cell t c0) (border_type t d) msg) x y = cell t g x y.
Proof.
  intros Hfit Hy Hon. unfold unpack.
  rewrite border_type_vector, type_map_vector.
  assert (0 < stride (border_type t d)) as Hs by (destruct d; cbn; lia).
  pose proof (unpack_vector_spec (count (border_type t d))
                (stride (border_type t d)) (at_cell t c0) Hs 0 g msg) as H.
  cbv zeta in H. destruct H as (_ & _ & Hold).
  unfold cell, load. rewrite Hold; [done|]. intros j Hj _ Heq.
  rewrite Nat.add_0_l, at_cell_line in Heq. unfold at_cell in Heq.
  assert ((line d c0 j).2 < dim_Y t) as Hly.
  { destruct d; cbn in *; lia. }
  apply idx_inj in Heq as [Hx' Hy']; [|done..].
  pose proof (line_on_line t d c0 j Hj) as Hon'.
  rewrite <- Hx', <- Hy' in Hon'. congruence.
Qed.

Lemma unpack_cell_on t d c0 g msg x y :
  length g = dim_X t * dim_Y t ->
  length msg = count (border_type t d) ->
  x < dim_X t -> y < dim_Y t ->
  on_line t d c0 x y = true ->
  msg !! along d c0 x y
  = Some (cell t (unpack g (at_cell t c0) (border_type t d) msg) x y).
Proof.
  intros Hg Hmsg Hx Hy Hon. unfold unpack.
  rewrite border_type_vector, type_map_vector.
  assert (0 < stride (border_type t d)) as Hs by (destruct d; cbn; lia).
  pose proof (unpack_vector_spec (count (border_type t d))
                (stride (border_type t d)) (at_cell t c0) Hs 0 g msg) as H.
  cbv zeta in H. destruct H as (_ & Hnew & _).
  unfold cell, load.
  apply on_line_along in Hon as [Hk Hline].
  destruct (lookup_lt_is_Some_2 msg (along d c0 x y)) as [v Hv]; [lia|].
  rewrite Hv.
  replace (idx (dim_Y t) x y)
    with (at_cell t c0 + (0 + along d c0 x y) * stride (border_type t d)).
  2:{ rewrite Nat.add_0_l, at_cell_line, Hline. done. }
  rewrite (Hnew _ v Hk Hv); [done|].
  rewrite Nat.add_0_l, at_cell_line, Hline, Hg. by apply idx_lt.
Qed.

(** *** The process grid *)

Lemma Cart_coords_rank tp cx cy :
  cy < P_grid_Y tp -> Cart_coords tp (Cart_rank tp cx cy) = (cx, cy).
Proof.
  intros H. unfold Cart_coords, Cart_rank.
  change (cx * P_grid_Y tp + cy) with (idx (P_grid_Y tp) cx cy).
  by rewrite idx_div, idx_mod.
Qed.

Lemma Cart_rank_coords tp r :
  0 < P_grid_Y tp ->
  Cart_rank tp (Cart_coords tp r).1 (Cart_coords tp r).2 = r
  /\ (Cart_coords tp r).2 < P_grid_Y tp.
Proof.
  intros H. unfold Cart_coords, Cart_rank. cbn. split.
  - apply (idx_div_mod (P_grid_Y tp) r H).
  - apply Nat.mod_upper_bound. lia.
Qed.

Lemma coords_bound tp r :
  r < P_grid_X tp * P_grid_Y tp ->
  (Cart_coords tp r).1 < P_grid_X tp /\ (Cart_coords tp r).2 < P_grid_Y tp.
Proof.
  intros Hr. unfold Cart_coords. cbn [fst snd].
  assert (0 < P_grid_Y tp) by (destruct (P_grid_Y tp); lia).
  split.
  - apply Nat.Div0.div_lt_upper_bound. lia.
  - apply Nat.mod_upper_bound. lia.
Qed.

Lemma neighbour_spec tp r n s :
  0 < P_grid_Y tp -> r < P_grid_X tp * P_grid_Y tp ->
  neighbour tp r n = Some s ->
  s < P_grid_X tp * P_grid_Y tp /\
  neighbour tp s (opposite n) = Some r /\
  match n with
  | proc_top | proc_bottom => (Cart_coords tp s).1 = (Cart_coords tp r).1
  | proc_left | proc_right => (Cart_coords tp s).2 = (Cart_coords tp r).2
  end.
Proof.
  intros HP Hr. unfold neighbour at 1.
  destruct (Cart_rank_coords tp r HP) as [Hrank Hcy].
  destruct (Cart_coords tp r) as [cx cy] eqn:Hc. cbn [fst snd] in *.
  assert (cx < P_grid_X tp) as Hcx.
  { unfold Cart_rank in Hrank. nia. }
  destruct n.
  - destruct (cy =? 0) eqn:H0; [done|]. apply Nat.eqb_neq in H0.
    intros [= <-]. unfold neighbour.
    rewrite Cart_coords_rank by lia. cbn [opposite fst snd].
    assert ((cy - 1 + 1 <? P_grid_Y tp) = true) as -> by (apply Nat.ltb_lt; lia).
    replace (cy - 1 + 1) with cy by lia. rewrite Hrank.
    split; [|done]. unfold Cart_rank in *. nia.
  - destruct (cx + 1 <? P_grid_X tp) eqn:H0; [|done]. apply Nat.ltb_lt in H0.
    intros [= <-]. unfold neighbour.
    rewrite Cart_coords_rank by lia. cbn [opposite fst snd].
    assert ((cx + 1 =? 0) = false) as -> by (apply Nat.eqb_neq; lia).
    replace (cx + 1 - 1) with cx by lia. rewrite Hrank.
    split; [|done]. unfold Cart_rank in *. nia.
  - destruct (cy + 1 <? P_grid_Y tp) eqn:H0; [|done]. apply Nat.ltb_lt in H0.
    intros [= <-]. unfold neighbour.
    rewrite Cart_coords_rank by lia. cbn [opposite fst snd].
    assert ((cy + 1 =? 0) = false) as -> by (apply Nat.eqb_neq; lia).
    replace (cy + 1 - 1) with cy by lia. rewrite Hrank.
    split; [|done]. unfold Cart_rank in *. nia.
  - destruct (cx =? 0) eqn:H0; [done|]. apply Nat.eqb_neq in H0.
    intros [= <-]. unfold neighbour.
    rewrite Cart_coords_rank by lia. cbn [opposite fst snd].
    assert ((cx - 1 + 1 <? P_grid_X tp) = true) as -> by (apply Nat.ltb_lt; lia).
    replace (cx - 1 + 1) with cx by lia. rewrite Hrank.
    split; [|done]. unfold Cart_rank in *. nia.
Qed.

Lemma get_set f t g : get f (set f t g) = g.
Proof. by destruct f. Qed.

Lemma set_get f t : set f t (get f t) = t.
Proof. by destruct f, t. Qed.

Lemma set_set f t g g' : set f (set f t g) g' = set f t g'.
Proof. by destruct f. Qed.

Lemma set_dims f t g :
  dim_X (set f t g) = dim_X t /\ dim_Y (set f t g) = dim_Y t.
Proof. by destruct f. Qed.

Lemma recv_tile_shape tp f c w r t :
  recv_tile tp f c w r t = set f t (get f (recv_tile tp f c w r t))
  /\ length (get f (recv_tile tp f c w r t)) = length (get f t).
Proof.
  unfold recv_tile.
  destruct (neighbour tp r (recvfrom c)) as [s|]; [|by rewrite set_get].
  destruct (w !! s) as [ts|]; [|by rewrite set_get].
  destruct (decide _); [|by rewrite set_get].
  by rewrite get_set, unpack_length.
Qed.

Lemma recv_tile_dims tp f c w r t :
  dim_X (recv_tile tp f c w r t) = dim_X t
  /\ dim_Y (recv_tile tp f c w r t) = dim_Y t.
Proof.
  destruct (recv_tile_shape tp f c w r t) as [-> _]. apply set_dims.
Qed.

Lemma Sendrecv_lookup tp f c w r :
  MPI_Sendrecv tp f c w !! r = recv_tile tp f c w r <$> w !! r.
Proof. apply list_lookup_imap. Qed.

Lemma Sendrecv_lookup_inv tp f c w r t' :
  MPI_Sendrecv tp f c w !! r = Some t' ->
  exists t, w !! r = Some t /\ t' = recv_tile tp f c w r t /\
            dim_X t' = dim_X t /\ dim_Y t' = dim_Y t /\
            length (get f t') = length (get f t).
Proof.
  rewrite Sendrecv_lookup. destruct (w !! r) as [t|]; [|done]. cbn.
  intros [= <-]. exists t.
  destruct (recv_tile_dims tp f c w r t) as [HX HY].
  destruct (recv_tile_shape tp f c w r t) as [_ HL]. auto.
Qed.

Lemma Sendrecv_grid_ok tp f dx dy c w :
  grid_ok tp f dx dy w -> grid_ok tp f dx dy (MPI_Sendrecv tp f c w).
Proof.
  intros [Hr HX HY Hh Hb]. split.
  - unfold MPI_Sendrecv. by rewrite length_imap.
  - intros r t' H.
    destruct (Sendrecv_lookup_inv _ _ _ _ _ _ H) as (t & Ht & _ & -> & _).
    eauto.
  - intros r t' H.
    destruct (Sendrecv_lookup_inv _ _ _ _ _ _ H) as (t & Ht & _ & _ & -> & _).
    eauto.
  - intros r t' H.
    destruct (Sendrecv_lookup_inv _ _ _ _ _ _ H) as (t & Ht & _ & -> & -> & _).
    eauto.
  - intros r t' H.
    destruct (Sendrecv_lookup_inv _ _ _ _ _ _ H) as (t & Ht & _ & -> & -> & ->).
    eauto.
Qed.

(** Facts about the four calls. *)
Lemma calls_spec c :
  c ∈ Exchange_Borders_calls ->
  dest c = opposite (recvfrom c) /\
  sendtype c = recvtype c /\
  recvtype c = match recvfrom c with
               | proc_top | proc_bottom => Y_DIR
               | proc_left | proc_right => X_DIR
               end /\
  (forall t, 2 <= dim_X t -> 2 <= dim_Y t ->
             line_fits t (recvtype c) (recvbuf c t)) /\
  (forall t t', dim_X t' = dim_X t -> dim_Y t' = dim_Y t ->
                recvbuf c t' = recvbuf c t /\ sendbuf c t' = sendbuf c t).
Proof.
  unfold Exchange_Borders_calls. intros H.
  repeat (apply elem_of_cons in H as [-> | H]; cbn;
          [repeat split; cbn; try done; try lia; congruence |]).
  by apply elem_of_nil in H.
Qed.

Lemma on_line_dims t t' d c0 x y :
  dim_X t' = dim_X t -> dim_Y t' = dim_Y t ->
  on_line t' d c0 x y = on_line t d c0 x y.
Proof. intros HX HY. unfold on_line. by rewrite HX, HY. Qed.

Lemma cell_dims t t' g x y : dim_Y t' = dim_Y t -> cell t' g x y = cell t g x y.
Proof. intros HY. unfold cell. by rewrite HY. Qed.

(** A cell off the receiving line, or of a process without the neighbour,
    keeps its value. *)
Lemma recv_tile_frame tp f dx dy c w r t x y :
  grid_ok tp f dx dy w -> c ∈ Exchange_Borders_calls ->
  w !! r = Some t -> y < dim_Y t ->
  neighbour tp r (recvfrom c) = None
  \/ on_line t (recvtype c) (recvbuf c t) x y = false ->
  cell t (get f (recv_tile tp f c w r t)) x y = cell t (get f t) x y.
Proof.
  intros Hok Hc Ht Hy Hoff. unfold recv_tile.
  destruct (neighbour tp r (recvfrom c)) as [s|]; [|done].
  destruct Hoff as [|Hoff]; [done|].
  destruct (w !! s) as [ts|]; [|done].
  destruct (decide _); [|done]. rewrite get_set.
  destruct (calls_spec c Hc) as (_ & _ & _ & Hfit & _).
  destruct (grid_halo _ _ _ _ _ Hok r t Ht).
  apply unpack_cell_off; auto.
Qed.

(** A cell on the receiving line gets the value of the corresponding cell
    on the sending line of the neighbour. *)
Lemma recv_tile_line tp f dx dy c w r t s ts x y :
  grid_ok tp f dx dy w -> c ∈ Exchange_Borders_calls ->
  w !! r = Some t -> x < dim_X t -> y < dim_Y t ->
  neighbour tp r (recvfrom c) = Some s -> w !! s = Some ts ->
  on_line t (recvtype c) (recvbuf c t) x y = true ->
  let k := along (recvtype c) (recvbuf c t) x y in
  cell t (get f (recv_tile tp f c w r t)) x y
  = cell ts (get f ts) (line (sendtype c) (sendbuf c ts) k).1
                       (line (sendtype c) (sendbuf c ts) k).2.
Proof.
  intros Hok Hc Ht Hx Hy Hn Hs Hon k. unfold recv_tile. rewrite Hn, Hs.
  destruct (calls_spec c Hc) as (Hdest & Hty & Hdir & Hfit & _).
  assert (r < P_grid_X tp * P_grid_Y tp) as Hr.
  { rewrite <- (grid_ranks _ _ _ _ _ Hok). by eapply lookup_lt_Some. }
  assert (0 < P_grid_Y tp) as HP by nia.
  destruct (neighbour_spec tp r _ s HP Hr Hn) as (_ & Hback & Hco).
  rewrite Hdest, decide_True by done. rewrite get_set.
  assert (count (border_type ts (sendtype c))
          = count (border_type t (recvtype c))) as Hcount.
  { rewrite Hty, Hdir.
    pose proof (grid_dim_X _ _ _ _ _ Hok r t Ht).
    pose proof (grid_dim_X _ _ _ _ _ Hok s ts Hs).
    pose proof (grid_dim_Y _ _ _ _ _ Hok r t Ht).
    pose proof (grid_dim_Y _ _ _ _ _ Hok s ts Hs).
    destruct (recvfrom c); cbn; congruence. }
  assert (k < count (border_type ts (sendtype c))) as Hk.
  { rewrite Hcount. by apply on_line_along in Hon as [? _]. }
  pose proof (pack_lookup ts (sendtype c) (sendbuf c ts) (get f ts) k Hk) as Hp.
  pose proof (unpack_cell_on t (recvtype c) (recvbuf c t) (get f t)
                (pack (get f ts) (at_cell ts (sendbuf c ts))
                      (border_type ts (sendtype c))) x y
                (grid_block _ _ _ _ _ Hok r t Ht)
                ltac:(by rewrite pack_length) Hx Hy Hon) as H.
  fold k in H. rewrite Hp in H. congruence.
Qed.

(** *** Several calls *)

Ltac each_call H :=
  unfold Exchange_Borders_calls in H;
  repeat (apply elem_of_cons in H as [-> | H]);
  [.. | by apply elem_of_nil in H].

Ltac line_arith :=
  cbn [on_line recvtype recvbuf sendtype sendbuf line along fst snd] in *;
  repeat match goal with
  | |- context [(?a =? ?b)] => destruct (Nat.eqb_spec a b)
  | |- context [(?a <=? ?b)] => destruct (Nat.leb_spec a b)
  | |- context [(?a <? ?b)] => destruct (Nat.ltb_spec a b)
  end; cbn [andb]; try done; try lia.

Lemma exchange_grid_ok tp f dx dy l w :
  grid_ok tp f dx dy w -> grid_ok tp f dx dy (exchange f tp l w).
Proof.
  revert w. induction l as [|c l IH]; intros w Hok; [done|].
  cbn. by apply IH, Sendrecv_grid_ok.
Qed.

(** Across any run of calls of Exchange_Borders a process keeps its tile
    but for the exchanged field, and a cell that lies on no receiving line
    of the run (or only on lines that face [MPI_PROC_NULL]) keeps its
    value. *)
Lemma exchange_frame tp f dx dy l w r t x y :
  (forall c, c ∈ l -> c ∈ Exchange_Borders_calls) ->
  grid_ok tp f dx dy w -> w !! r = Some t -> y < dim_Y t ->
  (forall c, c ∈ l ->
     neighbour tp r (recvfrom c) = None
     \/ on_line t (recvtype c) (recvbuf c t) x y = false) ->
  exists t', exchange f tp l w !! r = Some t' /\
             t' = set f t (get f t') /\
             cell t (get f t') x y = cell t (get f t) x y.
Proof.
  revert w t. induction l as [|c l IH]; intros w t Hl Hok Ht Hy Hoff.
  - exists t. cbn. by rewrite set_get.
  - cbn [exchange foldl].
    assert (c ∈ Exchange_Borders_calls) as Hc.
    { apply Hl, elem_of_cons. by left. }
    set (t1 := recv_tile tp f c w r t).
    assert (MPI_Sendrecv tp f c w !! r = Some t1) as Ht1.
    { by rewrite Sendrecv_lookup, Ht. }
    destruct (recv_tile_dims tp f c w r t) as [HX HY]. fold t1 in HX, HY.
    destruct (recv_tile_shape tp f c w r t) as [Hshape _]. fold t1 in Hshape.
    destruct (IH (MPI_Sendrecv tp f c w) t1) as (t' & Ht' & Hshape' & Hcell).
    + intros c' Hc'. apply Hl, elem_of_cons. by right.
    + by apply Sendrecv_grid_ok.
    + done.
    + by rewrite HY.
    + intros c' Hc'.
      assert (c' ∈ Exchange_Borders_calls) as Hc'l.
      { apply Hl, elem_of_cons. by right. }
      destruct (calls_spec c' Hc'l) as (_ & _ & _ & _ & Hbuf).
      destruct (Hbuf t t1 HX HY) as [-> _].
      rewrite (on_line_dims t t1) by done.
      apply Hoff, elem_of_cons. by right.
    + exists t'. split; [exact Ht'|]. split.
      * rewrite Hshape', Hshape. destruct f; reflexivity.
      * rewrite !(cell_dims t t1) in Hcell by done. rewrite Hcell.
        apply (recv_tile_frame tp f dx dy c w r t x y Hok Hc Ht Hy).
        apply Hoff, elem_of_cons. by left.
Qed.

(** The cell of [A] that a call fills from the neighbour [B], and that no
    later call touches, ends up equal to the cell of [B] it was copied
    from, if no call touches that one. *)
Lemma exchange_halo_cell tp f dx dy pre c post w a A0 b B0 x y :
  Exchange_Borders_calls = pre ++ c :: post ->
  grid_ok tp f dx dy w -> w !! a = Some A0 -> w !! b = Some B0 ->
  neighbour tp a (recvfrom c) = Some b ->
  x < dim_X A0 -> y < dim_Y A0 ->
  on_line A0 (recvtype c) (recvbuf c A0) x y = true ->
  (forall c', c' ∈ post ->
              on_line A0 (recvtype c') (recvbuf c' A0) x y = false) ->
  let k := along (recvtype c) (recvbuf c A0) x y in
  let cs := line (sendtype c) (sendbuf c B0) k in
  cs.2 < dim_Y B0 ->
  (forall c', c' ∈ Exchange_Borders_calls ->
              on_line B0 (recvtype c') (recvbuf c' B0) cs.1 cs.2 = false) ->
  exists A B, Exchange_Borders_on f tp w !! a = Some A /\
              Exchange_Borders_on f tp w !! b = Some B /\
              cell A0 (get f A) x y = cell B0 (get f B) cs.1 cs.2.
Proof.
  intros Hsplit Hok HA HB Hn Hx Hy Hon Hpost k cs Hcs HBoff.
  assert (forall c', c' ∈ pre ++ c :: post -> c' ∈ Exchange_Borders_calls)
    as Hall by (intros c'; by rewrite Hsplit).
  assert (c ∈ Exchange_Borders_calls) as Hc.
  { apply Hall, elem_of_app. right. apply elem_of_cons. by left. }
  unfold Exchange_Borders_on. fold (exchange f tp Exchange_Borders_calls w).
  (* B across the whole exchange *)
  destruct (exchange_frame tp f dx dy Exchange_Borders_calls w b B0 cs.1 cs.2)
    as (B & HBl & _ & HBcell); try done.
  { intros c' Hc'. right. by apply HBoff. }
  (* A and B before the call *)
  rewrite Hsplit in HBl |- *. unfold exchange in HBl |- *.
  rewrite foldl_app in HBl |- *. cbn [foldl] in HBl |- *.
  fold (exchange f tp pre w) in HBl |- *.
  destruct (exchange_frame tp f dx dy pre w b B0 cs.1 cs.2)
    as (B1 & HB1 & HB1s & HB1c); try done.
  { intros c' Hc'. apply Hall, elem_of_app. by left. }
  { intros c' Hc'. right. apply HBoff, Hall, elem_of_app. by left. }
  destruct (exchange_frame tp f dx dy pre w a A0 0 0)
    as (A1 & HA1 & HA1s & _); try done.
  { intros c' Hc'. apply Hall, elem_of_app. by left. }
  { lia. }
  { intros c' Hc'.
    assert (c' ∈ Exchange_Borders_calls) as Hc'l.
    { apply Hall, elem_of_app. by left. }
    right. clear -Hc'l Hy. each_call Hc'l; line_arith. }
  pose proof (exchange_grid_ok tp f dx dy pre w Hok) as Hok1.
  assert (dim_X A1 = dim_X A0 /\ dim_Y A1 = dim_Y A0) as [HAX HAY].
  { rewrite HA1s. apply set_dims. }
  assert (dim_X B1 = dim_X B0 /\ dim_Y B1 = dim_Y B0) as [HBX HBY].
  { rewrite HB1s. apply set_dims. }
  destruct (calls_spec c Hc) as (_ & _ & _ & _ & Hbuf).
  destruct (Hbuf A0 A1 HAX HAY) as [HrA _].
  destruct (Hbuf B0 B1 HBX HBY) as [_ HsB].
  (* the call *)
  pose proof (recv_tile_line tp f dx dy c (exchange f tp pre w) a A1 b B1 x y
                Hok1 Hc HA1 ltac:(lia) ltac:(lia) Hn HB1) as Hline.
  rewrite HrA, HsB, (on_line_dims A0 A1) in Hline by done.
  specialize (Hline Hon). cbv zeta in Hline. fold k in Hline. fold cs in Hline.
  set (A2 := recv_tile tp f c (exchange f tp pre w) a A1) in *.
  assert (MPI_Sendrecv tp f c (exchange f tp pre w) !! a = Some A2) as HA2.
  { by rewrite Sendrecv_lookup, HA1. }
  destruct (recv_tile_dims tp f c (exchange f tp pre w) a A1) as [HX2 HY2].
  fold A2 in HX2, HY2.
  (* A after the call *)
  fold (exchange f tp post (MPI_Sendrecv tp f c (exchange f tp pre w)))
    in HBl |- *.
  destruct (exchange_frame tp f dx dy post
              (MPI_Sendrecv tp f c (exchange f tp pre w)) a A2 x y)
    as (A & HAl & _ & HAcell).
  { intros c' Hc'. apply Hall, elem_of_app. right. apply elem_of_cons. by right. }
  { by apply Sendrecv_grid_ok. }
  { done. }
  { lia. }
  { intros c' Hc'.
    assert (c' ∈ Exchange_Borders_calls) as Hc'l.
    { apply Hall, elem_of_app. right. apply elem_of_cons. by right. }
    destruct (calls_spec c' Hc'l) as (_ & _ & _ & _ & Hbuf').
    destruct (Hbuf' A0 A2) as [-> _]; [congruence | congruence |].
    rewrite (on_line_dims A0 A2) by congruence. right. by apply Hpost. }
  exists A, B. split; [done|]. split; [done|].
  rewrite <- (cell_dims A0 A2) by congruence. rewrite HAcell.
  rewrite (cell_dims A1 A2) by congruence. rewrite Hline.
  rewrite (cell_dims B0 B1) by congruence. rewrite HB1c.
  by rewrite HBcell.
Qed.

Lemma exchange_lookup tp f dx dy w a A0 :
  grid_ok tp f dx dy w -> w !! a = Some A0 ->
  exists A, Exchange_Borders_on f tp w !! a = Some A /\
            A = set f A0 (get f A).
Proof.
  intros Hok HA.
  destruct (grid_halo _ _ _ _ _ Hok a A0 HA) as [HdX HdY].
  destruct (exchange_frame tp f dx dy Exchange_Borders_calls w a A0 0 0)
    as (A & HAl & HAs & _); try done; [lia | | by exists A].
  intros c Hc. right. clear -Hc HdX HdY. each_call Hc; line_arith.
Qed.

Lemma exchange_interior tp f dx dy w a A0 A x y :
  grid_ok tp f dx dy w -> w !! a = Some A0 ->
  Exchange_Borders_on f tp w !! a = Some A ->
  interior A0 x y = true ->
  cell A0 (get f A) x y = cell A0 (get f A0) x y.
Proof.
  intros Hok HA HAl Hint. apply interior_bounds in Hint.
  destruct (exchange_frame tp f dx dy Exchange_Borders_calls w a A0 x y)
    as (A' & HAl' & _ & Hcell); try done; [lia | |].
  - intros c Hc. right. clear -Hc Hint. each_call Hc; line_arith.
  - unfold Exchange_Borders_on in HAl. unfold exchange in HAl'. congruence.
Qed.

Lemma exchange_edge tp f dx dy w a A0 A n k :
  grid_ok tp f dx dy w -> w !! a = Some A0 ->
  Exchange_Borders_on f tp w !! a = Some A ->
  neighbour tp a n = None -> k < halo_length A0 n ->
  cell A0 (get f A) (halo_cell A0 n k).1 (halo_cell A0 n k).2
  = cell A0 (get f A0) (halo_cell A0 n k).1 (halo_cell A0 n k).2.
Proof.
  intros Hok HA HAl Hn Hk.
  destruct (grid_halo _ _ _ _ _ Hok a A0 HA) as [HdX HdY].
  destruct (exchange_frame tp f dx dy Exchange_Borders_calls w a A0
              (halo_cell A0 n k).1 (halo_cell A0 n k).2)
    as (A' & HAl' & _ & Hcell); try done.
  - destruct n; cbn in *; lia.
  - intros c Hc. clear -Hc Hn Hk HdX HdY.
    each_call Hc; destruct n; cbn [recvfrom]; auto; right; cbn in Hk;
      unfold halo_cell; line_arith.
  - unfold Exchange_Borders_on in HAl. unfold exchange in HAl'. congruence.
Qed.

Lemma exchange_neighbour tp f dx dy w a A0 A b B n k :
  grid_ok tp f dx dy w -> w !! a = Some A0 ->
  Exchange_Borders_on f tp w !! a = Some A ->
  neighbour tp a n = Some b ->
  Exchange_Borders_on f tp w !! b = Some B ->
  3 <= depth B (opposite n) -> 1 <= k <= border_length A0 n ->
  cell A0 (get f A) (halo_cell A0 n k).1 (halo_cell A0 n k).2
  = cell B (get f B) (border_cell B (opposite n) k).1
                     (border_cell B (opposite n) k).2.
Proof.
  intros Hok HA HAl Hn HBl Hdepth Hk.
  assert (a < P_grid_X tp * P_grid_Y tp) as Ha.
  { rewrite <- (grid_ranks _ _ _ _ _ Hok). by eapply lookup_lt_Some. }
  assert (0 < P_grid_Y tp) as HP by nia.
  destruct (neighbour_spec tp a n b HP Ha Hn) as (Hb & _ & Hco).
  destruct (lookup_lt_is_Some_2 w b) as [B0 HB].
  { by rewrite (grid_ranks _ _ _ _ _ Hok). }
  destruct (exchange_lookup tp f dx dy w b B0 Hok HB) as (B' & HBl' & HBs).
  assert (B' = B) as -> by congruence.
  assert (dim_X B = dim_X B0 /\ dim_Y B = dim_Y B0) as [HBX HBY].
  { rewrite HBs. apply set_dims. }
  destruct (grid_halo _ _ _ _ _ Hok a A0 HA) as [HdX HdY].
  destruct (grid_halo _ _ _ _ _ Hok b B0 HB) as [HeX HeY].
  pose proof (grid_dim_X _ _ _ _ _ Hok a A0 HA) as HAdx.
  pose proof (grid_dim_Y _ _ _ _ _ Hok a A0 HA) as HAdy.
  pose proof (grid_dim_X _ _ _ _ _ Hok b B0 HB) as HBdx.
  pose proof (grid_dim_Y _ _ _ _ _ Hok b B0 HB) as HBdy.
  rewrite (cell_dims B0 B) by done.
  destruct n; cbn [opposite depth border_length halo_cell border_cell fst snd]
    in *.
  - (* the top neighbour: second call *)
    assert (dim_X B0 = dim_X A0) as HXX by congruence.
    destruct (exchange_halo_cell tp f dx dy
                [mkSendrecv (fun _ => (1, 1)) Y_DIR proc_top
                            (fun t => (1, dim_Y t - 1)) Y_DIR proc_bottom]
                (mkSendrecv (fun t => (1, dim_Y t - 2)) Y_DIR proc_bottom
                            (fun _ => (1, 0)) Y_DIR proc_top)
                [mkSendrecv (fun _ => (1, 1)) X_DIR proc_left
                            (fun t => (dim_X t - 1, 1)) X_DIR proc_right;
                 mkSendrecv (fun t => (dim_X t - 2, 1)) X_DIR proc_right
                            (fun _ => (0, 1)) X_DIR proc_left]
                w a A0 b B0 k 0 eq_refl Hok HA HB Hn)
      as (A' & B' & HAl' & HBl'' & Hcell); try lia.
    + line_arith.
    + intros c Hc. repeat (apply elem_of_cons in Hc as [-> | Hc]);
        [.. | by apply elem_of_nil in Hc]; line_arith.
    + cbn. lia.
    + intros c Hc. each_call Hc; line_arith.
    + assert (A' = A) as -> by congruence.
      assert (B' = B) as -> by congruence.
      rewrite Hcell. cbn. rewrite HBY. f_equal. lia.
  - (* the right neighbour: third call *)
    assert (dim_Y B0 = dim_Y A0) as HYY by congruence.
    destruct (exchange_halo_cell tp f dx dy
                [mkSendrecv (fun _ => (1, 1)) Y_DIR proc_top
                            (fun t => (1, dim_Y t - 1)) Y_DIR proc_bottom;
                 mkSendrecv (fun t => (1, dim_Y t - 2)) Y_DIR proc_bottom
                            (fun _ => (1, 0)) Y_DIR proc_top]
                (mkSendrecv (fun _ => (1, 1)) X_DIR proc_left
                            (fun t => (dim_X t - 1, 1)) X_DIR proc_right)
                [mkSendrecv (fun t => (dim_X t - 2, 1)) X_DIR proc_right
                            (fun _ => (0, 1)) X_DIR proc_left]
                w a A0 b B0 (dim_X A0 - 1) k eq_refl Hok HA HB Hn)
      as (A' & B' & HAl' & HBl'' & Hcell); try lia.
    + line_arith.
    + intros c Hc. repeat (apply elem_of_cons in Hc as [-> | Hc]);
        [.. | by apply elem_of_nil in Hc]; line_arith.
    + cbn. lia.
    + intros c Hc. each_call Hc; line_arith.
    + assert (A' = A) as -> by congruence.
      assert (B' = B) as -> by congruence.
      rewrite Hcell. cbn. f_equal. lia.
  - (* the bottom neighbour: first call *)
    assert (dim_X B0 = dim_X A0) as HXX by congruence.
    destruct (exchange_halo_cell tp f dx dy []
                (mkSendrecv (fun _ => (1, 1)) Y_DIR proc_top
                            (fun t => (1, dim_Y t - 1)) Y_DIR proc_bottom)
                [mkSendrecv (fun t => (1, dim_Y t - 2)) Y_DIR proc_bottom
                            (fun _ => (1, 0)) Y_DIR proc_top;
                 mkSendrecv (fun _ => (1, 1)) X_DIR proc_left
                            (fun t => (dim_X t - 1, 1)) X_DIR proc_right;
                 mkSendrecv (fun t => (dim_X t - 2, 1)) X_DIR proc_right
                            (fun _ => (0, 1)) X_DIR proc_left]
                w a A0 b B0 k (dim_Y A0 - 1) eq_refl Hok HA HB Hn)
      as (A' & B' & HAl' & HBl'' & Hcell); try lia.
    + line_arith.
    + intros c Hc. repeat (apply elem_of_cons in Hc as [-> | Hc]);
        [.. | by apply elem_of_nil in Hc]; line_arith.
    + cbn. lia.
    + intros c Hc. each_call Hc; line_arith.
    + assert (A' = A) as -> by congruence.
      assert (B' = B) as -> by congruence.
      rewrite Hcell. cbn. f_equal. lia.
  - (* the left neighbour: fourth call *)
    assert (dim_Y B0 = dim_Y A0) as HYY by congruence.
    destruct (exchange_halo_cell tp f dx dy
                [mkSendrecv (fun _ => (1, 1)) Y_DIR proc_top
                            (fun t => (1, dim_Y t - 1)) Y_DIR proc_bottom;
                 mkSendrecv (fun t => (1, dim_Y t - 2)) Y_DIR proc_bottom
                            (fun _ => (1, 0)) Y_DIR proc_top;
                 mkSendrecv (fun _ => (1, 1)) X_DIR proc_left
                            (fun t => (dim_X t - 1, 1)) X_DIR proc_right]
                (mkSendrecv (fun t => (dim_X t - 2, 1)) X_DIR proc_right
                            (fun _ => (0, 1)) X_DIR proc_left)
                []
                w a A0 b B0 0 k eq_refl Hok HA HB Hn)
      as (A' & B' & HAl' & HBl'' & Hcell); try lia.
    + line_arith.
    + intros c Hc. by apply elem_of_nil in Hc.
    + cbn. lia.
    + intros c Hc. each_call Hc; line_arith.
    + assert (A' = A) as -> by congruence.
      assert (B' = B) as -> by congruence.
      rewrite Hcell. cbn. rewrite HBX. f_equal. lia.
Qed.


(** An exchange keeps the grid of tiles well-formed, changes nothing but
    the exchanged field, and leaves the interior of every tile alone. *)
Lemma Exchange_Borders_frame tp f dx dy w :
  grid_ok tp f dx dy w ->
  grid_ok tp f dx dy (Exchange_Borders_on f tp w) /\
  forall a A0, w !! a = Some A0 ->
    exists A,
      Exchange_Borders_on f tp w !! a = Some A /\
      A = set f A0 (get f A) /\
      (forall x y, interior A0 x y = true ->
                   cell A (get f A) x y = cell A0 (get f A0) x y).
Proof.
  intros Hok. split; [by apply exchange_grid_ok|].
  intros a A0 HA.
  destruct (exchange_lookup tp f dx dy w a A0 Hok HA) as (A & HAl & HAs).
  exists A. split; [done|]. split; [done|].
  assert (dim_Y A = dim_Y A0) as HY.
  { destruct (set_dims f A0 (get f A)) as [_ H]. rewrite HAs. exact H. }
  intros x y Hint. rewrite (cell_dims A0 A) by done.
  by eapply exchange_interior.
Qed.





(** ** Source fixation (C4) *)

(** *** Zeros in IEEE arithmetic *)

Lemma is_zero_spec (x : float) :
  is_zero x = true <-> exists s, Prim2SF x = S754_zero s.
Proof.
  unfold is_zero. rewrite FloatAxioms.eqb_spec.
  change (Prim2SF zero) with (S754_zero false). unfold SFeqb.
  destruct (Prim2SF x) as [s | s | | s m e]; cbn; split; try done;
    try (by intros [? ?]); try (by destruct s); eauto.
Qed.

Lemma is_finite_spec (x : float) :
  is_finite x = true ->
  (exists s, Prim2SF x = S754_zero s)
  \/ (exists s m e, Prim2SF x = S754_finite s m e).
Proof.
  unfold is_finite, is_infinity. intros H.
  apply negb_true_iff, orb_false_iff in H as [Hn Hi].
  apply is_nan_false in Hn.
  rewrite FloatAxioms.eqb_spec, abs_spec in Hi.
  destruct (Prim2SF x) as [s | s | | s m e]; eauto; [|done].
  by destruct s.
Qed.

Lemma mul_finite_zero (a p : float) :
  is_finite a = true -> is_zero p = true -> is_zero (a * p) = true.
Proof.
  intros Ha Hp. apply is_zero_spec in Hp as [sp Hp]. apply is_zero_spec.
  rewrite mul_spec, Hp. unfold SF64mul, SFmul.
  destruct (is_finite_spec a Ha) as [[s ->] | (s & m & e & ->)]; eauto.
Qed.

Lemma add_zero_zero (r z : float) :
  is_zero r = true -> is_zero z = true -> is_zero (r + z) = true.
Proof.
  intros Hr Hz. apply is_zero_spec in Hr as [sr Hr].
  apply is_zero_spec in Hz as [sz Hz]. apply is_zero_spec.
  rewrite add_spec, Hr, Hz. unfold SF64add, SFadd. destruct sr, sz; eauto.
Qed.

Lemma sub_zero_zero (r z : float) :
  is_zero r = true -> is_zero z = true -> is_zero (r - z) = true.
Proof.
  intros Hr Hz. apply is_zero_spec in Hr as [sr Hr].
  apply is_zero_spec in Hz as [sz Hz]. apply is_zero_spec.
  rewrite sub_spec, Hr, Hz. unfold SF64sub, SFsub. destruct sr, sz; cbn; eauto.
Qed.

(** Adding a zero changes nothing, except that [-0 + +0] is [+0]. *)
Lemma add_zero_r (x z : float) :
  is_zero z = true ->
  (x + z)%float = x \/ (x = neg_zero /\ (x + z)%float = zero).
Proof.
  intros Hz. apply is_zero_spec in Hz as [sz Hz].
  assert (Prim2SF (x + z) = Prim2SF x
          \/ (Prim2SF x = S754_zero true /\ Prim2SF (x + z) = S754_zero false))
    as [H | [H1 H2]].
  { rewrite add_spec, Hz. unfold SF64add, SFadd.
    destruct (Prim2SF x) as [s | s | | s m e]; auto. destruct s, sz; auto. }
  - left. by apply Prim2SF_inj.
  - right. split; by apply Prim2SF_inj.
Qed.

(** *** SOR *)

Lemma same_tile_refl t : same_tile t t.
Proof. done. Qed.

Lemma same_tile_trans t1 t2 t3 :
  same_tile t1 t2 -> same_tile t2 t3 -> same_tile t1 t3.
Proof. unfold same_tile. intros (? & ? & ?) (? & ? & ?). repeat split; congruence. Qed.

Lemma same_tile_set f t g : same_tile t (set f t g).
Proof. by destruct f. Qed.

Lemma not_fixed_same t t' x y :
  same_tile t t' -> not_fixed t' x y = not_fixed t x y.
Proof. intros (_ & HY & HS). unfold not_fixed. by rewrite HY, HS. Qed.

Lemma interior_same t t' x y :
  same_tile t t' -> interior t' x y = interior t x y.
Proof. intros (HX & HY & _). unfold interior. by rewrite HX, HY. Qed.

Lemma Do_Step_fixed t parity :
  (Do_Step t parity).1 = set_phi t (phi (Do_Step t parity).1) /\
  length (phi (Do_Step t parity).1) = length (phi t) /\
  forall x y, not_fixed t x y = false ->
              cell t (phi (Do_Step t parity).1) x y = cell t (phi t) x y.
Proof.
  unfold Do_Step. rewrite for_interior_cells.
  pose (Inv := fun (_ : list (nat * nat)) (s : list float * float) =>
          length s.1 = length (phi t) /\
          forall x y, not_fixed t x y = false ->
                      cell t s.1 x y = cell t (phi t) x y).
  assert (Inv (interior_cells t)
            (foldl (fun s c => Do_Step_cell t parity c.1 c.2 s)
                   (phi t, 0%float) (interior_cells t))) as H.
  { apply foldl_inv; [done|].
    intros l1 [x' y'] l2 [g m] _ [Hlen Hfix]. unfold Inv, Do_Step_cell.
    cbn [fst snd] in *. destruct (_ =? _)%Z; [|done]. cbn [andb].
    destruct (not_fixed t x' y') eqn:Hnf; [|done]. cbn [fst].
    split; [by rewrite put_length|]. intros x y Hxy.
    rewrite <- (Hfix x y Hxy). unfold cell, put, load, store.
    rewrite list_lookup_insert_ne; [done|]. intros Heq.
    unfold not_fixed in Hnf, Hxy. rewrite Heq in Hnf. congruence. }
  destruct (foldl _ _ _) as [g m]. destruct H as [Hlen Hfix]. cbn in *.
  done.
Qed.

Lemma set_phi_same t g : same_tile t (set_phi t g).
Proof. done. Qed.

Lemma fmap_Do_Step_grid_ok tp dx dy parity w :
  grid_ok tp Phi dx dy w ->
  grid_ok tp Phi dx dy (fst <$> ((fun t => Do_Step t parity) <$> w)).
Proof.
  intros [Hr HX HY Hh Hb].
  assert (forall r t', (fst <$> ((fun t => Do_Step t parity) <$> w)) !! r
                       = Some t' ->
            exists t, w !! r = Some t /\ t' = (Do_Step t parity).1) as Hl.
  { intros r t'. rewrite !list_lookup_fmap.
    destruct (w !! r) as [t|]; [|done]. cbn. intros [= <-]. by exists t. }
  split.
  - by rewrite !length_fmap.
  - intros r t' (t & Ht & ->)%Hl.
    destruct (Do_Step_fixed t parity) as (Hs & _). rewrite Hs.
    exact (HX r t Ht).
  - intros r t' (t & Ht & ->)%Hl.
    destruct (Do_Step_fixed t parity) as (Hs & _). rewrite Hs.
    exact (HY r t Ht).
  - intros r t' (t & Ht & ->)%Hl.
    destruct (Do_Step_fixed t parity) as (Hs & _). rewrite Hs.
    exact (Hh r t Ht).
  - intros r t' (t & Ht & ->)%Hl.
    destruct (Do_Step_fixed t parity) as (Hs & Hlen & _).
    cbn [get]. rewrite Hlen, Hs. exact (Hb r t Ht).
Qed.

Lemma keeps_phi_Do_Step parity a A0 x y w :
  not_fixed A0 x y = false ->
  keeps_phi a A0 x y w ->
  keeps_phi a A0 x y (fst <$> ((fun t => Do_Step t parity) <$> w)).
Proof.
  intros Hfix (A & HA & Hsame & Hcell).
  exists (Do_Step A parity).1. split.
  - by rewrite !list_lookup_fmap, HA.
  - destruct (Do_Step_fixed A parity) as (Hs & _ & Hf). split.
    + rewrite Hs. eapply same_tile_trans; [exact Hsame | done].
    + assert (not_fixed A x y = false) as HfA
        by (by rewrite (not_fixed_same A0 A)).
      rewrite <- Hcell. destruct Hsame as (_ & HY & _).
      rewrite <- !(cell_dims A0 A) by done. by apply Hf.
Qed.

Lemma keeps_phi_Exchange tp dx dy a A0 x y w :
  grid_ok tp Phi dx dy w -> interior A0 x y = true ->
  keeps_phi a A0 x y w ->
  keeps_phi a A0 x y (Exchange_Borders_SOR tp w).
Proof.
  intros Hok Hint (A & HA & Hsame & Hcell).
  destruct (Exchange_Borders_frame tp Phi dx dy w Hok) as [_ H].
  destruct (H a A HA) as (A' & HA' & Hs & Hin).
  exists A'. split; [done|]. split.
  - rewrite Hs. eapply same_tile_trans; [exact Hsame | apply same_tile_set].
  - assert (interior A x y = true) as HiA
      by (by rewrite (interior_same A0 A)).
    rewrite <- Hcell. destruct Hsame as (HX & HY & HS).
    assert (dim_Y A' = dim_Y A) as HY'.
    { rewrite Hs. by destruct (set_dims Phi A (get Phi A')). }
    rewrite <- (cell_dims A0 A') by congruence.
    rewrite <- (cell_dims A0 A (phi A)) by done.
    by apply Hin.
Qed.

Lemma SOR_iteration_keeps_phi tp dx dy a A0 x y w :
  grid_ok tp Phi dx dy w -> interior A0 x y = true ->
  not_fixed A0 x y = false ->
  keeps_phi a A0 x y w ->
  grid_ok tp Phi dx dy (SOR_iteration tp w).1
  /\ keeps_phi a A0 x y (SOR_iteration tp w).1.
Proof.
  intros Hok Hint Hfix Hk. unfold SOR_iteration. cbn [fst].
  pose proof (fmap_Do_Step_grid_ok tp dx dy 0 w Hok) as Hok1.
  pose proof (keeps_phi_Do_Step 0 a A0 x y w Hfix Hk) as Hk1.
  destruct (Exchange_Borders_frame tp Phi dx dy _ Hok1) as [Hok2 _].
  pose proof (keeps_phi_Exchange tp dx dy a A0 x y _ Hok1 Hint Hk1) as Hk2.
  pose proof (fmap_Do_Step_grid_ok tp dx dy 1 _ Hok2) as Hok3.
  pose proof (keeps_phi_Do_Step 1 a A0 x y _ Hfix Hk2) as Hk3.
  destruct (Exchange_Borders_frame tp Phi dx dy _ Hok3) as [Hok4 _].
  pose proof (keeps_phi_Exchange tp dx dy a A0 x y _ Hok3 Hint Hk3) as Hk4.
  done.
Qed.

Lemma SOR_state_keeps_phi tp dx dy a A0 x y w delta k :
  grid_ok tp Phi dx dy w -> w !! a = Some A0 ->
  interior A0 x y = true -> not_fixed A0 x y = false ->
  grid_ok tp Phi dx dy (SOR_state tp w delta k).1
  /\ keeps_phi a A0 x y (SOR_state tp w delta k).1.
Proof.
  intros Hok HA Hint Hfix. induction k as [|k [IH1 IH2]].
  - split; [done|]. by exists A0.
  - cbn [SOR_state]. by apply (SOR_iteration_keeps_phi tp dx dy).
Qed.

(** *** CG *)



Lemma InitCG_local_spec m t :
  blocks_fit m t ->
  (InitCG_local m t).1
  = set_vCG (set_rCG (set_pCG t (update_interior t everywhere (InitCG_r t)
                                                 (block_p m)))
                     (update_interior t everywhere (InitCG_r t) (block_r m)))
            (block_v m).
Proof.
  intros (Hp & Hr & Hv). unfold InitCG_local. rewrite for_interior_cells.
  pose (Inv := fun (l : list (nat * nat))
                   (s : list float * list float * float) =>
          swept t everywhere (InitCG_r t) l (block_p m) s.1.1
          /\ swept t everywhere (InitCG_r t) l (block_r m) s.1.2).
  assert (Inv (interior_cells t)
            (foldl (fun s c => InitCG_cell t c.1 c.2 s)
                   (block_p m, block_r m, 0%float) (interior_cells t))) as H.
  { apply foldl_inv.
    - split; by apply swept_nil.
    - intros l1 [x y] l2 [[p r] rd] Hsplit [Hsp Hsr]. cbn [fst snd] in *.
      destruct (interior_cells_split _ _ _ _ _ Hsplit) as (Hint & _ & _).
      pose proof (swept_snoc t everywhere (InitCG_r t) (block_p m) Hp
                    l1 x y l2 p Hsplit Hsp) as Hp'.
      pose proof (swept_snoc t everywhere (InitCG_r t) (block_r m) Hr
                    l1 x y l2 r Hsplit Hsr) as Hr'.
      cbn [everywhere] in Hp', Hr'.
      unfold Inv, InitCG_cell. cbn [fst snd].
      assert ((if not_fixed t x y
               then put t (put t r x y 0%float) x y
                        (neighbour_sum t (phi t) x y * 0.25)%float
               else put t r x y 0%float)
              = put t r x y (InitCG_r t x y)) as ->.
      { unfold InitCG_r, put, store. destruct (not_fixed t x y); [|done].
        by rewrite list_insert_insert_eq. }
      rewrite cell_put.
      + done.
      + destruct Hsr as [-> _]. rewrite Hr. by apply interior_idx_lt. }
  destruct (foldl _ _ _) as [[p r] rd]. destruct H as [Hsp Hsr].
  cbn [fst snd] in *.
  by rewrite (swept_all t _ _ _ Hp p Hsp), (swept_all t _ _ _ Hr r Hsr).
Qed.

Lemma forallb_lookup {A : Type} (f : A -> bool) l i x :
  forallb f l = true -> l !! i = Some x -> f x = true.
Proof.
  revert i. induction l as [|y l IH]; intros i H Hi; [done|].
  cbn in H. apply andb_prop in H as [Hy Hl].
  destruct i as [|i]; cbn in Hi; [congruence | eauto].
Qed.

Lemma InitCG_lookup malloc w a :
  InitCG malloc w !! a
  = (fun t => set_global_residue (InitCG_local (malloc a) t).1
                (MPI_Allreduce_SUM
                   (snd <$> imap (fun rank t => InitCG_local (malloc rank) t) w)))
      <$> w !! a.
Proof.
  unfold InitCG. rewrite list_lookup_fmap, list_lookup_imap.
  by destruct (w !! a).
Qed.

Lemma InitCG_ok tp dx dy malloc w :
  grid_ok tp Phi dx dy w ->
  (forall r t, w !! r = Some t -> blocks_fit (malloc r) t) ->
  cg_world_ok tp dx dy (InitCG malloc w).
Proof.
  intros [Hr HX HY Hh Hb] Hfit.
  assert (forall r t', InitCG malloc w !! r = Some t' ->
            exists t g, w !! r = Some t /\ blocks_fit (malloc r) t /\
              t' = set_global_residue
                     (set_vCG (set_rCG (set_pCG t
                        (update_interior t everywhere (InitCG_r t)
                                         (block_p (malloc r))))
                        (update_interior t everywhere (InitCG_r t)
                                         (block_r (malloc r))))
                        (block_v (malloc r))) g) as Hl.
  { intros r t'. rewrite InitCG_lookup.
    destruct (w !! r) as [t|] eqn:Ht; [|done]. cbn. intros [= <-].
    exists t. eexists. split; [done|]. split; [by apply Hfit|].
    rewrite InitCG_local_spec by by apply Hfit. done. }
  split; [split|].
  - unfold InitCG. by rewrite length_fmap, length_imap.
  - intros r t' (t & g & Ht & _ & ->)%Hl. exact (HX r t Ht).
  - intros r t' (t & g & Ht & _ & ->)%Hl. exact (HY r t Ht).
  - intros r t' (t & g & Ht & _ & ->)%Hl. exact (Hh r t Ht).
  - intros r t' (t & g & Ht & (Hp & _) & ->)%Hl. cbn.
    by rewrite update_interior_length.
  - apply Forall_lookup. intros r t' (t & g & Ht & (Hp & Hr' & Hv) & ->)%Hl.
    split; cbn; rewrite ?update_interior_length; try done.
    exact (Hb r t Ht).
Qed.

Lemma Exchange_Borders_cg_ok tp dx dy w :
  cg_world_ok tp dx dy w -> cg_world_ok tp dx dy (Exchange_Borders tp w).
Proof.
  intros [Hok Hcg].
  destruct (Exchange_Borders_frame tp PCG dx dy w Hok) as [Hok' H].
  split; [done|]. apply Forall_lookup. intros r t' Ht'.
  destruct (lookup_lt_is_Some_2 w r) as [t Ht].
  { rewrite (grid_ranks _ _ _ _ _ Hok), <- (grid_ranks _ _ _ _ _ Hok').
    by eapply lookup_lt_Some. }
  destruct (H r t Ht) as (A & HA & Hs & _).
  assert (A = t') as -> by (unfold Exchange_Borders in Ht'; congruence).
  pose proof (grid_block _ _ _ _ _ Hok' r t' HA) as Hlen.
  pose proof (Forall_lookup_1 _ _ _ _ Hcg Ht) as [].
  rewrite Hs in Hlen |- *. cbn in Hlen |- *. by split.
Qed.


Lemma CG_iteration_cg_ok tp dx dy w :
  cg_world_ok tp dx dy w -> cg_world_ok tp dx dy (CG_iteration w).
Proof.
  intros [[Hr HX HY Hh Hb] Hcg].
  assert (forall r t', CG_iteration w !! r = Some t' ->
            exists t, w !! r = Some t /\ cg_ok t /\
              t' = mkTile (dim_X t) (dim_Y t) (offset_X t) (offset_Y t)
                     (cg_phi w t) (source t) (cg_p w t) (cg_r w t) (cg_v t)
                     (cg_new_rdotr w)) as Hl.
  { intros r t'. rewrite CG_iteration_lookup.
    destruct (w !! r) as [t|] eqn:Ht; [|done]. cbn. intros [= <-].
    exists t. split; [done|]. split; [|done].
    by eapply Forall_lookup_1. }
  split; [split|].
  - unfold CG_iteration. by rewrite length_fmap.
  - intros r t' (t & Ht & _ & ->)%Hl. exact (HX r t Ht).
  - intros r t' (t & Ht & _ & ->)%Hl. exact (HY r t Ht).
  - intros r t' (t & Ht & _ & ->)%Hl. exact (Hh r t Ht).
  - intros r t' (t & Ht & [] & ->)%Hl. cbn. unfold cg_p.
    by rewrite update_interior_length.
  - apply Forall_lookup. intros r t' (t & Ht & [] & ->)%Hl.
    split; cbn; unfold cg_phi, cg_p, cg_r, cg_v;
      by rewrite update_interior_length.
Qed.

Lemma unchanged_add_zero v0 v z :
  unchanged v0 v -> is_zero z = true -> unchanged v0 (v + z).
Proof.
  intros Hv Hz. unfold unchanged in *.
  destruct (add_zero_r v z Hz) as [-> | [Hv' ->]]; [done|].
  destruct Hv as [<- | [-> _]]; auto.
Qed.

Lemma cg_fixed_InitCG tp dx dy malloc w a A0 x y :
  grid_ok tp Phi dx dy w ->
  (forall r t, w !! r = Some t -> blocks_fit (malloc r) t) ->
  w !! a = Some A0 -> interior A0 x y = true -> not_fixed A0 x y = false ->
  cg_fixed a A0 x y (InitCG malloc w).
Proof.
  intros Hok Hfit HA Hint Hfix.
  destruct (Hfit a A0 HA) as (Hp & Hr & Hv).
  eexists. split; [by rewrite InitCG_lookup, HA|].
  rewrite InitCG_local_spec by by apply Hfit. cbn.
  split; [done|].
  rewrite !update_interior_cell by done. cbn. unfold InitCG_r. rewrite Hfix.
  split; [done|]. split; [done|]. by left.
Qed.

Lemma cg_fixed_Exchange tp dx dy a A0 x y w :
  cg_world_ok tp dx dy w -> interior A0 x y = true ->
  cg_fixed a A0 x y w -> cg_fixed a A0 x y (Exchange_Borders tp w).
Proof.
  intros [Hok _] Hint (A & HA & Hsame & Hp & Hr & Hphi).
  destruct (Exchange_Borders_frame tp PCG dx dy w Hok) as [_ H].
  destruct (H a A HA) as (A' & HA' & Hs & Hin).
  assert (interior A x y = true) as HiA by (by rewrite (interior_same A0 A)).
  specialize (Hin x y HiA).
  exists A'. split; [done|].
  assert (same_tile A0 A') as Hsame'.
  { rewrite Hs. eapply same_tile_trans; [exact Hsame | apply same_tile_set]. }
  split; [done|].
  destruct Hsame as (_ & HY & _). destruct Hsame' as (_ & HY' & _).
  rewrite (cell_dims A0 A') in Hin by congruence.
  rewrite (cell_dims A0 A) in Hin by congruence.
  cbn [get] in *. rewrite Hin. rewrite Hs. cbn. done.
Qed.

Lemma cg_fixed_iteration tp dx dy a A0 x y w :
  cg_world_ok tp dx dy w ->
  interior A0 x y = true -> not_fixed A0 x y = false ->
  cg_fixed a A0 x y w ->
  (forall A, w !! a = Some A ->
             is_finite (cg_a w A) = true /\ is_finite (cg_gamma w A) = true) ->
  cg_fixed a A0 x y (CG_iteration w).
Proof.
  intros [Hok Hcg] Hint Hfix (A & HA & Hsame & Hp & Hr & Hphi) Hfin.
  destruct (Hfin A HA) as [Ha Hg].
  pose proof (Forall_lookup_1 _ _ _ _ Hcg HA) as [Hlphi Hlp Hlr Hlv].
  assert (interior A x y = true) as HiA by (by rewrite (interior_same A0 A)).
  assert (not_fixed A x y = false) as HfA
    by (by rewrite (not_fixed_same A0 A)).
  eexists. split; [by rewrite CG_iteration_lookup, HA|].
  split; [exact Hsame|]. cbn [pCG rCG phi].
  destruct Hsame as (_ & HY & _).
  rewrite <- !(cell_dims A0 A) in * by done.
  assert (is_zero (cell A (cg_v A) x y) = true) as Hv.
  { unfold cg_v. rewrite update_interior_cell by done. cbn. by rewrite HfA. }
  assert (is_zero (cell A (cg_r w A) x y) = true) as Hr'.
  { unfold cg_r. rewrite update_interior_cell by done. cbn.
    apply sub_zero_zero; [done|]. by apply mul_finite_zero. }
  split; [|split; [done|]].
  - unfold cg_p. rewrite update_interior_cell by done. cbn.
    apply add_zero_zero; [done|]. by apply mul_finite_zero.
  - unfold cg_phi. rewrite update_interior_cell by done. cbn.
    apply unchanged_add_zero; [done|]. by apply mul_finite_zero.
Qed.

Lemma CG_state_fixed tp dx dy malloc w a A0 x y k :
  grid_ok tp Phi dx dy w ->
  (forall r t, w !! r = Some t -> blocks_fit (malloc r) t) ->
  w !! a = Some A0 -> interior A0 x y = true -> not_fixed A0 x y = false ->
  (forall j, j < k -> finite_step tp (CG_state tp (InitCG malloc w) j) = true) ->
  cg_world_ok tp dx dy (CG_state tp (InitCG malloc w) k)
  /\ cg_fixed a A0 x y (CG_state tp (InitCG malloc w) k).
Proof.
  intros Hok Hfit HA Hint Hfix. induction k as [|k IH]; intros Hfin.
  - split; [by apply InitCG_ok | by eapply cg_fixed_InitCG].
  - destruct IH as [IH1 IH2]; [intros j Hj; apply Hfin; lia|].
    cbn [CG_state].
    pose proof (Exchange_Borders_cg_ok tp dx dy _ IH1) as Hok1.
    pose proof (cg_fixed_Exchange tp dx dy a A0 x y _ IH1 Hint IH2) as Hf1.
    rewrite Do_Step_CG_iteration by apply Hok1.
    split; [by apply CG_iteration_cg_ok|].
    eapply cg_fixed_iteration; eauto.
    intros A HAl. specialize (Hfin k ltac:(lia)). unfold finite_step in Hfin.
    pose proof (forallb_lookup _ _ _ _ Hfin HAl) as H.
    by apply andb_prop in H.
Qed.

(** C4, amended.  On a process grid whose tiles fit together, for every
    interior cell that is marked as a source: in the SOR build its [phi]
    value after any number of iterations is the one it had when the loop
    started; in the CG build [p] and [r] are zero at the cell after InitCG
    and after every iteration, and [phi] keeps its load-time value (a
    load-time [-0.0] may become [+0.0]), as long as the step length [a]
    and the ratio [gamma] of every iteration so far are finite numbers. *)
Theorem source_fixation tp dx dy w a A0 x y :
  grid_ok tp Phi dx dy w -> w !! a = Some A0 ->
  interior A0 x y = true -> not_fixed A0 x y = false ->
  (forall delta k,
     exists A, (SOR_state tp w delta k).1 !! a = Some A /\
               cell A (phi A) x y = cell A0 (phi A0) x y) /\
  (forall malloc k,
     (forall r t, w !! r = Some t -> blocks_fit (malloc r) t) ->
     (forall j, j < k ->
                finite_step tp (CG_state tp (InitCG malloc w) j) = true) ->
     exists A, CG_state tp (InitCG malloc w) k !! a = Some A /\
               is_zero (cell A (pCG A) x y) = true /\
               is_zero (cell A (rCG A) x y) = true /\
               unchanged (cell A0 (phi A0) x y) (cell A (phi A) x y)).
Proof.
  intros Hok HA Hint Hfix. split.
  - intros delta k.
    destruct (SOR_state_keeps_phi tp dx dy a A0 x y w delta k Hok HA Hint Hfix)
      as [_ (A & HAl & (_ & HY & _) & Hcell)].
    exists A. split; [done|]. by rewrite (cell_dims A0 A).
  - intros malloc k Hfit Hfin.
    destruct (CG_state_fixed tp dx dy malloc w a A0 x y k Hok Hfit HA Hint
                Hfix Hfin) as [_ (A & HAl & (_ & HY & _) & Hp & Hr & Hphi)].
    exists A. split; [done|]. by rewrite !(cell_dims A0 A).
Qed.

(** ** Overflow in the CG build *)

(** C4 as stated fails in the CG build for a source of value 1e200 at the
    centre of a 3 x 3 grid: the squares of the residuals overflow, the
    first step length is [inf / inf], a NaN, and [phi += a * p] turns the
    source cell, where [p] is 0, into a NaN. *)
Lemma source_fixation_overflow :
  let malloc := fun _ : nat => zeroed 25 in
  let w := processes single huge_source_input in
  interior (Setup_Grid single huge_source_input 0) 2 2 = true /\
  not_fixed (Setup_Grid single huge_source_input 0) 2 2 = false /\
  phi_at w 0 2 2 = 1e200%float /\
  is_nan (phi_at (CG_state single (InitCG malloc w) 1) 0 2 2) = true /\
  main single malloc huge_source_input
  = Some (CG_state single (InitCG malloc w) 1, 1%Z).
Proof.
  cbv zeta.
  split; [vm_compute; reflexivity|].
  split; [vm_compute; reflexivity|].
  split; [vm_compute; reflexivity|].
  split; vm_compute; reflexivity.
Qed.

(** C7 as stated fails on the same run: Solve leaves the loop after one
    iteration, below the cap of 5, although the metric is not at or below
    the precision goal; it is a NaN, and [NaN > goal] is false. *)
Lemma Solve_exit_on_nan :
  let malloc := fun _ : nat => zeroed 25 in
  let inp := huge_source_input in
  (0 <? precision_goal_in inp)%float = true /\
  (0 < max_iter_in inp)%Z /\
  exists w,
    main single malloc inp = Some (w, 1%Z) /\
    (1 < max_iter_in inp)%Z /\
    (residue w <=? precision_goal_in inp)%float = false.
Proof.
  cbv zeta. split; [vm_compute; reflexivity|].
  split; [vm_compute; reflexivity|].
  exists (CG_state single
            (InitCG (fun _ => zeroed 25) (processes single huge_source_input))
            1).
  split; [vm_compute; reflexivity|].
  split; vm_compute; reflexivity.
Qed.

(** ** The unguarded divisions (C10) *)

(** C10.  Do_Step_CG makes its two divisions whatever the divisors are.
    For every value of [global_pdotv], zero included, the step length is
    [a = global_residue / global_pdotv] and [phi] becomes [phi + a * p] on
    the interior; for every value of [global_residue], zero included,
    [gamma = global_new_rdotr / global_residue] and [p] becomes
    [r + gamma * p]; in a call of Do_Step_CG the two divisors are the
    global sum of [p.v] and the [global_residue] the call starts with.
    A division by zero is reached from an input with a positive precision
    goal: on a 4 x 1 grid with two sources of value [3 * 2^-537] the
    squares of the residuals round to the smallest positive [double], so
    [global_residue = 2^-1073] exceeds the goal [2^-1074] and the loop is
    entered, while every product [p * v] underflows to 0; the step length
    is [2^-1073 / 0 = inf], and [phi] receives infinities.  The divisor of
    [gamma] is zero in the run of an input with a negative goal and no
    source: [global_residue = 0] exceeds the goal, the loop is entered,
    [gamma] is [nan / 0] and [p] receives NaNs.  (When the goal is not
    negative the loop test of Solve, [global_residue > precision_goal],
    keeps zero away from the divisor of [gamma]; nothing does so for
    [global_pdotv].) *)
Theorem division_by_zero_reachable :
  (forall gp t, cg_ok t ->
     forall x y, interior t x y = true ->
       cell t (phi (Do_Step_CG_update gp t).1) x y
       = (cell t (phi t) x y + global_residue t / gp * cell t (pCG t) x y)%float) /\
  (forall gn t, cg_ok t ->
     forall x y, interior t x y = true ->
       cell t (pCG (Do_Step_CG_direction gn t)) x y
       = (cell t (rCG t) x y + gn / global_residue t * cell t (pCG t) x y)%float) /\
  (forall w, Forall cg_ok w ->
     forall a t, w !! a = Some t ->
       exists t',
         Do_Step_CG w !! a = Some t' /\
         forall x y, interior t x y = true ->
           cell t (phi t') x y
           = (cell t (phi t) x y
              + global_residue t / cg_global_pdotv w * cell t (pCG t) x y)%float /\
           cell t (pCG t') x y
           = (cell t (rCG t') x y
              + cg_new_rdotr w / global_residue t * cell t (pCG t) x y)%float) /\
  (forall goal w max_iter count,
     (goal <? 0)%float = false ->
     keeps_running goal (residue w) max_iter count = true ->
     (0 <? residue w)%float = true) /\
  (let malloc := fun _ : nat => zeroed 18 in
   let inp := tiny_source_input in
   let w0 := InitCG malloc (processes single inp) in
   let w1 := Exchange_Borders single w0 in
   (0 <? precision_goal_in inp)%float = true /\
   keeps_running (precision_goal_in inp) (residue w0) (max_iter_in inp) 0 = true /\
   MPI_Allreduce_SUM (snd <$> (Do_Step_CG_pdotv <$> w1)) = 0%float /\
   (residue w1 / 0 = infinity)%float /\
   phi_at (Do_Step_CG w1) 0 2 1 = infinity /\
   main single malloc inp = Some (Do_Step_CG w1, 1%Z)) /\
  (let malloc := fun _ : nat => zeroed 25 in
   let inp := negative_goal_input in
   let w0 := InitCG malloc (processes single inp) in
   let w1 := Exchange_Borders single w0 in
   keeps_running (precision_goal_in inp) (residue w0) (max_iter_in inp) 0 = true /\
   residue w1 = 0%float /\
   is_nan (cg_new_rdotr w1 / residue w1) = true /\
   is_nan (residue (Do_Step_CG w1)) = true /\
   (fun t => is_nan (cell t (pCG t) 1 1)) <$> (Do_Step_CG w1 !! 0) = Some true /\
   main single malloc inp = Some (Do_Step_CG w1, 1%Z)).
Proof.
  split; [|split; [|split; [|split; [|split]]]].
  - intros gp t Hok x y Hint. rewrite Do_Step_CG_update_spec by done.
    cbn [fst phi set_rCG set_phi]. rewrite update_interior_cell; [done | | done].
    apply Hok.
  - intros gn t Hok x y Hint. rewrite Do_Step_CG_direction_spec by done.
    cbn [pCG set_pCG]. rewrite update_interior_cell; [done | | done].
    apply Hok.
  - intros w Hok a t Ht. rewrite Do_Step_CG_iteration by done.
    pose proof (Forall_lookup_1 _ _ _ _ Hok Ht) as [Hphi Hp Hr Hv].
    eexists. split; [by rewrite CG_iteration_lookup, Ht|]. cbn.
    intros x y Hint. unfold cg_p, cg_phi, cg_gamma, cg_a.
    by rewrite !update_interior_cell.
  - intros goal w max_iter count Hgoal Hrun. unfold keeps_running in Hrun.
    apply andb_prop in Hrun as [Hrun _].
    exact (float_le_lt 0 goal (residue w) eq_refl Hgoal Hrun).
  - cbv zeta.
    split; [vm_compute; reflexivity|].
    split; [vm_compute; reflexivity|].
    split; [vm_compute; reflexivity|].
    split; [vm_compute; reflexivity|].
    split; vm_compute; reflexivity.
  - cbv zeta.
    split; [vm_compute; reflexivity|].
    split; [vm_compute; reflexivity|].
    split; [vm_compute; reflexivity|].
    split; [vm_compute; reflexivity|].
    split; vm_compute; reflexivity.
Qed.

(** ** Instances of the theorems on example runs *)





Lemma small_grid_ok :
  grid_ok single Phi (fun _ => 6) (fun _ => 6) (processes single small_input).
Proof.
  split.
  - vm_compute. reflexivity.
  - intros [|r] t H; vm_compute in H; [|discriminate].
    injection H as <-. vm_compute. reflexivity.
  - intros [|r] t H; vm_compute in H; [|discriminate].
    injection H as <-. vm_compute. reflexivity.
  - intros [|r] t H; vm_compute in H; [|discriminate].
    injection H as <-. cbn. lia.
  - intros [|r] t H; vm_compute in H; [|discriminate].
    injection H as <-. vm_compute. reflexivity.
Qed.

Lemma small_blocks_fit r t :
  processes single small_input !! r = Some t -> blocks_fit (zeroed 36) t.
Proof.
  destruct r as [|r]; intros H; vm_compute in H; [|discriminate].
  injection H as <-. repeat split.
Qed.

Lemma small_finite_steps j :
  j < 2 ->
  finite_step single
    (CG_state single
       (InitCG (fun _ => zeroed 36) (processes single small_input)) j) = true.
Proof.
  intros Hj. destruct j as [|[|j]]; [vm_compute; reflexivity.. | lia].
Qed.

Lemma source_fixation_witness :
  let w := processes single small_input in
  let A0 := Setup_Grid single small_input 0 in
  grid_ok single Phi (fun _ => 6) (fun _ => 6) w /\
  w !! 0 = Some A0 /\
  interior A0 3 3 = true /\ not_fixed A0 3 3 = false /\
  (exists A, (SOR_state single w 0%float 3).1 !! 0 = Some A /\
             cell A (phi A) 3 3 = cell A0 (phi A0) 3 3) /\
  (exists A, CG_state single (InitCG (fun _ => zeroed 36) w) 2 !! 0 = Some A /\
             is_zero (cell A (pCG A) 3 3) = true /\
             is_zero (cell A (rCG A) 3 3) = true /\
             unchanged (cell A0 (phi A0) 3 3) (cell A (phi A) 3 3)).
Proof.
  cbv zeta.
  assert (processes single small_input !! 0
          = Some (Setup_Grid single small_input 0)) as H0 by reflexivity.
  assert (interior (Setup_Grid single small_input 0) 3 3 = true) as H1
    by (vm_compute; reflexivity).
  assert (not_fixed (Setup_Grid single small_input 0) 3 3 = false) as H2
    by (vm_compute; reflexivity).
  pose proof (source_fixation single (fun _ => 6) (fun _ => 6)
                (processes single small_input) 0
                (Setup_Grid single small_input 0) 3 3
                small_grid_ok H0 H1 H2) as [Hsor Hcg].
  split; [exact small_grid_ok|]. split; [exact H0|]. split; [exact H1|].
  split; [exact H2|]. split; [apply Hsor|].
  apply (Hcg (fun _ => zeroed 36) 2).
  - intros r t. apply small_blocks_fit.
  - apply small_finite_steps.
Defined.



Lemma Solve_termination_witness :
  (0 <? 0.0001)%float = true /\ (0 <= 5000 <= CInt.INT_MAX)%Z /\
  exists k : nat,
    Solve single (fun _ => zeroed 36) 0.0001 5000 (processes single small_input)
    = Some (CG_state single
              (InitCG (fun _ => zeroed 36) (processes single small_input)) k,
            Z.of_nat k) /\
    (Z.of_nat k <= 5000)%Z.
Proof.
  assert ((0 <? 0.0001)%float = true) as H1 by reflexivity.
  assert (0 <= 5000 <= CInt.INT_MAX)%Z as H2 by (unfold CInt.INT_MAX; lia).
  split; [exact H1|]. split; [exact H2|].
  destruct (proj1 (Solve_termination single (fun _ => zeroed 36) 0.0001 5000
                     (processes single small_input) H1 H2))
    as (k & Hrun & Hle & _).
  exists k. split; [exact Hrun | exact Hle].
Defined.

Lemma CG_trivial_case_witness :
  let inp := mkInput 3 3 0.001 10 [] in
  sources inp = [] /\ (0 <? precision_goal_in inp)%float = true /\
  main single (fun _ => zeroed 25) inp
  = Some (InitCG (fun _ => zeroed 25) (processes single inp), 0%Z).
Proof.
  cbv zeta.
  assert ((0 <? precision_goal_in (mkInput 3 3 0.001 10 []))%float = true)
    as H by reflexivity.
  split; [reflexivity|]. split; [exact H|].
  destruct (CG_trivial_case (fun _ => zeroed 25) (mkInput 3 3 0.001 10 [])
              eq_refl H) as (dimx & dimy & ox & oy & _ & _ & Hmain).
  exact Hmain.
Defined.

Lemma max_iter_zero_witness :
  let inp := mkInput 3 3 0.001 0 [(0.5, 0.5, 1)%float] in
  max_iter_in inp = 0%Z /\
  exists w, main single (fun _ => zeroed 25) inp = Some (w, 0%Z)
            /\ phi <$> w = phi <$> processes single inp.
Proof.
  cbv zeta. split; [reflexivity|].
  exact (proj1 (max_iter_zero single (fun _ => zeroed 25)
                  (mkInput 3 3 0.001 0 [(0.5, 0.5, 1)%float]) eq_refl)).
Defined.

(** * Further properties of the program

    Setup_Grid with its sources, Exchange_Borders, Do_Step, InitCG and the
    CG loop, Solve from input to result, Write_Grid and the timer. *)

(** ** The [int] arithmetic of Setup_Grid *)

#[local] Open Scope Z_scope.

Lemma wrap_range z : CInt.in_range (CInt.wrap z).
Proof.
  unfold CInt.in_range, CInt.wrap, CInt.INT_MIN, CInt.INT_MAX.
  pose proof (Z.mod_pos_bound (z + 2147483648) 4294967296 ltac:(lia)). lia.
Qed.

Lemma wrap_low z :
  -6442450944 <= z < -2147483648 -> CInt.wrap z = z + 4294967296.
Proof.
  intros H. unfold CInt.wrap.
  replace (z + 2147483648) with ((z + 4294967296 + 2147483648) + (-1) * 4294967296)
    by lia.
  rewrite Z.mod_add by lia. rewrite Z.mod_small; lia.
Qed.

Lemma double_to_int_range f : CInt.in_range (double_to_int f).
Proof.
  unfold double_to_int, CInt.in_range.
  destruct (Prim2SF f) as [s| | |s m e]; try (unfold CInt.INT_MIN, CInt.INT_MAX; lia).
  match goal with |- context [if ?b then _ else _] => destruct b eqn:E end;
    unfold CInt.INT_MIN, CInt.INT_MAX in *; lia.
Qed.

Section Axis_width.
Variables n P : Z.
Hypothesis Hn : 1 <= n.
Hypothesis HP : 1 <= P.
Hypothesis Hfit : n * P <= CInt.INT_MAX.
Hypothesis Hdim : n + 2 <= CInt.INT_MAX.

Lemma width_bounds c :
  0 <= c < P ->
  n / P <= n * (c + 1) / P - n * c / P <= n / P + 1.
Proof using Hn HP.
  clear Hfit Hdim. intros Hc. replace (n * (c + 1)) with (n * c + n) by lia.
  pose proof (Z.mul_div_le (n * c) P ltac:(lia)).
  pose proof (Z.mul_div_le n P ltac:(lia)).
  pose proof (Z.mul_succ_div_gt (n * c) P ltac:(lia)).
  pose proof (Z.mul_succ_div_gt n P ltac:(lia)).
  split.
  - assert (n * c / P + n / P <= (n * c + n) / P); [|lia].
    apply Z.div_le_lower_bound; lia.
  - assert ((n * c + n) / P < n * c / P + n / P + 2); [|lia].
    apply Z.div_lt_upper_bound; lia.
Qed.

Lemma upper_le_n c : 0 <= c < P -> 0 <= n * c / P /\ n * (c + 1) / P <= n.
Proof using Hn HP.
  clear Hfit Hdim. intros Hc. split; [apply Z.div_pos; nia|].
  pose proof (floor_mono n P Hn HP (c + 1) P ltac:(lia)) as H.
  rewrite Z.div_mul in H by lia. exact H.
Qed.

Lemma Setup_Grid_dim_floor c :
  0 <= c < P ->
  Setup_Grid_dim n c P = n * (c + 1) / P - n * c / P + 2.
Proof using All.
  intros Hc. unfold Setup_Grid_dim.
  rewrite upper_offset_floor, offset_floor by lia.
  pose proof (upper_le_n c Hc) as [H0 H1].
  pose proof (floor_mono n P Hn HP c (c + 1) ltac:(lia)) as H2.
  unfold CInt.add, CInt.sub.
  rewrite (wrap_small (_ - _))
    by (unfold CInt.in_range, CInt.INT_MIN, CInt.INT_MAX in *; lia).
  apply wrap_small. unfold CInt.in_range, CInt.INT_MIN, CInt.INT_MAX in *. lia.
Qed.

End Axis_width.

Lemma source_test off d g :
  0 <= off -> 2 <= d -> off + d <= CInt.INT_MAX -> CInt.in_range g ->
  let x := CInt.sub (CInt.add g 1) off in
  if (0 <? x) && (x <? CInt.sub d 1)
  then x = g + 1 - off /\ 0 < x < d - 1
  else ~ (0 < g + 1 - off < d - 1).
Proof.
  intros Hoff Hd Hfit Hg x.
  assert (CInt.sub d 1 = d - 1) as ->.
  { apply wrap_small. unfold CInt.in_range, CInt.INT_MIN, CInt.INT_MAX in *. lia. }
  unfold CInt.in_range, CInt.INT_MIN, CInt.INT_MAX in *.
  assert (Ha : CInt.add g 1 = g + 1 /\ g < 2147483647
               \/ CInt.add g 1 = -2147483648 /\ g = 2147483647).
  { destruct (Z.eq_dec g 2147483647) as [->|]; [right; by vm_compute|left].
    split; [|lia]. apply wrap_small.
    unfold CInt.in_range, CInt.INT_MIN, CInt.INT_MAX. lia. }
  assert (Hx : x = CInt.add g 1 - off /\ -2147483648 <= CInt.add g 1 - off
               \/ x = CInt.add g 1 - off + 4294967296
                  /\ CInt.add g 1 - off < -2147483648).
  { unfold x, CInt.sub.
    destruct (Z_lt_le_dec (CInt.add g 1 - off) (-2147483648)).
    - right. split; [|lia]. apply wrap_low. lia.
    - left. split; [|lia]. apply wrap_small.
      unfold CInt.in_range, CInt.INT_MIN, CInt.INT_MAX. lia. }
  destruct (Z.ltb_spec 0 x), (Z.ltb_spec x (d - 1)); cbn [andb]; lia.
Qed.

Lemma snoc_split {A : Type} (l l1 l2 : list A) (s s0 : A) :
  l ++ [s] = l1 ++ s0 :: l2 ->
  (l2 = [] /\ l = l1 /\ s0 = s)
  \/ (exists l2', l2 = l2' ++ [s] /\ l = l1 ++ s0 :: l2').
Proof.
  intros H. destruct (decide (l2 = [])) as [->|Hne].
  - left. apply app_inj_tail in H as [-> ->]. done.
  - right. destruct (exists_last Hne) as (l2' & s' & ->).
    rewrite app_comm_cons, app_assoc in H.
    apply app_inj_tail in H as [-> ->]. by exists l2'.
Qed.

#[local] Open Scope nat_scope.

Lemma source_record_shape gx gy t s :
  let t' := Setup_Grid_source gx gy t s in
  dim_X t' = dim_X t /\ dim_Y t' = dim_Y t /\
  offset_X t' = offset_X t /\ offset_Y t' = offset_Y t /\
  length (phi t') = length (phi t) /\ length (source t') = length (source t) /\
  pCG t' = pCG t /\ rCG t' = rCG t /\ vCG t' = vCG t /\
  global_residue t' = global_residue t.
Proof.
  destruct s as [[sx sy] v]. unfold Setup_Grid_source.
  match goal with |- context [if ?b then _ else _] => destruct b end;
    cbn; rewrite ?put_length, ?length_insert; done.
Qed.

Lemma source_records_shape gx gy l t :
  let t' := foldl (Setup_Grid_source gx gy) t l in
  dim_X t' = dim_X t /\ dim_Y t' = dim_Y t /\
  offset_X t' = offset_X t /\ offset_Y t' = offset_Y t /\
  length (phi t') = length (phi t) /\ length (source t') = length (source t) /\
  pCG t' = pCG t /\ rCG t' = rCG t /\ vCG t' = vCG t /\
  global_residue t' = global_residue t.
Proof.
  revert t. induction l as [|s l IH]; intros t; [done|]. cbn [foldl].
  cbv zeta in *.
  destruct (IH (Setup_Grid_source gx gy t s))
    as (-> & -> & -> & -> & -> & -> & -> & -> & -> & ->).
  apply source_record_shape.
Qed.

(** What Setup_Grid_source does, case by case. *)
Lemma source_record_cases gx gy t s :
  (0 <= offset_X t)%Z -> (0 <= offset_Y t)%Z ->
  2 <= dim_X t -> 2 <= dim_Y t ->
  (offset_X t + Z.of_nat (dim_X t) <= CInt.INT_MAX)%Z ->
  (offset_Y t + Z.of_nat (dim_Y t) <= CInt.INT_MAX)%Z ->
  (exists X Y,
     interior t X Y = true /\ global_cell t X Y = source_cell gx gy s /\
     Setup_Grid_source gx gy t s
     = mkTile (dim_X t) (dim_Y t) (offset_X t) (offset_Y t)
              (put t (phi t) X Y s.2)
              (<[idx (dim_Y t) X Y := 1%Z]> (source t))
              (pCG t) (rCG t) (vCG t) (global_residue t))
  \/ (Setup_Grid_source gx gy t s = t /\
      forall X Y, interior t X Y = true ->
                  global_cell t X Y <> source_cell gx gy s).
Proof.
  intros HoX HoY HdX HdY HfX HfY. destruct s as [[sx sy] v].
  unfold Setup_Grid_source, source_cell. cbn [fst snd].
  set (cx := double_to_int (sx * int_to_double gx)).
  set (cy := double_to_int (sy * int_to_double gy)).
  pose proof (source_test (offset_X t) (Z.of_nat (dim_X t)) cx HoX ltac:(lia) HfX
                (double_to_int_range _)) as HX.
  pose proof (source_test (offset_Y t) (Z.of_nat (dim_Y t)) cy HoY ltac:(lia) HfY
                (double_to_int_range _)) as HY.
  cbv zeta in HX, HY.
  set (x := CInt.sub (CInt.add cx 1) (offset_X t)) in *.
  set (y := CInt.sub (CInt.add cy 1) (offset_Y t)) in *.
  assert (((0 <? x)%Z && (x <? CInt.sub (Z.of_nat (dim_X t)) 1)%Z
           && (0 <? y)%Z && (y <? CInt.sub (Z.of_nat (dim_Y t)) 1)%Z)
          = (((0 <? x)%Z && (x <? CInt.sub (Z.of_nat (dim_X t)) 1)%Z)
             && ((0 <? y)%Z && (y <? CInt.sub (Z.of_nat (dim_Y t)) 1)%Z))) as ->
    by (by rewrite !andb_assoc).
  destruct ((0 <? x)%Z && (x <? CInt.sub (Z.of_nat (dim_X t)) 1)%Z);
    [destruct ((0 <? y)%Z && (y <? CInt.sub (Z.of_nat (dim_Y t)) 1)%Z)|];
    cbn [andb].
  - left. exists (Z.to_nat x), (Z.to_nat y).
    destruct HX as [HX1 HX2], HY as [HY1 HY2]. split; [|split; [|done]].
    + unfold interior.
      repeat (apply andb_true_intro; split);
        first [apply Nat.leb_le | apply Nat.ltb_lt]; lia.
    + unfold global_cell. f_equal; lia.
  - right. split; [done|]. intros X Y HI%interior_bounds. unfold global_cell.
    intros [= H1 H2]. lia.
  - right. split; [done|]. intros X Y HI%interior_bounds.
    unfold global_cell. intros [= H1 H2]. lia.
Qed.

(** ** The tiles Setup_Grid builds *)

Lemma global_cell_inj t x y x' y' :
  global_cell t x y = global_cell t x' y' -> x = x' /\ y = y'.
Proof. unfold global_cell. intros [= H1 H2]. lia. Qed.

Lemma sources_inv gx gy t0 l :
  (0 <= offset_X t0)%Z -> (0 <= offset_Y t0)%Z ->
  2 <= dim_X t0 -> 2 <= dim_Y t0 ->
  (offset_X t0 + Z.of_nat (dim_X t0) <= CInt.INT_MAX)%Z ->
  (offset_Y t0 + Z.of_nat (dim_Y t0) <= CInt.INT_MAX)%Z ->
  length (phi t0) = dim_X t0 * dim_Y t0 ->
  length (source t0) = dim_X t0 * dim_Y t0 ->
  (forall i, load_int (source t0) i = 0%Z) ->
  (forall i, load (phi t0) i = 0%float) ->
  let t := foldl (Setup_Grid_source gx gy) t0 l in
  forall x y, x < dim_X t0 -> y < dim_Y t0 ->
    (not_fixed t x y = false <->
       interior t0 x y = true /\
       exists s, s ∈ l /\ source_cell gx gy s = global_cell t0 x y) /\
    (not_fixed t x y = true -> cell t (phi t) x y = 0%float) /\
    (forall l1 s l2, l = l1 ++ s :: l2 ->
       interior t0 x y = true ->
       source_cell gx gy s = global_cell t0 x y ->
       (forall s', s' ∈ l2 -> source_cell gx gy s' <> global_cell t0 x y) ->
       cell t (phi t) x y = s.2).
Proof.
  intros HoX HoY HdX HdY HfX HfY Hphi Hsrc Hs0 Hp0.
  induction l as [|s l IH] using rev_ind; intros t x y Hx Hy.
  - subst t. cbn [foldl]. unfold not_fixed, cell. rewrite Hs0, Hp0. cbn.
    split; [|split].
    + split; [done|]. intros (_ & s & Hs & _). by apply elem_of_nil in Hs.
    + done.
    + intros l1 s l2 H. by destruct l1.
  - subst t. rewrite foldl_app. cbn [foldl].
    set (t := foldl (Setup_Grid_source gx gy) t0 l) in *.
    destruct (source_records_shape gx gy l t0)
      as (EdX & EdY & EoX & EoY & Elp & Els & _). fold t in EdX, EdY, EoX, EoY, Elp, Els.
    assert (Hi : forall x y, interior t x y = interior t0 x y)
      by (intros; unfold interior; by rewrite EdX, EdY).
    assert (Hg : forall x y, global_cell t x y = global_cell t0 x y)
      by (intros; unfold global_cell; by rewrite EoX, EoY).
    specialize (IH x y Hx Hy) as (IH1 & IH2 & IH3).
    destruct (source_record_cases gx gy t s) as
      [(X & Y & HI & HG & ->) | [-> Hno]]; try lia.
    + rewrite Hi in HI. rewrite Hg in HG.
      pose proof (interior_bounds _ _ _ HI) as HB.
      unfold not_fixed, cell, put, store, load, load_int. cbn [dim_Y source phi].
      destruct (decide (x = X /\ y = Y)) as [[-> ->]|Hne].
      * rewrite !list_lookup_insert_eq
          by (rewrite ?Els, ?Elp, ?Hsrc, ?Hphi, EdY; apply idx_lt; lia).
        cbn. split; [|split].
        -- split; [|done]. intros _. split; [done|]. exists s.
           split; [apply elem_of_app; right; by apply list_elem_of_singleton|done].
        -- done.
        -- intros l1 s1 l2 [(-> & -> & ->) | (l2' & -> & ->)]%snoc_split _ Hc Hlast;
             [done|].
           exfalso. apply (Hlast s); [|done].
           apply elem_of_app; right. by apply list_elem_of_singleton.
      * assert (idx (dim_Y t) X Y <> idx (dim_Y t) x y).
        { intros E. apply idx_inj in E; lia. }
        rewrite !list_lookup_insert_ne by done.
        unfold not_fixed, load_int in IH1, IH2.
        unfold cell, load in IH2, IH3. split; [|split].
        -- rewrite IH1. split; intros (HIxy & s' & Hs' & Hc); (split; [done|]).
           ++ exists s'. split; [apply elem_of_app; by left|done].
           ++ exists s'. split; [|done].
              apply elem_of_app in Hs' as [Hs'|Hs']; [done|].
              apply list_elem_of_singleton in Hs' as ->. exfalso.
              rewrite Hc in HG. apply global_cell_inj in HG. lia.
        -- exact IH2.
        -- intros l1 s1 l2 [(-> & -> & ->) | (l2' & -> & ->)]%snoc_split
             HIxy Hc Hlast.
           ++ exfalso. rewrite Hc in HG. apply global_cell_inj in HG. lia.
           ++ apply (IH3 l1 s1 l2' eq_refl HIxy Hc). intros s' Hs'.
              apply Hlast. apply elem_of_app; by left.
    + split; [|split].
      * rewrite IH1. split; intros (HIxy & s' & Hs' & Hc); (split; [done|]).
        -- exists s'. split; [apply elem_of_app; by left|done].
        -- exists s'. split; [|done].
           apply elem_of_app in Hs' as [Hs'|Hs']; [done|].
           apply list_elem_of_singleton in Hs' as ->. exfalso.
           apply (Hno x y); [by rewrite Hi|]. by rewrite Hg.
      * exact IH2.
      * intros l1 s1 l2 [(-> & -> & ->) | (l2' & -> & ->)]%snoc_split
          HIxy Hc Hlast.
        -- exfalso. apply (Hno x y); [by rewrite Hi|]. by rewrite Hg.
        -- apply (IH3 l1 s1 l2' eq_refl HIxy Hc). intros s' Hs'.
           apply Hlast. apply elem_of_app; by left.
Qed.

Lemma CSize_wrap_small z : (0 <= z <= CSize.SIZE_MAX)%Z -> CSize.wrap z = z.
Proof.
  unfold CSize.wrap, CSize.SIZE_MAX. intros H. apply Z.mod_small. lia.
Qed.

(** While the number of elements fits an [int], the requests to [malloc]
    are the mathematical products. *)
Lemma rows_bytes_small dimx :
  (0 <= dimx <= CInt.INT_MAX)%Z -> rows_bytes dimx = (8 * dimx)%Z.
Proof.
  unfold CInt.INT_MAX. intros H. unfold rows_bytes, CSize.mul, CSize.of_int.
  rewrite (CSize_wrap_small dimx) by (unfold CSize.SIZE_MAX; lia).
  rewrite CSize_wrap_small by (unfold CSize.SIZE_MAX; lia). lia.
Qed.

Lemma block_bytes_small dimx dimy size :
  (0 <= dimx)%Z -> (0 <= dimy)%Z -> (dimx * dimy <= CInt.INT_MAX)%Z ->
  (0 <= size <= 8)%Z ->
  block_bytes dimx dimy size = (size * (dimx * dimy))%Z.
Proof.
  unfold CInt.INT_MAX. intros Hx Hy H Hs.
  unfold block_bytes, CSize.mul, CSize.of_int, CInt.mul.
  assert (0 <= dimy * dimx <= 2147483647)%Z by nia.
  rewrite wrap_small
    by (unfold CInt.in_range, CInt.INT_MIN, CInt.INT_MAX; lia).
  rewrite (CSize_wrap_small (dimy * dimx)) by (unfold CSize.SIZE_MAX; lia).
  rewrite CSize_wrap_small by (unfold CSize.SIZE_MAX; nia). lia.
Qed.

Lemma block_length_small dimx dimy size :
  (Z.of_nat dimx * Z.of_nat dimy <= CInt.INT_MAX)%Z -> (1 <= size <= 8)%Z ->
  block_length dimx dimy size = dimx * dimy.
Proof.
  intros H Hs. unfold block_length.
  rewrite block_bytes_small by lia.
  rewrite Z.mul_comm, Z.div_mul by lia. lia.
Qed.

Lemma row_offset_small dimy x y :
  (Z.of_nat (x * dimy) <= CInt.INT_MAX)%Z ->
  (row_offset (Z.of_nat dimy) (Z.of_nat x) + Z.of_nat y)%Z
  = Z.of_nat (idx dimy x y).
Proof.
  intros H. unfold row_offset, idx, CInt.mul.
  rewrite wrap_small
    by (unfold CInt.in_range, CInt.INT_MIN, CInt.INT_MAX in *; lia).
  lia.
Qed.

Section Tiles.
Variables (tp : Topology) (inp : Input).
Hypothesis Hv : valid_input tp inp.

Lemma Setup_Grid_geometry r :
  r < P_grid_X tp * P_grid_Y tp ->
  let t := Setup_Grid tp inp r in
  let cx := Z.of_nat (Cart_coords tp r).1 in
  let cy := Z.of_nat (Cart_coords tp r).2 in
  let px := Z.of_nat (P_grid_X tp) in
  let py := Z.of_nat (P_grid_Y tp) in
  (0 <= cx < px)%Z /\ (0 <= cy < py)%Z /\
  offset_X t = (nx inp * cx / px)%Z /\
  offset_Y t = (ny inp * cy / py)%Z /\
  Z.of_nat (dim_X t) = (nx inp * (cx + 1) / px - nx inp * cx / px + 2)%Z /\
  Z.of_nat (dim_Y t) = (ny inp * (cy + 1) / py - ny inp * cy / py + 2)%Z /\
  dim_X t = tile_dim_X tp inp (Cart_coords tp r).1 /\
  dim_Y t = tile_dim_Y tp inp (Cart_coords tp r).2 /\
  length (phi t) = dim_X t * dim_Y t /\
  length (source t) = dim_X t * dim_Y t.
Proof using Hv.
  intros Hr t cx cy px py. destruct Hv as [Hnx Hny HPx HPy Hfx Hfy Hsum Hblk].
  destruct (coords_bound tp r Hr) as [Hcx Hcy].
  assert (Hdx : (nx inp + 2 <= CInt.INT_MAX)%Z) by lia.
  assert (Hdy : (ny inp + 2 <= CInt.INT_MAX)%Z) by lia.
  assert (Hcx' : (0 <= cx < px)%Z) by (unfold cx, px; lia).
  assert (Hcy' : (0 <= cy < py)%Z) by (unfold cy, py; lia).
  pose proof (Setup_Grid_dim_floor (nx inp) px Hnx HPx Hfx Hdx cx Hcx') as Dx.
  pose proof (Setup_Grid_dim_floor (ny inp) py Hny HPy Hfy Hdy cy Hcy') as Dy.
  pose proof (floor_mono (nx inp) px Hnx HPx cx (cx + 1) ltac:(lia)).
  pose proof (floor_mono (ny inp) py Hny HPy cy (cy + 1) ltac:(lia)).
  subst t. unfold Setup_Grid.
  destruct (Cart_coords tp r) as [c1 c2] eqn:Ec. cbn [fst snd] in *.
  fold px py. fold cx cy. cbv zeta.
  match goal with |- context [foldl ?f ?t0 ?l] =>
    destruct (source_records_shape (nx inp) (ny inp) l t0)
      as (-> & -> & -> & -> & -> & -> & _)
  end.
  unfold blank_tile. cbn [dim_X dim_Y offset_X offset_Y phi source].
  rewrite !length_replicate. unfold tile_dim_X, tile_dim_Y. fold px py cx cy.
  rewrite !offset_floor by lia. rewrite Dx, Dy.
  pose proof (upper_le_n (nx inp) px Hnx HPx cx Hcx') as [? ?].
  pose proof (upper_le_n (ny inp) py Hny HPy cy Hcy') as [? ?].
  rewrite !block_length_small
    by first [lia | rewrite !Z2Nat.id by lia; nia].
  repeat split; try lia.
Qed.

Lemma Setup_Grid_lookup r :
  r < P_grid_X tp * P_grid_Y tp ->
  processes tp inp !! r = Some (Setup_Grid tp inp r).
Proof using Type.
  intros Hr. unfold processes. rewrite list_lookup_fmap.
  rewrite lookup_seq_lt by done. done.
Qed.

Lemma Setup_Grid_lookup_inv r t :
  processes tp inp !! r = Some t ->
  r < P_grid_X tp * P_grid_Y tp /\ t = Setup_Grid tp inp r.
Proof using Type.
  unfold processes. rewrite list_lookup_fmap. intros H.
  destruct (seq 0 _ !! r) as [k|] eqn:E; [|done].
  apply lookup_seq in E as [-> E]. cbn in H. split; [done|]. by injection H as <-.
Qed.

End Tiles.

Lemma load_int_replicate_zero n i : load_int (replicate n 0%Z) i = 0%Z.
Proof.
  unfold load_int. destruct (replicate n 0%Z !! i) eqn:E; [|done].
  by apply lookup_replicate in E as [-> _].
Qed.

Lemma floor_unique n P c c' g :
  (1 <= n)%Z -> (1 <= P)%Z -> (0 <= c < P)%Z -> (0 <= c' < P)%Z ->
  (n * c / P <= g < n * (c + 1) / P)%Z ->
  (n * c' / P <= g < n * (c' + 1) / P)%Z -> c = c'.
Proof.
  intros Hn HP Hc Hc' H1 H2.
  destruct (Z.lt_trichotomy c c') as [Hlt | [-> | Hlt]]; [exfalso | done | exfalso].
  - pose proof (floor_mono n P Hn HP (c + 1) c' ltac:(lia)). lia.
  - pose proof (floor_mono n P Hn HP (c' + 1) c ltac:(lia)). lia.
Qed.

Section Tiling.
Variables (tp : Topology) (inp : Input).
Hypothesis Hv : valid_input tp inp.

Lemma tile_interior_global r x y :
  r < P_grid_X tp * P_grid_Y tp ->
  let t := Setup_Grid tp inp r in
  let cx := Z.of_nat (Cart_coords tp r).1 in
  let cy := Z.of_nat (Cart_coords tp r).2 in
  let px := Z.of_nat (P_grid_X tp) in
  let py := Z.of_nat (P_grid_Y tp) in
  x < dim_X t -> y < dim_Y t ->
  (interior t x y = true <->
   (nx inp * cx / px <= (global_cell t x y).1 < nx inp * (cx + 1) / px)%Z /\
   (ny inp * cy / py <= (global_cell t x y).2 < ny inp * (cy + 1) / py)%Z).
Proof using Hv.
  intros Hr t cx cy px py Hx Hy.
  destruct (Setup_Grid_geometry tp inp Hv r Hr)
    as (Hcx & Hcy & HoX & HoY & HdX & HdY & _).
  fold t cx cy px py in Hcx, Hcy, HoX, HoY, HdX, HdY.
  unfold global_cell. cbn [fst snd]. rewrite HoX, HoY. unfold interior.
  split.
  - intros H. repeat (apply andb_prop in H as [H ?]).
    apply Nat.leb_le in H. apply Nat.ltb_lt in H2. apply Nat.leb_le in H1.
    apply Nat.ltb_lt in H0. lia.
  - intros [H1 H2].
    repeat (apply andb_true_intro; split);
      first [apply Nat.leb_le | apply Nat.ltb_lt]; lia.
Qed.

Lemma tiles_cover gx gy :
  (0 <= gx < nx inp)%Z -> (0 <= gy < ny inp)%Z ->
  exists r x y, r < P_grid_X tp * P_grid_Y tp /\
    interior (Setup_Grid tp inp r) x y = true /\
    global_cell (Setup_Grid tp inp r) x y = (gx, gy).
Proof using Hv.
  intros Hgx Hgy. destruct Hv as [Hnx Hny HPx HPy Hfx Hfy Hsum Hblk].
  destruct (owner_exists (nx inp) _ Hnx HPx gx Hgx) as [Hcx Hox].
  destruct (owner_exists (ny inp) _ Hny HPy gy Hgy) as [Hcy Hoy].
  set (cx := (((gx + 1) * Z.of_nat (P_grid_X tp) - 1) / nx inp)%Z) in *.
  set (cy := (((gy + 1) * Z.of_nat (P_grid_Y tp) - 1) / ny inp)%Z) in *.
  clearbody cx cy.
  set (r := Cart_rank tp (Z.to_nat cx) (Z.to_nat cy)).
  assert (Hr : r < P_grid_X tp * P_grid_Y tp) by (unfold r, Cart_rank; nia).
  assert (Ec : Cart_coords tp r = (Z.to_nat cx, Z.to_nat cy))
    by (apply Cart_coords_rank; lia).
  destruct (Setup_Grid_geometry tp inp Hv r Hr)
    as (_ & _ & HoX & HoY & HdX & HdY & _).
  rewrite Ec in HoX, HoY, HdX, HdY. cbn [fst snd] in *.
  assert (Ex : Z.of_nat (Z.to_nat cx) = cx) by lia.
  assert (Ey : Z.of_nat (Z.to_nat cy) = cy) by lia.
  rewrite Ex in HoX, HdX. rewrite Ey in HoY, HdY.
  set (t := Setup_Grid tp inp r) in *.
  exists r, (Z.to_nat (gx + 1 - offset_X t)), (Z.to_nat (gy + 1 - offset_Y t)).
  split; [done|]. fold t. split.
  - unfold interior.
    repeat (apply andb_true_intro; split);
      first [apply Nat.leb_le | apply Nat.ltb_lt]; lia.
  - unfold global_cell. f_equal; lia.
Qed.

Lemma tiles_disjoint r r' x y x' y' :
  r < P_grid_X tp * P_grid_Y tp -> r' < P_grid_X tp * P_grid_Y tp ->
  interior (Setup_Grid tp inp r) x y = true ->
  interior (Setup_Grid tp inp r') x' y' = true ->
  global_cell (Setup_Grid tp inp r) x y = global_cell (Setup_Grid tp inp r') x' y' ->
  r = r' /\ x = x' /\ y = y'.
Proof using Hv.
  intros Hr Hr' HI HI' Hg.
  pose proof (interior_bounds _ _ _ HI) as HB.
  pose proof (interior_bounds _ _ _ HI') as HB'.
  apply tile_interior_global in HI as [H1 H2]; [|done|lia..].
  apply tile_interior_global in HI' as [H1' H2']; [|done|lia..].
  rewrite <- Hg in H1', H2'.
  destruct (Setup_Grid_geometry tp inp Hv r Hr) as (Hcx & Hcy & _).
  destruct (Setup_Grid_geometry tp inp Hv r' Hr') as (Hcx' & Hcy' & _).
  destruct Hv as [Hnx Hny HPx HPy Hfx Hfy Hsum Hblk].
  pose proof (floor_unique _ _ _ _ _ Hnx HPx Hcx Hcx' H1 H1') as Ex.
  pose proof (floor_unique _ _ _ _ _ Hny HPy Hcy Hcy' H2 H2') as Ey.
  assert (r = r') as <-.
  { destruct (Cart_rank_coords tp r ltac:(lia)) as [<- _].
    destruct (Cart_rank_coords tp r' ltac:(lia)) as [<- _].
    f_equal; lia. }
  split; [done|]. by apply global_cell_inj in Hg.
Qed.

Lemma tiles_in_grid r x y :
  r < P_grid_X tp * P_grid_Y tp ->
  interior (Setup_Grid tp inp r) x y = true ->
  (0 <= (global_cell (Setup_Grid tp inp r) x y).1 < nx inp)%Z /\
  (0 <= (global_cell (Setup_Grid tp inp r) x y).2 < ny inp)%Z.
Proof using Hv.
  intros Hr HI. pose proof (interior_bounds _ _ _ HI) as HB.
  apply tile_interior_global in HI as [H1 H2]; [|done|lia..].
  destruct (Setup_Grid_geometry tp inp Hv r Hr) as (Hcx & Hcy & _).
  destruct Hv as [Hnx Hny HPx HPy Hfx Hfy Hsum Hblk].
  pose proof (upper_le_n (nx inp) _ Hnx HPx _ Hcx).
  pose proof (upper_le_n (ny inp) _ Hny HPy _ Hcy). lia.
Qed.

End Tiling.

(** X1.  Setup_Grid balances the tiles.  Along an axis of [n] cells cut
    over [P] processes (no overflow in the [int] arithmetic), the interior
    width of every tile, [dim - 2], is [upper_offset - offset] and is
    either [n / P] or [n / P + 1]; it is exactly [n / P] when [P] divides
    [n]; every tile has at least one interior cell when [P <= n]; and when
    there are more processes than cells the first process gets none
    ([dim = 2], halo only). *)
Theorem Setup_Grid_balanced (n P c : Z) :
  (1 <= n)%Z -> (1 <= P)%Z -> (n * P <= CInt.INT_MAX)%Z ->
  (n + 2 <= CInt.INT_MAX)%Z -> (0 <= c < P)%Z ->
  let width := (Setup_Grid_dim n c P - 2)%Z in
  width = (Setup_Grid_upper_offset n c P - Setup_Grid_offset n c P)%Z /\
  (n / P <= width <= n / P + 1)%Z /\
  (n mod P = 0 -> width = n / P)%Z /\
  (P <= n -> 1 <= width)%Z /\
  (n < P -> Setup_Grid_dim n 0 P = 2)%Z.
Proof.
  intros Hn HP Hfit Hdim Hc width. subst width.
  rewrite Setup_Grid_dim_floor, upper_offset_floor, offset_floor by lia.
  pose proof (width_bounds n P Hn HP c Hc) as Hw.
  split; [lia|]. split; [lia|]. split; [|split].
  - intros Hm. apply Z.mod_divide in Hm as [q ->]; [|lia].
    rewrite Z.div_mul by lia.
    replace (q * P * (c + 1))%Z with (q * (c + 1) * P)%Z by lia.
    replace (q * P * c)%Z with (q * c * P)%Z by lia.
    rewrite !Z.div_mul by lia. lia.
  - intros HPn. assert (1 <= n / P)%Z by (apply Z.div_le_lower_bound; lia). lia.
  - intros HnP. rewrite Setup_Grid_dim_floor by lia.
    rewrite Z.mul_0_r, Z.div_0_l by lia. cbn [Z.add]. rewrite Z.mul_1_r.
    rewrite Z.div_small by lia. done.
Qed.

Lemma Setup_Grid_balanced_witness :
  let width := (Setup_Grid_dim 10 1 3 - 2)%Z in
  (3 <= width <= 4)%Z.
Proof.
  assert (H1 : (1 <= 10)%Z) by lia.
  assert (H2 : (1 <= 3)%Z) by lia.
  assert (H3 : (10 * 3 <= CInt.INT_MAX)%Z) by (unfold CInt.INT_MAX; lia).
  assert (H4 : (10 + 2 <= CInt.INT_MAX)%Z) by (unfold CInt.INT_MAX; lia).
  assert (H5 : (0 <= 1 < 3)%Z) by lia.
  exact (proj1 (proj2 (Setup_Grid_balanced 10 3 1 H1 H2 H3 H4 H5))).
Defined.

Lemma processes_ok (tp : Topology) (inp : Input) :
  valid_input tp inp ->
  Forall tile_ok (processes tp inp) /\
  grid_ok tp Phi (tile_dim_X tp inp) (tile_dim_Y tp inp) (processes tp inp).
Proof.
  intros Hv. split.
  - apply Forall_lookup. intros r t [Hr ->]%Setup_Grid_lookup_inv.
    destruct (Setup_Grid_geometry tp inp Hv r Hr)
      as (Hcx & Hcy & HoX & HoY & HdX & HdY & _ & _ & Hp & Hs).
    destruct Hv as [Hnx Hny HPx HPy Hfx Hfy Hsum Hblk].
    pose proof (upper_le_n (nx inp) _ Hnx HPx _ Hcx).
    pose proof (upper_le_n (ny inp) _ Hny HPy _ Hcy).
    pose proof (floor_mono (nx inp) _ Hnx HPx (Z.of_nat (Cart_coords tp r).1) (Z.of_nat (Cart_coords tp r).1 + 1)
                  ltac:(lia)).
    pose proof (floor_mono (ny inp) _ Hny HPy (Z.of_nat (Cart_coords tp r).2) (Z.of_nat (Cart_coords tp r).2 + 1)
                  ltac:(lia)).
    split; try done; lia.
  - split.
    + unfold processes. by rewrite length_fmap, length_seq.
    + intros r t [Hr ->]%Setup_Grid_lookup_inv.
      by destruct (Setup_Grid_geometry tp inp Hv r Hr) as (_&_&_&_&_&_&?&_).
    + intros r t [Hr ->]%Setup_Grid_lookup_inv.
      by destruct (Setup_Grid_geometry tp inp Hv r Hr) as (_&_&_&_&_&_&_&?&_).
    + intros r t [Hr ->]%Setup_Grid_lookup_inv.
      destruct (Setup_Grid_geometry tp inp Hv r Hr)
        as (Hcx & Hcy & HoX & HoY & HdX & HdY & _).
      destruct Hv as [Hnx Hny HPx HPy Hfx Hfy Hsum Hblk].
      pose proof (floor_mono (nx inp) _ Hnx HPx (Z.of_nat (Cart_coords tp r).1) (Z.of_nat (Cart_coords tp r).1 + 1)
                    ltac:(lia)).
      pose proof (floor_mono (ny inp) _ Hny HPy (Z.of_nat (Cart_coords tp r).2) (Z.of_nat (Cart_coords tp r).2 + 1)
                    ltac:(lia)).
      lia.
    + intros r t [Hr ->]%Setup_Grid_lookup_inv.
      by destruct (Setup_Grid_geometry tp inp Hv r Hr) as (_&_&_&_&_&_&_&_&?&_).
Qed.

(** Setup_Grid exits, or it returns the tile [Setup_Grid] describes. *)
Lemma Setup_Grid_run_cases malloc tp inp r :
  Setup_Grid_run malloc tp inp r = Returns (Setup_Grid tp inp r) \/
  exists mesg, Setup_Grid_run malloc tp inp r = Exits mesg.
Proof.
  unfold Setup_Grid_run. destruct (Cart_coords tp r) as [cx cy].
  repeat match goal with
         | |- context [negb ?b] => destruct b; cbn [negb]
         end; eauto.
Qed.

(** The calls of [malloc] in Setup_Grid on valid input: the bytes asked
    for are the products without wrap-around, and the process exits at
    the first call that fails. *)
Lemma Setup_Grid_run_spec malloc tp inp r :
  valid_input tp inp -> r < P_grid_X tp * P_grid_Y tp ->
  let t := Setup_Grid tp inp r in
  let bytes := [(8 * Z.of_nat (dim_X t))%Z; (8 * Z.of_nat (dim_X t))%Z;
                (8 * (Z.of_nat (dim_X t) * Z.of_nat (dim_Y t)))%Z;
                (4 * (Z.of_nat (dim_X t) * Z.of_nat (dim_Y t)))%Z] in
  let mesgs := [malloc_phi_failed; malloc_source_failed;
                malloc_phi_block_failed; malloc_source_block_failed] in
  (Z.of_nat (dim_X t) * Z.of_nat (dim_Y t) <= CInt.INT_MAX)%Z /\
  match Setup_Grid_run malloc tp inp r with
  | Returns t' =>
      t' = t /\ forall i b, bytes !! i = Some b -> malloc i b = true
  | Exits mesg =>
      exists i b,
        bytes !! i = Some b /\ mesgs !! i = Some mesg /\
        malloc i b = false /\
        forall j b', j < i -> bytes !! j = Some b' -> malloc j b' = true
  end.
Proof.
  intros Hv Hr t bytes mesgs.
  destruct (Setup_Grid_geometry tp inp Hv r Hr)
    as (Hcx & Hcy & HoX & HoY & HdX & HdY & _).
  fold t in HoX, HoY, HdX, HdY.
  pose proof Hv as [Hnx Hny HPx HPy Hfx Hfy Hsum Hblk].
  pose proof (upper_le_n (nx inp) _ Hnx HPx _ Hcx) as [? ?].
  pose proof (upper_le_n (ny inp) _ Hny HPy _ Hcy) as [? ?].
  pose proof (floor_mono (nx inp) _ Hnx HPx (Z.of_nat (Cart_coords tp r).1)
                (Z.of_nat (Cart_coords tp r).1 + 1) ltac:(lia)).
  pose proof (floor_mono (ny inp) _ Hny HPy (Z.of_nat (Cart_coords tp r).2)
                (Z.of_nat (Cart_coords tp r).2 + 1) ltac:(lia)).
  assert (Hprod : (Z.of_nat (dim_X t) * Z.of_nat (dim_Y t)
                   <= CInt.INT_MAX)%Z) by nia.
  split; [exact Hprod|].
  assert (HDX : Setup_Grid_dim (nx inp) (Z.of_nat (Cart_coords tp r).1)
                  (Z.of_nat (P_grid_X tp)) = Z.of_nat (dim_X t)).
  { rewrite Setup_Grid_dim_floor by lia. lia. }
  assert (HDY : Setup_Grid_dim (ny inp) (Z.of_nat (Cart_coords tp r).2)
                  (Z.of_nat (P_grid_Y tp)) = Z.of_nat (dim_Y t)).
  { rewrite Setup_Grid_dim_floor by lia. lia. }
  unfold Setup_Grid_run. fold t.
  destruct (Cart_coords tp r) as [cx cy]. cbn [fst snd] in HDX, HDY.
  rewrite HDX, HDY.
  rewrite !rows_bytes_small by (unfold CInt.INT_MAX in *; nia).
  rewrite !block_bytes_small by lia.
  clearbody t. clear -Hprod.
  set (b0 := (8 * Z.of_nat (dim_X t))%Z) in *.
  set (b2 := (8 * (Z.of_nat (dim_X t) * Z.of_nat (dim_Y t)))%Z) in *.
  set (b3 := (4 * (Z.of_nat (dim_X t) * Z.of_nat (dim_Y t)))%Z) in *.
  subst bytes mesgs.
  assert (Hbefore : forall i,
            (forall j, j < i ->
               malloc j (default 0%Z ([b0; b0; b2; b3] !! j)) = true) ->
            forall j b', j < i -> [b0; b0; b2; b3] !! j = Some b' ->
                         malloc j b' = true).
  { intros i H j b' Hj Hb. specialize (H j Hj). by rewrite Hb in H. }
  destruct (malloc 0 b0) eqn:M0; cbn [negb].
  2:{ exists 0, b0. split; [done|]. split; [done|]. split; [done|].
      apply Hbefore. intros j Hj. lia. }
  destruct (malloc 1 b0) eqn:M1; cbn [negb].
  2:{ exists 1, b0. split; [done|]. split; [done|]. split; [done|].
      apply Hbefore. intros [|j] Hj; [done | lia]. }
  destruct (malloc 2 b2) eqn:M2; cbn [negb].
  2:{ exists 2, b2. split; [done|]. split; [done|]. split; [done|].
      apply Hbefore. intros [|[|j]] Hj; [done | done | lia]. }
  destruct (malloc 3 b3) eqn:M3; cbn [negb].
  2:{ exists 3, b3. split; [done|]. split; [done|]. split; [done|].
      apply Hbefore. intros [|[|[|j]]] Hj; [done | done | done | lia]. }
  split; [done|].
  intros i b Hb. apply (Hbefore 4 ltac:(by intros [|[|[|[|j]]]] Hj; [| | | |lia]) i b);
    [|done].
  apply lookup_lt_Some in Hb. cbn in Hb. lia.
Qed.

(** X2.  For an input whose sizes do not overflow, every tile Setup_Grid
    builds satisfies the data model ([tile_ok]: both extents include the
    halo, [phi] and [source] have [dim[X_DIR] * dim[Y_DIR]] elements, the
    offsets are not negative), the tiles fit together for the exchange of
    [phi] ([grid_ok]: one tile per rank, equal extents along a row and
    along a column of processes), and the offsets and extents of the tile
    of each rank are those of the axis formulas at its Cartesian
    coordinates.  The number of elements of a tile fits an [int], and the
    row offset the program computes in [int] for a cell of the tile is
    the position of the cell in the block, inside the block.  Of the four
    calls of [malloc], which ask for [8 * dim[X_DIR]] bytes twice and for
    [8 * dim[X_DIR] * dim[Y_DIR]] and [4 * dim[X_DIR] * dim[Y_DIR]] bytes,
    the first that fails ends the process with its message; when none
    fails Setup_Grid returns that tile. *)
Theorem Setup_Grid_well_formed (tp : Topology) (inp : Input) :
  valid_input tp inp ->
  Forall tile_ok (processes tp inp) /\
  grid_ok tp Phi (tile_dim_X tp inp) (tile_dim_Y tp inp) (processes tp inp) /\
  forall r t, processes tp inp !! r = Some t ->
    let cx := Z.of_nat (Cart_coords tp r).1 in
    let cy := Z.of_nat (Cart_coords tp r).2 in
    let px := Z.of_nat (P_grid_X tp) in
    let py := Z.of_nat (P_grid_Y tp) in
    let bytes := [(8 * Z.of_nat (dim_X t))%Z; (8 * Z.of_nat (dim_X t))%Z;
                  (8 * (Z.of_nat (dim_X t) * Z.of_nat (dim_Y t)))%Z;
                  (4 * (Z.of_nat (dim_X t) * Z.of_nat (dim_Y t)))%Z] in
    let mesgs := [malloc_phi_failed; malloc_source_failed;
                  malloc_phi_block_failed; malloc_source_block_failed] in
    t = Setup_Grid tp inp r /\
    offset_X t = Setup_Grid_offset (nx inp) cx px /\
    offset_Y t = Setup_Grid_offset (ny inp) cy py /\
    Z.of_nat (dim_X t) = Setup_Grid_dim (nx inp) cx px /\
    Z.of_nat (dim_Y t) = Setup_Grid_dim (ny inp) cy py /\
    (Z.of_nat (dim_X t) * Z.of_nat (dim_Y t) <= CInt.INT_MAX)%Z /\
    (forall x y, x < dim_X t -> y < dim_Y t ->
       (row_offset (Z.of_nat (dim_Y t)) (Z.of_nat x) + Z.of_nat y)%Z
       = Z.of_nat (idx (dim_Y t) x y) /\
       idx (dim_Y t) x y < length (phi t) /\
       idx (dim_Y t) x y < length (source t)) /\
    forall malloc,
      match Setup_Grid_run malloc tp inp r with
      | Returns t' =>
          t' = t /\ forall i b, bytes !! i = Some b -> malloc i b = true
      | Exits mesg =>
          exists i b,
            bytes !! i = Some b /\ mesgs !! i = Some mesg /\
            malloc i b = false /\
            forall j b', j < i -> bytes !! j = Some b' -> malloc j b' = true
      end.
Proof.
  intros Hv. destruct (processes_ok tp inp Hv) as [H1 H2].
  split; [done|]. split; [done|].
  intros r t [Hr ->]%Setup_Grid_lookup_inv cx cy px py bytes mesgs.
  split; [done|].
  destruct (Setup_Grid_geometry tp inp Hv r Hr)
    as (Hcx & Hcy & HoX & HoY & HdX & HdY & _ & _ & Hlp & Hls).
  fold cx cy px py in Hcx, Hcy, HoX, HoY, HdX, HdY.
  pose proof (Setup_Grid_run_spec (fun _ _ => true) tp inp r Hv Hr)
    as [Hprod _].
  pose proof Hv as [Hnx Hny HPx HPy Hfx Hfy Hsum Hblk].
  rewrite !offset_floor by (fold px py; lia).
  rewrite !Setup_Grid_dim_floor by (fold px py; lia).
  split; [done|]. split; [done|]. split; [done|]. split; [done|].
  split; [exact Hprod|]. split.
  - intros x y Hx Hy. rewrite Hlp, Hls.
    split; [|split; apply idx_lt; lia].
    apply row_offset_small. nia.
  - intros malloc.
    exact (proj2 (Setup_Grid_run_spec malloc tp inp r Hv Hr)).
Qed.

Lemma small_valid_input : valid_input quad small_input.
Proof. split; cbn; unfold CInt.INT_MAX; lia. Qed.

Lemma Setup_Grid_well_formed_witness :
  valid_input quad small_input /\
  Forall tile_ok (processes quad small_input) /\
  Setup_Grid_run (fun _ _ => true) quad small_input 1
  = Returns (Setup_Grid quad small_input 1) /\
  Setup_Grid_run (fun _ bytes => (bytes <=? 100)%Z) quad small_input 1
  = Exits malloc_phi_block_failed.
Proof.
  split; [exact small_valid_input|].
  split; [exact (proj1 (Setup_Grid_well_formed _ _ small_valid_input))|].
  split; vm_compute; reflexivity.
Defined.

(** X20.  Tiles of processes that are adjacent in the process grid are
    adjacent in the global grid: along the common edge they have the
    same offset and extent, across it the interior of one begins where
    the interior of the other ends, and the halo cell of the one and the
    cell of the interior boundary line of the other that an exchange
    copies into it are the same cell of the global grid. *)
Theorem Setup_Grid_tiles_adjacent tp inp a b n :
  valid_input tp inp -> a < P_grid_X tp * P_grid_Y tp ->
  adjacent tp a b n ->
  let A := Setup_Grid tp inp a in
  let B := Setup_Grid tp inp b in
  match n with
  | proc_top =>
      offset_X B = offset_X A /\ dim_X B = dim_X A /\
      (offset_Y B + (Z.of_nat (dim_Y B) - 2) = offset_Y A)%Z
  | proc_bottom =>
      offset_X B = offset_X A /\ dim_X B = dim_X A /\
      (offset_Y A + (Z.of_nat (dim_Y A) - 2) = offset_Y B)%Z
  | proc_left =>
      offset_Y B = offset_Y A /\ dim_Y B = dim_Y A /\
      (offset_X B + (Z.of_nat (dim_X B) - 2) = offset_X A)%Z
  | proc_right =>
      offset_Y B = offset_Y A /\ dim_Y B = dim_Y A /\
      (offset_X A + (Z.of_nat (dim_X A) - 2) = offset_X B)%Z
  end /\
  forall k,
    global_cell A (halo_cell A n k).1 (halo_cell A n k).2
    = global_cell B (border_cell B (opposite n) k).1
                    (border_cell B (opposite n) k).2.
Proof.
  intros Hv Ha [Hb Hadj] A B.
  destruct (Setup_Grid_geometry tp inp Hv a Ha)
    as (Hax & Hay & AoX & AoY & AdX & AdY & _).
  destruct (Setup_Grid_geometry tp inp Hv b Hb)
    as (Hbx & Hby & BoX & BoY & BdX & BdY & _).
  fold A in AoX, AoY, AdX, AdY. fold B in BoX, BoY, BdX, BdY.
  destruct Hv as [Hnx Hny HPx HPy Hfx Hfy Hsum Hblk].
  pose proof (floor_mono (nx inp) _ Hnx HPx (Z.of_nat (Cart_coords tp a).1)
                (Z.of_nat (Cart_coords tp a).1 + 1) ltac:(lia)).
  pose proof (floor_mono (ny inp) _ Hny HPy (Z.of_nat (Cart_coords tp a).2)
                (Z.of_nat (Cart_coords tp a).2 + 1) ltac:(lia)).
  pose proof (floor_mono (nx inp) _ Hnx HPx (Z.of_nat (Cart_coords tp b).1)
                (Z.of_nat (Cart_coords tp b).1 + 1) ltac:(lia)).
  pose proof (floor_mono (ny inp) _ Hny HPy (Z.of_nat (Cart_coords tp b).2)
                (Z.of_nat (Cart_coords tp b).2 + 1) ltac:(lia)).
  clearbody A B.
  destruct (Cart_coords tp a) as [ax ay], (Cart_coords tp b) as [bx by_].
  cbn [fst snd] in *.
  unfold global_cell, halo_cell, border_cell, opposite.
  destruct n; destruct Hadj as [E1 E2]; subst; cbn [fst snd].
  - replace (Z.of_nat by_ + 1)%Z with (Z.of_nat (by_ + 1)) in * by lia.
    split; [lia|]. intros k. f_equal; lia.
  - replace (Z.of_nat ax + 1)%Z with (Z.of_nat (ax + 1)) in * by lia.
    split; [lia|]. intros k. f_equal; lia.
  - replace (Z.of_nat ay + 1)%Z with (Z.of_nat (ay + 1)) in * by lia.
    split; [lia|]. intros k. f_equal; lia.
  - replace (Z.of_nat bx + 1)%Z with (Z.of_nat (bx + 1)) in * by lia.
    split; [lia|]. intros k. f_equal; lia.
Qed.

Lemma Setup_Grid_tiles_adjacent_witness :
  let A := Setup_Grid quad small_input 1 in
  let B := Setup_Grid quad small_input 0 in
  valid_input quad small_input /\ 1 < P_grid_X quad * P_grid_Y quad /\
  adjacent quad 1 0 proc_top /\
  (offset_X B = offset_X A /\ dim_X B = dim_X A /\
   (offset_Y B + (Z.of_nat (dim_Y B) - 2) = offset_Y A)%Z) /\
  global_cell A 1 0 = (0, 1)%Z /\ global_cell B 1 2 = (0, 1)%Z.
Proof.
  cbv zeta.
  assert (H1 : 1 < P_grid_X quad * P_grid_Y quad) by (vm_compute; lia).
  assert (H2 : adjacent quad 1 0 proc_top)
    by (split; [vm_compute; lia | split; reflexivity]).
  split; [exact small_valid_input|]. split; [exact H1|]. split; [exact H2|].
  split; [exact (proj1 (Setup_Grid_tiles_adjacent quad small_input 1 0
                          proc_top small_valid_input H1 H2))|].
  split; vm_compute; reflexivity.
Defined.

(** The tile of a process is the blank tile of its extents with the
    [source:] records placed one after the other. *)
Lemma Setup_Grid_blank (tp : Topology) (inp : Input) (r : nat) :
  valid_input tp inp -> r < P_grid_X tp * P_grid_Y tp ->
  exists t0,
    Setup_Grid tp inp r
    = foldl (Setup_Grid_source (nx inp) (ny inp)) t0 (sources inp) /\
    geometry (Setup_Grid tp inp r) = geometry t0 /\
    (0 <= offset_X t0)%Z /\ (0 <= offset_Y t0)%Z /\
    2 <= dim_X t0 /\ 2 <= dim_Y t0 /\
    (offset_X t0 + Z.of_nat (dim_X t0) <= CInt.INT_MAX)%Z /\
    (offset_Y t0 + Z.of_nat (dim_Y t0) <= CInt.INT_MAX)%Z /\
    length (phi t0) = dim_X t0 * dim_Y t0 /\
    length (source t0) = dim_X t0 * dim_Y t0 /\
    (forall i, load_int (source t0) i = 0%Z) /\
    (forall i, load (phi t0) i = 0%float).
Proof.
  intros Hv Hr.
  destruct (Setup_Grid_geometry tp inp Hv r Hr)
    as (Hcx & Hcy & HoX & HoY & HdX & HdY & _ & _ & Hlp & Hls).
  assert (Hsh : exists t0,
            Setup_Grid tp inp r
            = foldl (Setup_Grid_source (nx inp) (ny inp)) t0 (sources inp) /\
            (forall i, load_int (source t0) i = 0%Z) /\
            (forall i, load (phi t0) i = 0%float)).
  { unfold Setup_Grid. destruct (Cart_coords tp r) as [c1 c2].
    eexists. split; [reflexivity|]. unfold blank_tile.
    cbn [source phi dim_X dim_Y].
    split; [intros; apply load_int_replicate_zero|].
    intros; apply load_replicate_zero. }
  destruct Hsh as (t0 & Et & Hs0 & Hp0).
  destruct (source_records_shape (nx inp) (ny inp) (sources inp) t0)
    as (EdX & EdY & EoX & EoY & Elp & Els & _).
  rewrite <- Et in EdX, EdY, EoX, EoY, Elp, Els.
  rewrite Elp, EdX, EdY in Hlp. rewrite Els, EdX, EdY in Hls.
  destruct Hv as [Hnx Hny HPx HPy Hfx Hfy Hsum Hblk].
  pose proof (upper_le_n (nx inp) _ Hnx HPx _ Hcx).
  pose proof (upper_le_n (ny inp) _ Hny HPy _ Hcy).
  pose proof (floor_mono (nx inp) _ Hnx HPx (Z.of_nat (Cart_coords tp r).1)
                (Z.of_nat (Cart_coords tp r).1 + 1) ltac:(lia)).
  pose proof (floor_mono (ny inp) _ Hny HPy (Z.of_nat (Cart_coords tp r).2)
                (Z.of_nat (Cart_coords tp r).2 + 1) ltac:(lia)).
  exists t0. split; [done|].
  split; [unfold geometry; by rewrite EdX, EdY, EoX, EoY|].
  repeat split; try done; lia.
Qed.

Lemma geometry_interior t T x y :
  geometry t = geometry T ->
  interior t x y = interior T x y /\ global_cell t x y = global_cell T x y.
Proof.
  unfold geometry. intros [= HX HY HoX HoY].
  unfold interior, global_cell. by rewrite HX, HY, HoX, HoY.
Qed.

(** On the tile of a process: the cells that are marked as sources, and
    the value of the others. *)
Lemma Setup_Grid_cells (tp : Topology) (inp : Input) (r x y : nat) :
  valid_input tp inp -> r < P_grid_X tp * P_grid_Y tp ->
  let t := Setup_Grid tp inp r in
  x < dim_X t -> y < dim_Y t ->
  (not_fixed t x y = false <->
     interior t x y = true /\
     exists s, s ∈ sources inp /\
               source_cell (nx inp) (ny inp) s = global_cell t x y) /\
  (not_fixed t x y = true -> cell t (phi t) x y = 0%float).
Proof.
  intros Hv Hr t Hx Hy.
  destruct (Setup_Grid_blank tp inp r Hv Hr)
    as (t0 & Et & Hgeo & HoX & HoY & HdX & HdY & HfX & HfY & Hp & Hs & Hs0 & Hp0).
  fold t in Et, Hgeo. pose proof Hgeo as [= EX EY _ _].
  destruct (geometry_interior t t0 x y Hgeo) as [-> ->]. rewrite Et.
  destruct (sources_inv (nx inp) (ny inp) t0 (sources inp)
              HoX HoY HdX HdY HfX HfY Hp Hs Hs0 Hp0 x y) as (H1 & H2 & _);
    [lia..|].
  by split.
Qed.

(** X3.  Where Setup_Grid puts the sources.  On the tile of any process
    a cell is marked as a source exactly if it is an interior cell and
    some [source:] record of the input addresses its global cell; so halo
    cells are never marked, even where they overlap a source of the
    neighbouring tile.  Every cell that is not marked holds 0.0.  A marked
    cell holds the value of the last record that addresses it. *)
Theorem Setup_Grid_sources (tp : Topology) (inp : Input) (r x y : nat) :
  valid_input tp inp -> r < P_grid_X tp * P_grid_Y tp ->
  let t := Setup_Grid tp inp r in
  x < dim_X t -> y < dim_Y t ->
  (not_fixed t x y = false <->
     interior t x y = true /\
     exists s, s ∈ sources inp /\
               source_cell (nx inp) (ny inp) s = global_cell t x y) /\
  (not_fixed t x y = true -> cell t (phi t) x y = 0%float) /\
  (forall l1 s l2, sources inp = l1 ++ s :: l2 ->
     interior t x y = true ->
     source_cell (nx inp) (ny inp) s = global_cell t x y ->
     (forall s', s' ∈ l2 ->
                 source_cell (nx inp) (ny inp) s' <> global_cell t x y) ->
     cell t (phi t) x y = s.2).
Proof.
  intros Hv Hr t Hx Hy.
  destruct (Setup_Grid_blank tp inp r Hv Hr)
    as (t0 & Et & Hgeo & HoX & HoY & HdX & HdY & HfX & HfY & Hp & Hs & Hs0 & Hp0).
  fold t in Et, Hgeo. pose proof Hgeo as [= EX EY _ _].
  destruct (geometry_interior t t0 x y Hgeo) as [-> ->]. rewrite Et.
  apply (sources_inv (nx inp) (ny inp) t0 (sources inp)); try done; lia.
Qed.

Lemma Setup_Grid_sources_witness :
  let tp := mkTopology 2 2 in
  let t := Setup_Grid tp small_input 3 in
  valid_input tp small_input /\ 3 < P_grid_X tp * P_grid_Y tp /\
  1 < dim_X t /\ 1 < dim_Y t /\
  (not_fixed t 1 1 = false <->
     interior t 1 1 = true /\
     exists s, s ∈ sources small_input /\
               source_cell (nx small_input) (ny small_input) s
               = global_cell t 1 1).
Proof.
  cbv zeta.
  assert (H2 : 3 < P_grid_X quad * P_grid_Y quad)
    by (cbn; lia).
  assert (H3 : 1 < dim_X (Setup_Grid quad small_input 3))
    by (vm_compute; lia).
  assert (H4 : 1 < dim_Y (Setup_Grid quad small_input 3))
    by (vm_compute; lia).
  split; [exact small_valid_input|]. split; [exact H2|].
  split; [exact H3|]. split; [exact H4|].
  exact (proj1 (Setup_Grid_sources quad small_input 3 1 1
                  small_valid_input H2 H3 H4)).
Defined.

(** X4.  Every process filters the [source:] records on its own.  A
    record whose global cell (its coordinates multiplied by the grid size
    and truncated to [int]) lies inside the grid marks a cell on exactly
    one process, at the local position of that global cell, in the
    interior of the tile; for a record whose cell lies outside the grid
    no process marks a cell: the record is dropped without a message. *)
Theorem Setup_Grid_source_owner (tp : Topology) (inp : Input)
  (s : float * float * float) :
  valid_input tp inp -> s ∈ sources inp ->
  let g := source_cell (nx inp) (ny inp) s in
  let T := Setup_Grid tp inp in
  ((0 <= g.1 < nx inp)%Z /\ (0 <= g.2 < ny inp)%Z ->
   exists r x y,
     r < P_grid_X tp * P_grid_Y tp /\
     interior (T r) x y = true /\ global_cell (T r) x y = g /\
     not_fixed (T r) x y = false /\
     forall r' x' y',
       r' < P_grid_X tp * P_grid_Y tp ->
       x' < dim_X (T r') -> y' < dim_Y (T r') ->
       global_cell (T r') x' y' = g -> not_fixed (T r') x' y' = false ->
       r' = r /\ x' = x /\ y' = y) /\
  (~ ((0 <= g.1 < nx inp)%Z /\ (0 <= g.2 < ny inp)%Z) ->
   forall r x y,
     r < P_grid_X tp * P_grid_Y tp ->
     x < dim_X (T r) -> y < dim_Y (T r) ->
     global_cell (T r) x y = g -> not_fixed (T r) x y = true).
Proof.
  intros Hv Hs g T. split.
  - intros [Hg1 Hg2].
    destruct (tiles_cover tp inp Hv g.1 g.2 Hg1 Hg2) as (r & x & y & Hr & HI & HG).
    exists r, x, y. pose proof (interior_bounds _ _ _ HI) as HB.
    assert (HG' : global_cell (T r) x y = g) by (by destruct g).
    split; [done|]. split; [done|]. split; [done|]. split.
    + apply (Setup_Grid_cells tp inp r x y Hv Hr); [lia..|].
      split; [done|]. by exists s.
    + intros r' x' y' Hr' Hx' Hy' HG2 Hnf.
      apply (Setup_Grid_cells tp inp r' x' y' Hv Hr' Hx' Hy') in Hnf
        as [HI' _].
      apply (tiles_disjoint tp inp Hv r' r x' y' x y); try done.
      transitivity g; [exact HG2 | symmetry; exact HG'].
  - intros Hout r x y Hr Hx Hy HG.
    destruct (not_fixed (T r) x y) eqn:E; [done|]. exfalso. apply Hout.
    apply (Setup_Grid_cells tp inp r x y Hv Hr Hx Hy) in E as [HI _].
    destruct (tiles_in_grid tp inp Hv r x y Hr HI) as [H1 H2].
    change (Setup_Grid tp inp r) with (T r) in H1, H2. rewrite HG in H1, H2. done.
Qed.

Lemma Setup_Grid_source_owner_witness :
  let tp := mkTopology 2 2 in
  let s := (0.5, 0.5, 1)%float in
  let g := source_cell (nx small_input) (ny small_input) s in
  valid_input tp small_input /\ s ∈ sources small_input /\
  ((0 <= g.1 < nx small_input)%Z /\ (0 <= g.2 < ny small_input)%Z) /\
  exists r x y,
    r < P_grid_X tp * P_grid_Y tp /\
    interior (Setup_Grid tp small_input r) x y = true /\
    global_cell (Setup_Grid tp small_input r) x y = g.
Proof.
  cbv zeta.
  assert (Hs : (0.5, 0.5, 1)%float ∈ sources small_input)
    by (cbn; left).
  assert (Hg : (0 <= (source_cell (nx small_input) (ny small_input)
                        (0.5, 0.5, 1)%float).1 < nx small_input)%Z /\
               (0 <= (source_cell (nx small_input) (ny small_input)
                        (0.5, 0.5, 1)%float).2 < ny small_input)%Z)
    by (vm_compute; repeat split; congruence).
  split; [exact small_valid_input|]. split; [exact Hs|]. split; [exact Hg|].
  destruct (proj1 (Setup_Grid_source_owner quad small_input _
                     small_valid_input Hs) Hg)
    as (r & x & y & Hr & HI & HG & _).
  exists r, x, y. split; [exact Hr|]. split; [exact HI|exact HG].
Defined.

(** ** Exchange_Borders: pairing, frame and idempotence *)

Lemma opposite_involutive n : opposite (opposite n) = n.
Proof. by destruct n. Qed.

(** X5.  The sends and receives of Exchange_Borders pair up.  In each
    of the four calls, if process [a] sends to a neighbour [b] then [b]
    receives from [a] in that same call, with a datatype of as many
    elements as [a] sends and a receive line that fits its tile; and if
    [a] receives from [b] then [b] sends to [a] in that call.  No message
    is left unreceived and no process waits for one that is not sent. *)
Theorem Exchange_Borders_matched tp f dx dy w c a A b :
  grid_ok tp f dx dy w -> c ∈ Exchange_Borders_calls ->
  w !! a = Some A ->
  (neighbour tp a (dest c) = Some b ->
   exists B, w !! b = Some B /\ neighbour tp b (recvfrom c) = Some a /\
             count (border_type A (sendtype c))
             = count (border_type B (recvtype c)) /\
             line_fits B (recvtype c) (recvbuf c B)) /\
  (neighbour tp a (recvfrom c) = Some b ->
   exists B, w !! b = Some B /\ neighbour tp b (dest c) = Some a /\
             count (border_type B (sendtype c))
             = count (border_type A (recvtype c))).
Proof.
  intros Hok Hc HA.
  assert (a < P_grid_X tp * P_grid_Y tp) as Ha.
  { rewrite <- (grid_ranks _ _ _ _ _ Hok). by eapply lookup_lt_Some. }
  assert (0 < P_grid_Y tp) as HP by nia.
  destruct (calls_spec c Hc) as (Hd & Hst & Hrt & Hfits & _).
  pose proof (grid_dim_X _ _ _ _ _ Hok a A HA) as HAdx.
  pose proof (grid_dim_Y _ _ _ _ _ Hok a A HA) as HAdy.
  split; intros Hn.
  - destruct (neighbour_spec tp a _ b HP Ha Hn) as (Hb & Hback & Hco).
    destruct (lookup_lt_is_Some_2 w b) as [B HB].
    { by rewrite (grid_ranks _ _ _ _ _ Hok). }
    exists B. split; [done|].
    rewrite Hd, opposite_involutive in Hback. split; [done|].
    pose proof (grid_dim_X _ _ _ _ _ Hok b B HB) as HBdx.
    pose proof (grid_dim_Y _ _ _ _ _ Hok b B HB) as HBdy.
    destruct (grid_halo _ _ _ _ _ Hok b B HB) as [HeX HeY].
    split; [|by apply Hfits].
    rewrite Hst, Hrt. rewrite Hd in Hco.
    destruct (recvfrom c); cbn [opposite] in Hco; cbn [border_type count];
      congruence.
  - destruct (neighbour_spec tp a _ b HP Ha Hn) as (Hb & Hback & Hco).
    destruct (lookup_lt_is_Some_2 w b) as [B HB].
    { by rewrite (grid_ranks _ _ _ _ _ Hok). }
    exists B. split; [done|]. rewrite <- Hd in Hback. split; [done|].
    pose proof (grid_dim_X _ _ _ _ _ Hok b B HB) as HBdx.
    pose proof (grid_dim_Y _ _ _ _ _ Hok b B HB) as HBdy.
    rewrite Hst, Hrt.
    destruct (recvfrom c); cbn [border_type count]; congruence.
Qed.

(** X6.  Exchange_Borders writes halo cells only.  On every process it
    leaves every grid but the exchanged one as it was, keeps the size of
    the exchanged block, and changes no interior cell and none of the
    four corner cells of the halo. *)
Theorem Exchange_Borders_writes_halo_only tp f dx dy w a A0 :
  grid_ok tp f dx dy w -> w !! a = Some A0 ->
  exists A,
    Exchange_Borders_on f tp w !! a = Some A /\
    A = set f A0 (get f A) /\
    length (get f A) = length (get f A0) /\
    forall x y, x < dim_X A0 -> y < dim_Y A0 ->
      interior A0 x y = true \/ corner A0 x y = true ->
      cell A (get f A) x y = cell A0 (get f A0) x y.
Proof.
  intros Hok HA.
  destruct (exchange_lookup tp f dx dy w a A0 Hok HA) as (A & HAl & HAs).
  exists A. split; [done|]. split; [done|].
  pose proof (exchange_grid_ok tp f dx dy Exchange_Borders_calls w Hok) as Hok'.
  assert (dim_X A = dim_X A0 /\ dim_Y A = dim_Y A0) as [HX HY].
  { rewrite HAs. apply set_dims. }
  split.
  - rewrite (grid_block _ _ _ _ _ Hok' a A HAl), (grid_block _ _ _ _ _ Hok a A0 HA).
    by rewrite HX, HY.
  - intros x y Hx Hy Hcell. rewrite (cell_dims A0 A) by done.
    destruct (exchange_frame tp f dx dy Exchange_Borders_calls w a A0 x y)
      as (A' & HAl' & _ & Hc'); try done.
    + intros c Hc. right. destruct Hcell as [Hint%interior_bounds | Hco].
      * clear -Hc Hint. each_call Hc; line_arith.
      * unfold corner in Hco. apply andb_prop in Hco as [H1 H2].
        apply orb_prop in H1. apply orb_prop in H2.
        rewrite !Nat.eqb_eq in H1, H2.
        clear -Hc H1 H2 Hx Hy. each_call Hc; line_arith.
    + unfold Exchange_Borders_on in HAl. unfold exchange in HAl'. congruence.
Qed.

(** Two blocks of a tile that agree cell by cell are the same block. *)
Lemma cells_eq t (g g' : list float) :
  0 < dim_Y t ->
  length g = dim_X t * dim_Y t -> length g' = dim_X t * dim_Y t ->
  (forall x y, x < dim_X t -> y < dim_Y t -> cell t g' x y = cell t g x y) ->
  g' = g.
Proof.
  intros HdY Hg Hg' Hc. apply list_eq. intros i.
  destruct (decide (i < dim_X t * dim_Y t)) as [Hi|Hi].
  - specialize (Hc (i / dim_Y t) (i mod dim_Y t)).
    unfold cell, load in Hc. rewrite idx_div_mod in Hc by done.
    destruct (lookup_lt_is_Some_2 g i ltac:(lia)) as [v Hv].
    destruct (lookup_lt_is_Some_2 g' i ltac:(lia)) as [v' Hv'].
    rewrite Hv, Hv' in Hc |- *. cbn in Hc. f_equal. apply Hc.
    + apply Nat.Div0.div_lt_upper_bound. lia.
    + apply Nat.mod_upper_bound. lia.
  - rewrite !(proj2 (lookup_ge_None _ _)) by lia. done.
Qed.

(** A cell of the tile that is in neither the interior nor a corner lies
    on one of the four halo lines. *)
Lemma edge_cell t x y :
  2 <= dim_X t -> 2 <= dim_Y t -> x < dim_X t -> y < dim_Y t ->
  interior t x y = false -> corner t x y = false ->
  exists n k, halo_cell t n k = (x, y) /\ 1 <= k <= border_length t n.
Proof.
  intros HdX HdY Hx Hy Hi Hc. unfold interior, corner in *.
  destruct (Nat.eqb_spec x 0), (Nat.eqb_spec x (dim_X t - 1)),
    (Nat.eqb_spec y 0), (Nat.eqb_spec y (dim_Y t - 1)),
    (Nat.leb_spec 1 x), (Nat.ltb_spec x (dim_X t - 1)),
    (Nat.leb_spec 1 y), (Nat.ltb_spec y (dim_Y t - 1));
    cbn in Hi, Hc; try done; try lia;
    first
      [ exists proc_left, y; cbn; split; [f_equal; lia | lia]
      | exists proc_right, y; cbn; split; [f_equal; lia | lia]
      | exists proc_top, x; cbn; split; [f_equal; lia | lia]
      | exists proc_bottom, x; cbn; split; [f_equal; lia | lia] ].
Qed.

Lemma exchange_corner tp f dx dy w a A0 A x y :
  grid_ok tp f dx dy w -> w !! a = Some A0 ->
  Exchange_Borders_on f tp w !! a = Some A ->
  x < dim_X A0 -> y < dim_Y A0 -> corner A0 x y = true ->
  cell A0 (get f A) x y = cell A0 (get f A0) x y.
Proof.
  intros Hok HA HAl Hx Hy Hco.
  destruct (exchange_frame tp f dx dy Exchange_Borders_calls w a A0 x y)
    as (A' & HAl' & _ & Hc'); try done.
  - intros c Hc. right.
    unfold corner in Hco. apply andb_prop in Hco as [H1 H2].
    apply orb_prop in H1. apply orb_prop in H2.
    rewrite !Nat.eqb_eq in H1, H2.
    clear -Hc H1 H2 Hx Hy. each_call Hc; line_arith.
  - unfold Exchange_Borders_on in HAl. unfold exchange in HAl'. congruence.
Qed.

(** X7.  Exchange_Borders is idempotent on tiles that have an interior
    (extents of at least 3): a second exchange right after the first
    changes nothing on any process. *)
Theorem Exchange_Borders_idempotent tp f dx dy w :
  grid_ok tp f dx dy w ->
  (forall r t, w !! r = Some t -> 3 <= dim_X t /\ 3 <= dim_Y t) ->
  Exchange_Borders_on f tp (Exchange_Borders_on f tp w)
  = Exchange_Borders_on f tp w.
Proof.
  intros Hok H3.
  assert (Hok1 : grid_ok tp f dx dy (Exchange_Borders_on f tp w))
    by apply (exchange_grid_ok tp f dx dy Exchange_Borders_calls w Hok).
  set (w1 := Exchange_Borders_on f tp w) in *.
  assert (Hok2 : grid_ok tp f dx dy (Exchange_Borders_on f tp w1))
    by apply (exchange_grid_ok tp f dx dy Exchange_Borders_calls w1 Hok1).
  pose proof (grid_ranks _ _ _ _ _ Hok) as Hl0.
  pose proof (grid_ranks _ _ _ _ _ Hok1) as Hl1.
  pose proof (grid_ranks _ _ _ _ _ Hok2) as Hl2.
  apply list_eq. intros a.
  destruct (w !! a) as [A0|] eqn:HA.
  2:{ apply lookup_ge_None in HA.
      rewrite !(proj2 (lookup_ge_None _ _)); [done|lia..]. }
  destruct (exchange_lookup tp f dx dy w a A0 Hok HA) as (A1 & HA1 & HA1s).
  fold w1 in HA1.
  destruct (exchange_lookup tp f dx dy w1 a A1 Hok1 HA1) as (A2 & HA2 & HA2s).
  rewrite HA1, HA2. f_equal.
  assert (dim_X A1 = dim_X A0 /\ dim_Y A1 = dim_Y A0) as [HX1 HY1].
  { rewrite HA1s. apply set_dims. }
  assert (dim_X A2 = dim_X A1 /\ dim_Y A2 = dim_Y A1) as [HX2 HY2].
  { rewrite HA2s. apply set_dims. }
  destruct (H3 a A0 HA) as [HdX HdY].
  assert (get f A2 = get f A1) as Hg; [|by rewrite HA2s, Hg, set_get].
  apply (cells_eq A1).
  - lia.
  - exact (grid_block _ _ _ _ _ Hok1 a A1 HA1).
  - rewrite (grid_block _ _ _ _ _ Hok2 a A2 HA2). by rewrite HX2, HY2.
  - intros x y Hx Hy.
    destruct (interior A1 x y) eqn:Hint.
    { by apply (exchange_interior tp f dx dy w1 a A1 A2). }
    destruct (corner A1 x y) eqn:Hco.
    { by apply (exchange_corner tp f dx dy w1 a A1 A2). }
    destruct (edge_cell A1 x y) as (n & k & Hh & Hk); try done; try lia.
    assert (x = (halo_cell A1 n k).1 /\ y = (halo_cell A1 n k).2) as [-> ->]
      by (by rewrite Hh).
    destruct (neighbour tp a n) as [b|] eqn:Hn.
    2:{ apply (exchange_edge tp f dx dy w1 a A1 A2 n k Hok1 HA1 HA2 Hn).
        destruct n; cbn in *; lia. }
    assert (a < P_grid_X tp * P_grid_Y tp) as Ha.
    { rewrite <- (grid_ranks _ _ _ _ _ Hok). by eapply lookup_lt_Some. }
    assert (0 < P_grid_Y tp) as HP by nia.
    destruct (neighbour_spec tp a n b HP Ha Hn) as (Hb & _ & Hco').
    destruct (lookup_lt_is_Some_2 w b) as [B0 HB].
    { by rewrite (grid_ranks _ _ _ _ _ Hok). }
    destruct (exchange_lookup tp f dx dy w b B0 Hok HB) as (B1 & HB1 & HB1s).
    fold w1 in HB1.
    destruct (exchange_lookup tp f dx dy w1 b B1 Hok1 HB1) as (B2 & HB2 & HB2s).
    assert (dim_X B1 = dim_X B0 /\ dim_Y B1 = dim_Y B0) as [HBX1 HBY1].
    { rewrite HB1s. apply set_dims. }
    assert (dim_X B2 = dim_X B1 /\ dim_Y B2 = dim_Y B1) as [HBX2 HBY2].
    { rewrite HB2s. apply set_dims. }
    destruct (H3 b B0 HB) as [HeX HeY].
    assert (Hd1 : 3 <= depth B1 (opposite n)) by (destruct n; cbn; lia).
    assert (Hd2 : 3 <= depth B2 (opposite n)) by (destruct n; cbn; lia).
    assert (Hh0 : halo_cell A0 n k = halo_cell A1 n k)
      by (destruct n; cbn; congruence).
    assert (Hk0 : 1 <= k <= border_length A0 n)
      by (destruct n; cbn in *; lia).
    pose proof (exchange_neighbour tp f dx dy w1 a A1 A2 b B2 n k
                  Hok1 HA1 HA2 Hn HB2 Hd2 Hk) as E2.
    pose proof (exchange_neighbour tp f dx dy w a A0 A1 b B1 n k
                  Hok HA HA1 Hn HB1 Hd1 Hk0) as E1.
    rewrite Hh0, (cell_dims A1 A0) in E1 by done.
    rewrite E2, E1.
    assert (Hbc : border_cell B2 (opposite n) k = border_cell B1 (opposite n) k)
      by (destruct n; cbn; congruence).
    rewrite Hbc, (cell_dims B1 B2) by done.
    apply (exchange_interior tp f dx dy w1 b B1 B2 _ _ Hok1 HB1 HB2).
    pose proof (grid_dim_X _ _ _ _ _ Hok a A0 HA) as HAdx.
    pose proof (grid_dim_Y _ _ _ _ _ Hok a A0 HA) as HAdy.
    pose proof (grid_dim_X _ _ _ _ _ Hok b B0 HB) as HBdx.
    pose proof (grid_dim_Y _ _ _ _ _ Hok b B0 HB) as HBdy.
    unfold interior.
    destruct n; cbn [opposite border_cell border_length fst snd] in *;
      repeat (apply andb_true_intro; split);
      first [apply Nat.leb_le | apply Nat.ltb_lt]; try lia.
    all: try (assert (dim_X B0 = dim_X A0) by congruence; lia).
    all: try (assert (dim_Y B0 = dim_Y A0) by congruence; lia).
Qed.

(** *** The buffers of the transfers *)

Lemma type_map_elem t dir d :
  d ∈ type_map (border_type t dir) <->
  exists k, k < count (border_type t dir) /\ d = k * stride (border_type t dir).
Proof.
  rewrite (border_type_vector t dir) at 1. rewrite type_map_vector.
  rewrite list_elem_of_fmap. split.
  - intros (k & -> & Hk%elem_of_seq). exists k. split; [lia|done].
  - intros (k & Hk & ->). exists k. split; [done|]. apply elem_of_seq. lia.
Qed.

(** X8.  The buffers of every MPI_Sendrecv of Exchange_Borders, on a
    tile with an interior: every element the send item and the receive
    item address lies inside the block of [dim[X_DIR] * dim[Y_DIR]]
    elements, and the two items have no element in common (as
    MPI_Sendrecv requires). *)
Theorem Exchange_Borders_buffers t c :
  3 <= dim_X t -> 3 <= dim_Y t -> c ∈ Exchange_Borders_calls ->
  (forall d, d ∈ type_map (border_type t (sendtype c)) ->
             at_cell t (sendbuf c t) + d < dim_X t * dim_Y t) /\
  (forall d, d ∈ type_map (border_type t (recvtype c)) ->
             at_cell t (recvbuf c t) + d < dim_X t * dim_Y t) /\
  (forall d d', d ∈ type_map (border_type t (sendtype c)) ->
                d' ∈ type_map (border_type t (recvtype c)) ->
                at_cell t (sendbuf c t) + d <> at_cell t (recvbuf c t) + d').
Proof.
  intros HX HY Hc.
  assert (Hidx : forall x y, x < dim_X t -> y < dim_Y t ->
                             idx (dim_Y t) x y < dim_X t * dim_Y t)
    by (intros; by apply idx_lt).
  split; [|split].
  - intros d (k & Hk & ->)%type_map_elem. rewrite at_cell_line.
    clear -Hc Hk HX HY Hidx.
    each_call Hc; cbn [sendtype sendbuf border_type count line fst snd at_cell]
      in *; apply Hidx; cbn [fst snd]; lia.
  - intros d (k & Hk & ->)%type_map_elem. rewrite at_cell_line.
    clear -Hc Hk HX HY Hidx.
    each_call Hc; cbn [recvtype recvbuf border_type count line fst snd at_cell]
      in *; apply Hidx; cbn [fst snd]; lia.
  - intros d d' (k & Hk & ->)%type_map_elem (k' & Hk' & ->)%type_map_elem.
    rewrite !at_cell_line. unfold at_cell. intros E.
    clear Hidx.
    each_call Hc;
      cbn [sendtype sendbuf recvtype recvbuf border_type count line fst snd]
      in *; apply idx_inj in E; cbn [fst snd] in *; lia.
Qed.

(** ** Do_Step *)

(** *** The sign of the reported change *)

Lemma float_nonneg_ltb (m e : float) :
  (0 <=? m)%float = true -> (m <? e)%float = true -> (0 <=? e)%float = true.
Proof.
  rewrite !leb_spec, ltb_spec, Prim2SF_zero.
  unfold SFleb, SFltb.
  destruct (Prim2SF m) as [s1| s1 | |s1 m1 e1], (Prim2SF e) as [s2|s2| |s2 m2 e2];
    cbn; try done; destruct s1, s2; cbn; try done.
Qed.

Lemma track_max_nonneg m e :
  (0 <=? m)%float = true -> (0 <=? track_max m e)%float = true.
Proof.
  intros Hm. unfold track_max. destruct (m <? e)%float eqn:H; [|done].
  by apply (float_nonneg_ltb m e).
Qed.

Lemma C_max_nonneg a b :
  (0 <=? a)%float = true -> (0 <=? b)%float = true ->
  (0 <=? C_max a b)%float = true.
Proof. intros Ha Hb. unfold C_max. by destruct (b <? a)%float. Qed.

Lemma Do_Step_nonneg t parity : (0 <=? (Do_Step t parity).2)%float = true.
Proof.
  unfold Do_Step. rewrite for_interior_cells.
  assert ((0 <=? (foldl (fun s c => Do_Step_cell t parity c.1 c.2 s)
                        (phi t, 0%float) (interior_cells t)).2)%float = true)
    as H.
  { apply (foldl_inv (fun _ (s : list float * float) =>
                        (0 <=? s.2)%float = true)); [done|].
    intros l1 [x y] l2 [g m] _ Hm. unfold Do_Step_cell. cbn [fst snd] in *.
    destruct (_ && _); [|done]. cbn [snd]. by apply track_max_nonneg. }
  by destruct (foldl _ _ _).
Qed.

Lemma MPI_Allreduce_MAX_nonneg l :
  Forall (fun x => (0 <=? x)%float = true) l ->
  (0 <=? MPI_Allreduce_MAX l)%float = true.
Proof.
  destruct l as [|x l]; [done|]. intros H. apply Forall_cons in H as [Hx Hl].
  cbn. revert x Hx. induction Hl as [|y l Hy Hl IH]; intros x Hx; [done|].
  cbn. apply IH. by apply C_max_nonneg.
Qed.

(** X9.  The change Do_Step returns is never negative and never a NaN,
    whatever the grid holds (NaN and infinities included), and so is the
    global change of an SOR iteration. *)
Theorem Do_Step_change_nonneg :
  (forall t parity,
     (0 <=? (Do_Step t parity).2)%float = true /\
     is_nan (Do_Step t parity).2 = false) /\
  (forall tp w,
     (0 <=? (SOR_iteration tp w).2)%float = true /\
     is_nan (SOR_iteration tp w).2 = false).
Proof.
  split.
  - intros t parity. split; [apply Do_Step_nonneg | apply Do_Step_not_nan].
  - intros tp w. split; [|apply SOR_iteration_not_nan].
    unfold SOR_iteration. cbn [snd]. apply MPI_Allreduce_MAX_nonneg.
    apply Forall_zip_with_fst with (Q := fun x => (0 <=? x)%float = true)
                                   (P := fun x => (0 <=? x)%float = true).
    + apply Forall_fmap, Forall_fmap, Forall_true. intros t.
      apply Do_Step_nonneg.
    + apply Forall_fmap, Forall_fmap, Forall_true. intros t a Ha.
      apply C_max_nonneg; [done | apply Do_Step_nonneg].
Qed.

(** *** One SOR iteration, cell by cell *)

Lemma Do_Step_fst t parity :
  tile_ok t ->
  (Do_Step t parity).1
  = set_phi t (update_interior t (sor_eligible t parity)
                               (sor_new_value t (phi t)) (phi t)).
Proof.
  intros Hok. unfold Do_Step.
  destruct (Do_Step_sweep t parity Hok) as (g & -> & Hsw). cbn [fst].
  f_equal. apply swept_all; [apply (phi_ok t Hok) | exact Hsw].
Qed.

Lemma tile_ok_set_phi t g :
  tile_ok t -> length g = dim_X t * dim_Y t -> tile_ok (set_phi t g).
Proof. intros [] Hg. by split. Qed.

Lemma sor_eligible_even t x y :
  tile_ok t -> not_fixed t x y = true ->
  sor_eligible t 0 x y
  = Z.even (Z.of_nat x + Z.of_nat y + offset_X t + offset_Y t) /\
  sor_eligible t 1 x y
  = negb (Z.even (Z.of_nat x + Z.of_nat y + offset_X t + offset_Y t)).
Proof.
  intros [] Hnf. unfold sor_eligible. rewrite Hnf, !andb_true_r.
  set (s := (Z.of_nat x + Z.of_nat y + offset_X t + offset_Y t)%Z).
  rewrite (Zmod_even s). destruct (Z.even s); done.
Qed.

(** X10.  One SOR iteration, cell by cell.  A cell of the interior that
    is not a source is updated exactly once per iteration: if its global
    coordinate sum is even, by the first sweep, from the values the
    iteration started with, and the second sweep leaves it alone; if the
    sum is odd, the first sweep leaves it alone and the second sweep
    updates it from the values the first sweep and the halo exchange in
    between have produced. *)
Theorem SOR_iteration_red_black tp dx dy w a A0 x y :
  grid_ok tp Phi dx dy w -> Forall tile_ok w -> w !! a = Some A0 ->
  interior A0 x y = true -> not_fixed A0 x y = true ->
  let w1 := Exchange_Borders_SOR tp (fst <$> ((fun t => Do_Step t 0) <$> w)) in
  exists A1 A2,
    w1 !! a = Some A1 /\ (SOR_iteration tp w).1 !! a = Some A2 /\
    if Z.even (Z.of_nat x + Z.of_nat y + offset_X A0 + offset_Y A0)
    then cell A1 (phi A1) x y = sor_new_value A0 (phi A0) x y /\
         cell A2 (phi A2) x y = cell A1 (phi A1) x y
    else cell A1 (phi A1) x y = cell A0 (phi A0) x y /\
         cell A2 (phi A2) x y = sor_new_value A1 (phi A1) x y.
Proof.
  intros Hok Htiles HA Hint Hnf w1.
  pose proof (proj1 (Forall_lookup _ _) Htiles a A0 HA) as HokA.
  (* the first sweep *)
  set (T1 := (Do_Step A0 0).1).
  assert (HT1 : (fst <$> ((fun t => Do_Step t 0) <$> w)) !! a = Some T1)
    by (by rewrite !list_lookup_fmap, HA).
  pose proof (fmap_Do_Step_grid_ok tp dx dy 0 w Hok) as Hok1.
  pose proof (Do_Step_fst A0 0 HokA) as ET1. fold T1 in ET1.
  destruct (exchange_lookup tp Phi dx dy _ a T1 Hok1 HT1) as (A1 & HA1 & HA1s).
  fold (Exchange_Borders_SOR tp (fst <$> ((fun t => Do_Step t 0) <$> w))) in HA1.
  fold w1 in HA1.
  assert (Hok1' : grid_ok tp Phi dx dy w1)
    by apply (exchange_grid_ok tp Phi dx dy Exchange_Borders_calls _ Hok1).
  assert (HT1d : dim_X T1 = dim_X A0 /\ dim_Y T1 = dim_Y A0
                 /\ offset_X T1 = offset_X A0 /\ offset_Y T1 = offset_Y A0
                 /\ source T1 = source A0) by (by rewrite ET1).
  destruct HT1d as (T1X & T1Y & T1ox & T1oy & T1s).
  assert (HA1d : dim_X A1 = dim_X A0 /\ dim_Y A1 = dim_Y A0
                 /\ offset_X A1 = offset_X A0 /\ offset_Y A1 = offset_Y A0
                 /\ source A1 = source A0).
  { rewrite HA1s. cbn. by rewrite T1X, T1Y, T1ox, T1oy, T1s. }
  destruct HA1d as (A1X & A1Y & A1ox & A1oy & A1s).
  assert (HokA1 : tile_ok A1).
  { destruct HokA. split; rewrite ?A1X, ?A1Y, ?A1ox, ?A1oy, ?A1s; try done.
    rewrite <- A1X, <- A1Y. exact (grid_block _ _ _ _ _ Hok1' a A1 HA1). }
  assert (HI1 : interior T1 x y = true)
    by (unfold interior; by rewrite T1X, T1Y).
  pose proof (exchange_interior tp Phi dx dy _ a T1 A1 x y Hok1 HT1 HA1 HI1)
    as E1. cbn [get] in E1.
  rewrite !(cell_dims A0 T1) in E1 by done.
  assert (Ephi1 : cell A0 (phi T1) x y
                  = if sor_eligible A0 0 x y
                    then sor_new_value A0 (phi A0) x y
                    else cell A0 (phi A0) x y).
  { rewrite ET1. cbn [phi set_phi].
    apply update_interior_cell; [apply (phi_ok A0 HokA) | done]. }
  (* the second sweep *)
  set (T2 := (Do_Step A1 1).1).
  assert (HT2 : (fst <$> ((fun t => Do_Step t 1) <$> w1)) !! a = Some T2)
    by (by rewrite !list_lookup_fmap, HA1).
  pose proof (fmap_Do_Step_grid_ok tp dx dy 1 w1 Hok1') as Hok2.
  pose proof (Do_Step_fst A1 1 HokA1) as ET2. fold T2 in ET2.
  destruct (exchange_lookup tp Phi dx dy _ a T2 Hok2 HT2) as (A2 & HA2 & HA2s).
  assert (HT2d : dim_X T2 = dim_X A0 /\ dim_Y T2 = dim_Y A0)
    by (by rewrite ET2).
  destruct HT2d as (T2X & T2Y).
  assert (HA2d : dim_Y A2 = dim_Y A0) by (rewrite HA2s; cbn; done).
  assert (HI2 : interior T2 x y = true)
    by (unfold interior; by rewrite T2X, T2Y).
  pose proof (exchange_interior tp Phi dx dy _ a T2 A2 x y Hok2 HT2 HA2 HI2)
    as E2. cbn [get] in E2.
  rewrite !(cell_dims A0 T2) in E2 by done.
  assert (HI1' : interior A1 x y = true)
    by (unfold interior; by rewrite A1X, A1Y).
  assert (Ephi2 : cell A1 (phi T2) x y
                  = if sor_eligible A1 1 x y
                    then sor_new_value A1 (phi A1) x y
                    else cell A1 (phi A1) x y).
  { rewrite ET2. cbn [phi set_phi].
    apply update_interior_cell; [apply (phi_ok A1 HokA1) | done]. }
  rewrite (cell_dims A0 A1) in Ephi2 by done.
  assert (Hnf1 : not_fixed A1 x y = true)
    by (unfold not_fixed in *; by rewrite A1Y, A1s).
  destruct (sor_eligible_even A0 x y HokA Hnf) as [Ee0 _].
  destruct (sor_eligible_even A1 x y HokA1 Hnf1) as [_ Ee1].
  rewrite A1ox, A1oy in Ee1. rewrite Ee0 in Ephi1. rewrite Ee1 in Ephi2.
  exists A1, A2. split; [done|]. split; [exact HA2|].
  rewrite !(cell_dims A0 A2), !(cell_dims A0 A1 (phi A1)) by done.
  rewrite E2, Ephi2, E1, Ephi1.
  destruct (Z.even _); cbn [negb]; [|done].
  split; [done|]. rewrite (cell_dims A0 A1) by done. by rewrite E1, Ephi1.
Qed.

(** ** InitCG and the CG loop *)

Lemma update_interior_outside t sel val g x y :
  y < dim_Y t -> interior t x y = false ->
  cell t (update_interior t sel val g) x y = cell t g x y.
Proof.
  intros Hy Hint. unfold cell, load, update_interior. rewrite list_lookup_imap.
  destruct (g !! idx (dim_Y t) x y) as [v|]; [|done]. cbn.
  rewrite idx_div, idx_mod by lia. by rewrite Hint.
Qed.

Lemma halo_cell_outside t n k : interior t (halo_cell t n k).1 (halo_cell t n k).2 = false.
Proof.
  unfold interior.
  destruct n; cbn [halo_cell fst snd];
    repeat match goal with
    | |- context [(?a <=? ?b)] => destruct (Nat.leb_spec a b)
    | |- context [(?a <? ?b)] => destruct (Nat.ltb_spec a b)
    end; cbn [andb]; try done; lia.
Qed.

Lemma foldl_ext_in {A B : Type} (f g : A -> B -> A) (l : list B) (a : A) :
  (forall a b, b ∈ l -> f a b = g a b) -> foldl f a l = foldl g a l.
Proof.
  revert a. induction l as [|b l IH]; intros a H; [done|]. cbn.
  rewrite H by (by left). apply IH. intros a' b' Hb'. apply H. by right.
Qed.

Lemma sum_interior_ext t t' f f' :
  dim_X t' = dim_X t -> dim_Y t' = dim_Y t ->
  (forall x y, interior t x y = true -> f' x y = f x y) ->
  sum_interior t' f' = sum_interior t f.
Proof.
  intros HX HY H. unfold sum_interior.
  assert (interior_cells t' = interior_cells t) as ->
    by (unfold interior_cells; by rewrite HX, HY).
  apply foldl_ext_in. intros s [x y] Hc. cbn [fst snd].
  by rewrite H by (by apply interior_cells_spec).
Qed.

(** The local sum InitCG accumulates is the sum of the squares of the
    residuals it stores. *)
Lemma InitCG_local_rdotr m t :
  blocks_fit m t ->
  (InitCG_local m t).2
  = sum_interior t (fun x y => (InitCG_r t x y * InitCG_r t x y)%float).
Proof.
  intros (Hp & Hr & Hv). unfold InitCG_local. rewrite for_interior_cells.
  unfold sum_interior.
  pose (Inv := fun (l : list (nat * nat))
                   (s : list float * list float * float) =>
          length s.1.2 = length (block_r m)
          /\ s.2 = foldl (fun s c => (s + InitCG_r t c.1 c.2
                                          * InitCG_r t c.1 c.2)%float)
                         0%float l).
  assert (Inv (interior_cells t)
            (foldl (fun s c => InitCG_cell t c.1 c.2 s)
                   (block_p m, block_r m, 0%float) (interior_cells t))) as H.
  { apply foldl_inv.
    - by split.
    - intros l1 [x y] l2 [[p r] rd] Hsplit [Hlen Hrd]. cbn [fst snd] in *.
      destruct (interior_cells_split _ _ _ _ _ Hsplit) as (Hint & _ & _).
      unfold Inv, InitCG_cell. cbn [fst snd].
      assert ((if not_fixed t x y
               then put t (put t r x y 0%float) x y
                        (neighbour_sum t (phi t) x y * 0.25)%float
               else put t r x y 0%float)
              = put t r x y (InitCG_r t x y)) as ->.
      { unfold InitCG_r, put, store. destruct (not_fixed t x y); [|done].
        by rewrite list_insert_insert_eq. }
      rewrite cell_put by (rewrite Hlen, Hr; by apply interior_idx_lt).
      rewrite put_length. split; [done|].
      rewrite foldl_app. cbn [foldl fst snd]. by rewrite Hrd. }
  destruct (foldl _ _ _) as [[p r] rd]. destruct H as [_ Hrd]. exact Hrd.
Qed.

(** X11.  InitCG cell by cell.  On every process InitCG keeps the
    extents, [phi] and [source]; at every interior cell [rCG] and [pCG]
    hold the initial residual (a quarter of the sum of the four
    neighbours of [phi] where the cell is not a source, 0 where it is);
    every other element of [rCG] and [pCG], and all of [vCG], is what
    malloc left in the block: the halo of the CG grids is never
    initialised. *)
Theorem InitCG_spec malloc w a A0 :
  w !! a = Some A0 -> blocks_fit (malloc a) A0 ->
  exists A,
    InitCG malloc w !! a = Some A /\
    dim_X A = dim_X A0 /\ dim_Y A = dim_Y A0 /\
    phi A = phi A0 /\ source A = source A0 /\
    vCG A = block_v (malloc a) /\
    forall x y, x < dim_X A0 -> y < dim_Y A0 ->
      if interior A0 x y
      then cell A (rCG A) x y = InitCG_r A0 x y /\
           cell A (pCG A) x y = InitCG_r A0 x y
      else cell A (rCG A) x y = cell A0 (block_r (malloc a)) x y /\
           cell A (pCG A) x y = cell A0 (block_p (malloc a)) x y.
Proof.
  intros HA Hfit. pose proof Hfit as (Hp & Hr & Hv).
  rewrite InitCG_lookup, HA. cbn [fmap option_fmap option_map].
  eexists. split; [reflexivity|].
  rewrite InitCG_local_spec by done.
  match goal with |- context [dim_X ?t = _] => set (A := t) end.
  repeat (split; [done|]).
  intros x y Hx Hy. rewrite !(cell_dims A0 A) by done.
  subst A. cbn [rCG pCG set_global_residue set_vCG set_rCG set_pCG].
  destruct (interior A0 x y) eqn:Hint.
  - by rewrite !update_interior_cell by done.
  - by rewrite !update_interior_outside by done.
Qed.

(** *** The states of the CG loop *)

Lemma CG_state_ok tp dx dy malloc w k :
  grid_ok tp Phi dx dy w ->
  (forall r t, w !! r = Some t -> blocks_fit (malloc r) t) ->
  cg_world_ok tp dx dy (CG_state tp (InitCG malloc w) k).
Proof.
  intros Hok Hfit. induction k as [|k IH]; cbn [CG_state].
  - by apply InitCG_ok.
  - apply Exchange_Borders_cg_ok in IH.
    rewrite Do_Step_CG_iteration by apply IH.
    by apply CG_iteration_cg_ok.
Qed.

Lemma halo_cell_dims t t' n k :
  dim_X t' = dim_X t -> dim_Y t' = dim_Y t ->
  halo_cell t' n k = halo_cell t n k /\ halo_length t' n = halo_length t n.
Proof. intros HX HY. destruct n; cbn; by rewrite ?HX, ?HY. Qed.

Lemma halo_cell_in_tile t n k :
  2 <= dim_X t -> 2 <= dim_Y t -> k < halo_length t n ->
  (halo_cell t n k).1 < dim_X t /\ (halo_cell t n k).2 < dim_Y t.
Proof. intros HX HY Hk. destruct n; cbn in *; lia. Qed.

(** The halo cell of [pCG] that faces a missing neighbour keeps, through
    InitCG and every iteration, what the allocator left in the block. *)
Lemma pCG_halo_state tp dx dy malloc w a A0 n k j :
  grid_ok tp Phi dx dy w ->
  (forall r t, w !! r = Some t -> blocks_fit (malloc r) t) ->
  w !! a = Some A0 -> neighbour tp a n = None -> k < halo_length A0 n ->
  exists A, CG_state tp (InitCG malloc w) j !! a = Some A /\
            dim_X A = dim_X A0 /\ dim_Y A = dim_Y A0 /\
            cell A0 (pCG A) (halo_cell A0 n k).1 (halo_cell A0 n k).2
            = cell A0 (block_p (malloc a)) (halo_cell A0 n k).1
                                           (halo_cell A0 n k).2.
Proof.
  intros Hok Hfit HA Hn Hk.
  destruct (grid_halo _ _ _ _ _ Hok a A0 HA) as [HdX HdY].
  destruct (halo_cell_in_tile A0 n k HdX HdY Hk) as [Hhx Hhy].
  induction j as [|j IH]; cbn [CG_state].
  - rewrite InitCG_lookup, HA. cbn [fmap option_fmap option_map].
    eexists. split; [reflexivity|].
    rewrite InitCG_local_spec by (by apply Hfit).
    cbn [dim_X dim_Y pCG set_global_residue set_vCG set_rCG set_pCG].
    split; [done|]. split; [done|].
    apply update_interior_outside; [done | apply halo_cell_outside].
  - destruct IH as (A & HAj & AX & AY & Hcell).
    pose proof (CG_state_ok tp dx dy malloc w j Hok Hfit) as Hcg.
    pose proof (Exchange_Borders_cg_ok _ _ _ _ Hcg) as Hcg'.
    rewrite Do_Step_CG_iteration by apply Hcg'.
    destruct Hcg as [HokP _].
    destruct (exchange_lookup tp PCG dx dy _ a A HokP HAj) as (A' & HA' & HA's).
    destruct (halo_cell_dims A0 A n k AX AY) as [Hh Hl].
    pose proof (exchange_edge tp PCG dx dy _ a A A' n k HokP HAj HA' Hn
                  ltac:(by rewrite Hl)) as He.
    cbn [get] in He. rewrite Hh, !(cell_dims A0 A) in He by done.
    assert (dim_X A' = dim_X A /\ dim_Y A' = dim_Y A) as [A'X A'Y]
      by (rewrite HA's; done).
    rewrite CG_iteration_lookup. unfold Exchange_Borders. rewrite HA'.
    cbn [fmap option_fmap option_map].
    eexists. split; [reflexivity|]. cbn [dim_X dim_Y pCG].
    split; [congruence|]. split; [congruence|].
    unfold cg_p. rewrite (cell_dims A' A0 (update_interior _ _ _ _)) by congruence.
    rewrite update_interior_outside.
    + rewrite <- (cell_dims A' A0) by congruence. by rewrite He.
    + congruence.
    + destruct (halo_cell_dims A0 A' n k) as [<- _]; [congruence..|].
      apply halo_cell_outside.
Qed.

(** X12.  The boundary value of [pCG].  On a process without neighbour
    on some side, the halo line of [pCG] that faces that side holds, when
    Do_Step_CG reads it in any iteration, what malloc left in the block:
    neither InitCG nor Do_Step_CG nor Exchange_Borders ever writes it. *)
Theorem pCG_boundary_halo tp dx dy malloc w a A0 n k j :
  grid_ok tp Phi dx dy w ->
  (forall r t, w !! r = Some t -> blocks_fit (malloc r) t) ->
  w !! a = Some A0 -> neighbour tp a n = None -> k < halo_length A0 n ->
  exists A,
    Exchange_Borders tp (CG_state tp (InitCG malloc w) j) !! a = Some A /\
    cell A (pCG A) (halo_cell A n k).1 (halo_cell A n k).2
    = cell A0 (block_p (malloc a)) (halo_cell A0 n k).1 (halo_cell A0 n k).2.
Proof.
  intros Hok Hfit HA Hn Hk.
  destruct (pCG_halo_state tp dx dy malloc w a A0 n k j Hok Hfit HA Hn Hk)
    as (A & HAj & AX & AY & Hcell).
  destruct (CG_state_ok tp dx dy malloc w j Hok Hfit) as [HokP _].
  destruct (exchange_lookup tp PCG dx dy _ a A HokP HAj) as (A' & HA' & HA's).
  destruct (halo_cell_dims A0 A n k AX AY) as [Hh Hl].
  pose proof (exchange_edge tp PCG dx dy _ a A A' n k HokP HAj HA' Hn
                ltac:(by rewrite Hl)) as He.
  cbn [get] in He. rewrite Hh, !(cell_dims A0 A) in He by done.
  assert (dim_X A' = dim_X A /\ dim_Y A' = dim_Y A) as [A'X A'Y]
    by (rewrite HA's; done).
  exists A'. split; [exact HA'|].
  destruct (halo_cell_dims A0 A' n k) as [-> _]; [congruence..|].
  rewrite (cell_dims A0 A') by congruence. by rewrite He.
Qed.

(** X13.  [global_residue] is replicated.  After InitCG and after any
    number of iterations every process holds the same [global_residue]:
    the sum, over the processes in rank order, of the local sums of
    [rCG * rCG] over the interior of the current [rCG].  So all processes
    take the same decision at the loop test of Solve. *)
Theorem global_residue_replicated tp dx dy malloc w k :
  grid_ok tp Phi dx dy w ->
  (forall r t, w !! r = Some t -> blocks_fit (malloc r) t) ->
  let s := CG_state tp (InitCG malloc w) k in
  forall a A, s !! a = Some A ->
    global_residue A
    = MPI_Allreduce_SUM ((fun t => dot_interior t (rCG t) (rCG t)) <$> s)
    /\ global_residue A = residue s.
Proof.
  intros Hok Hfit s.
  assert (Hsum : forall a A, s !! a = Some A ->
            global_residue A
            = MPI_Allreduce_SUM
                ((fun t => dot_interior t (rCG t) (rCG t)) <$> s)).
  { subst s. destruct k as [|k]; cbn [CG_state].
    - intros a A. rewrite InitCG_lookup.
      destruct (w !! a) as [t|] eqn:Ht; [|done].
      cbn [fmap option_fmap option_map]. intros [= <-].
      cbn [global_residue set_global_residue]. f_equal.
      apply list_eq. intros r.
      rewrite !list_lookup_fmap, InitCG_lookup, list_lookup_imap.
      destruct (w !! r) as [tr|] eqn:Htr; [|done].
      cbn [fmap option_fmap option_map]. f_equal.
      pose proof (Hfit r tr Htr) as Hf. pose proof Hf as (Hp & Hr & Hv).
      rewrite InitCG_local_rdotr by done. rewrite dot_interior_sum.
      rewrite InitCG_local_spec by done.
      symmetry. apply sum_interior_ext; [done..|].
      intros x y Hint.
      cbn [rCG set_global_residue set_vCG set_rCG set_pCG].
      unfold cell at 1 2.
      cbn [dim_Y set_global_residue set_vCG set_rCG set_pCG].
      fold (cell tr (update_interior tr everywhere (InitCG_r tr)
                                     (block_r (malloc r))) x y).
      by rewrite update_interior_cell by done.
    - pose proof (CG_state_ok tp dx dy malloc w k Hok Hfit) as Hcg.
      pose proof (Exchange_Borders_cg_ok _ _ _ _ Hcg) as [_ Hcg'].
      rewrite Do_Step_CG_iteration by done.
      set (W := Exchange_Borders tp (CG_state tp (InitCG malloc w) k)) in *.
      intros a A. rewrite CG_iteration_lookup.
      destruct (W !! a) as [t|] eqn:Ht; [|done].
      cbn [fmap option_fmap option_map]. intros [= <-].
      cbn [global_residue]. unfold cg_new_rdotr. f_equal.
      unfold CG_iteration. rewrite <- list_fmap_compose.
      apply list_fmap_ext. intros r tr Htr. unfold compose.
      rewrite dot_interior_sum. symmetry. by apply sum_interior_ext. }
  intros a A HA. split; [exact (Hsum a A HA)|].
  pose proof (Hsum a A HA) as H1. clearbody s.
  destruct s as [|t0 s']; [done|].
  rewrite H1. symmetry. exact (Hsum 0 t0 eq_refl).
Qed.

(** *** The halo of [phi] in the CG build *)

Lemma CG_state_phi_halo tp dx dy malloc w a A0 x y j :
  grid_ok tp Phi dx dy w ->
  (forall r t, w !! r = Some t -> blocks_fit (malloc r) t) ->
  w !! a = Some A0 -> y < dim_Y A0 -> interior A0 x y = false ->
  exists A, CG_state tp (InitCG malloc w) j !! a = Some A /\
            dim_X A = dim_X A0 /\ dim_Y A = dim_Y A0 /\
            cell A0 (phi A) x y = cell A0 (phi A0) x y.
Proof.
  intros Hok Hfit HA Hy Hout.
  induction j as [|j IH]; cbn [CG_state].
  - rewrite InitCG_lookup, HA. cbn [fmap option_fmap option_map].
    eexists. split; [reflexivity|].
    rewrite InitCG_local_spec by (by apply Hfit). done.
  - destruct IH as (A & HAj & AX & AY & Hcell).
    pose proof (CG_state_ok tp dx dy malloc w j Hok Hfit) as Hcg.
    pose proof (Exchange_Borders_cg_ok _ _ _ _ Hcg) as Hcg'.
    rewrite Do_Step_CG_iteration by apply Hcg'.
    destruct Hcg as [HokP _].
    destruct (exchange_lookup tp PCG dx dy _ a A HokP HAj) as (A' & HA' & HA's).
    assert (dim_X A' = dim_X A /\ dim_Y A' = dim_Y A /\ phi A' = phi A)
      as (A'X & A'Y & A'p) by (rewrite HA's; done).
    rewrite CG_iteration_lookup. unfold Exchange_Borders. rewrite HA'.
    cbn [fmap option_fmap option_map].
    eexists. split; [reflexivity|]. cbn [dim_X dim_Y phi].
    split; [congruence|]. split; [congruence|].
    unfold cg_phi. rewrite (cell_dims A' A0 (update_interior _ _ _ _)) by congruence.
    rewrite update_interior_outside.
    + rewrite <- (cell_dims A' A0) by congruence. by rewrite A'p.
    + congruence.
    + unfold interior in *. by rewrite A'X, A'Y, AX, AY.
Qed.

(** X14.  In the CG build the halo of [phi] is never filled.  On every
    process every cell outside the interior of [phi] is 0.0 after InitCG
    and after any number of iterations, before and after the halo
    exchange: Exchange_Borders transfers [pCG] only, so the residual
    InitCG computes next to a tile boundary does not see the values of
    the neighbouring tile. *)
Theorem CG_phi_halo_stays_zero tp malloc inp a x y j :
  valid_input tp inp ->
  (forall r, r < P_grid_X tp * P_grid_Y tp ->
             blocks_fit (malloc r) (Setup_Grid tp inp r)) ->
  a < P_grid_X tp * P_grid_Y tp ->
  x < dim_X (Setup_Grid tp inp a) -> y < dim_Y (Setup_Grid tp inp a) ->
  interior (Setup_Grid tp inp a) x y = false ->
  phi_at (CG_state tp (InitCG malloc (processes tp inp)) j) a x y = 0%float
  /\ phi_at (Exchange_Borders tp
               (CG_state tp (InitCG malloc (processes tp inp)) j)) a x y
     = 0%float.
Proof.
  intros Hv Hfit Ha Hx Hy Hout.
  destruct (processes_ok tp inp Hv) as [_ Hok].
  pose proof (Setup_Grid_lookup tp inp a Ha) as HA.
  assert (Hfit' : forall r t, processes tp inp !! r = Some t ->
                              blocks_fit (malloc r) t).
  { intros r t [Hr ->]%Setup_Grid_lookup_inv. by apply Hfit. }
  destruct (CG_state_phi_halo tp _ _ malloc _ a _ x y j Hok Hfit' HA Hy Hout)
    as (A & HAj & AX & AY & Hcell).
  destruct (Setup_Grid_cells tp inp a x y Hv Ha Hx Hy) as (Hfix & Hzero).
  assert (Hnf : not_fixed (Setup_Grid tp inp a) x y = true).
  { apply not_false_iff_true. intros E. apply Hfix in E as [E _]. congruence. }
  rewrite (Hzero Hnf) in Hcell.
  split.
  - unfold phi_at. rewrite HAj. by rewrite (cell_dims (Setup_Grid tp inp a) A).
  - destruct (CG_state_ok tp _ _ malloc _ j Hok Hfit') as [HokP _].
    destruct (exchange_lookup tp PCG _ _ _ a A HokP HAj) as (A' & HA' & HA's).
    unfold phi_at, Exchange_Borders. rewrite HA'.
    assert (dim_Y A' = dim_Y A /\ phi A' = phi A) as [A'Y ->]
      by (rewrite HA's; done).
    rewrite (cell_dims (Setup_Grid tp inp a) A') by congruence. done.
Qed.

(** ** Solve *)

(** *** Goals that are never exceeded *)

Lemma is_infinity_spec (x : float) :
  is_infinity x = true -> exists s, Prim2SF x = S754_infinity s.
Proof.
  unfold is_infinity. rewrite FloatAxioms.eqb_spec, abs_spec.
  change (Prim2SF infinity) with (S754_infinity false). unfold SFeqb.
  destruct (Prim2SF x) as [s | s | | s m e]; cbn; try done. eauto.
Qed.

Lemma double_not_greater (goal : float) :
  is_zero goal = true \/ is_nan goal = true \/ is_infinity goal = true ->
  (goal <? 2 * goal)%float = false.
Proof.
  rewrite ltb_spec, mul_spec.
  intros [[s H]%is_zero_spec | [H%is_nan_spec | [s H]%is_infinity_spec]];
    rewrite H; [by destruct s | done | by destruct s].
Qed.

(** X15.  Goals that stop the loop at once.  With a precision goal that
    is zero, infinite or a NaN, the SOR variant of Solve performs no
    iteration whatever [max_iter] is: its start value [2 * goal] does not
    compare greater than the goal.  With a NaN goal the CG variant
    performs none either. *)
Theorem Solve_SOR_degenerate_goal tp malloc goal max_iter w :
  (is_zero goal = true \/ is_nan goal = true \/ is_infinity goal = true ->
   Solve_SOR tp goal max_iter w = Some (w, (2 * goal)%float, 0%Z)) /\
  (is_nan goal = true ->
   Solve tp malloc goal max_iter w = Some (InitCG malloc w, 0%Z)).
Proof.
  split.
  - intros H%double_not_greater. unfold Solve_SOR.
    destruct (Z.to_nat max_iter); cbn [Solve_SOR_loop]; by rewrite H.
  - intros H%is_nan_spec. unfold Solve.
    assert ((goal <? residue (InitCG malloc w))%float = false) as E
      by (by rewrite ltb_spec, H).
    destruct (Z.to_nat max_iter); cbn [Solve_loop]; by rewrite E.
Qed.

Lemma Solve_SOR_degenerate_goal_witness :
  is_zero 0%float = true /\
  Solve_SOR single 0 5000 (processes single small_input)
  = Some (processes single small_input, (2 * 0)%float, 0%Z).
Proof.
  assert (H : is_zero 0%float = true) by reflexivity.
  split; [exact H|].
  exact (proj1 (Solve_SOR_degenerate_goal single (fun _ => zeroed 36) 0 5000
                  (processes single small_input)) (or_introl H)).
Defined.

(** *** The iteration cap *)

Lemma while_running_cap {S : Type} (body : S -> S) (metric : S -> float)
  goal (m m' : Z) s s' (k : Z) :
  (0 <= m <= m')%Z -> (m' <= CInt.INT_MAX)%Z ->
  while_running (Z.to_nat m) body metric goal m s 0 = Some (s', k) ->
  (k < m)%Z ->
  while_running (Z.to_nat m') body metric goal m' s 0 = Some (s', k).
Proof.
  intros Hm Hm' Hrun Hk.
  destruct (while_running_from_zero body metric goal m s ltac:(lia))
    as (k1 & Hrun1 & _ & Hbefore1 & Hexit1).
  destruct (while_running_from_zero body metric goal m' s ltac:(lia))
    as (k2 & Hrun2 & Hk2 & Hbefore2 & Hexit2).
  rewrite Hrun1 in Hrun. injection Hrun as <- <-.
  specialize (Hexit1 Hk).
  assert (k2 = k1) as ->; [|exact Hrun2].
  destruct (Nat.lt_trichotomy k2 k1) as [Hlt | [-> | Hlt]]; [|done|].
  - specialize (Hbefore1 k2 Hlt). specialize (Hexit2 ltac:(lia)). congruence.
  - specialize (Hbefore2 k1 Hlt). congruence.
Qed.

(** X19.  A run that stops below the iteration cap does not depend on
    the cap: if Solve (either variant) returns after [k < max_iter]
    iterations, it returns the same grids and the same count for every
    larger cap. *)
Theorem Solve_cap_irrelevant tp malloc goal (m m' : Z) w :
  (0 <= m <= m')%Z -> (m' <= CInt.INT_MAX)%Z ->
  (forall w' k, Solve tp malloc goal m w = Some (w', k) -> (k < m)%Z ->
                Solve tp malloc goal m' w = Some (w', k)) /\
  (forall w' delta k,
     Solve_SOR tp goal m w = Some (w', delta, k) -> (k < m)%Z ->
     Solve_SOR tp goal m' w = Some (w', delta, k)).
Proof.
  intros Hm Hm'. split.
  - intros w' k. unfold Solve. rewrite !Solve_loop_while.
    by apply while_running_cap.
  - intros w' delta k. unfold Solve_SOR. rewrite !Solve_SOR_loop_while.
    by apply while_running_cap.
Qed.

Lemma Solve_cap_irrelevant_witness :
  let malloc := fun _ : nat => zeroed 36 in
  let w := processes single small_input in
  (0 <= 10 <= 20)%Z /\ (20 <= CInt.INT_MAX)%Z /\
  Solve single malloc 0.0001 10 w
  = Some (CG_state single (InitCG malloc w) 6, 6%Z) /\
  Solve single malloc 0.0001 20 w
  = Some (CG_state single (InitCG malloc w) 6, 6%Z).
Proof.
  cbv zeta.
  assert (H1 : (0 <= 10 <= 20)%Z) by lia.
  assert (H2 : (20 <= CInt.INT_MAX)%Z) by (unfold CInt.INT_MAX; lia).
  assert (H3 : Solve single (fun _ => zeroed 36) 0.0001 10
                 (processes single small_input)
               = Some (CG_state single
                         (InitCG (fun _ => zeroed 36)
                            (processes single small_input)) 6, 6%Z))
    by (vm_compute; reflexivity).
  assert (H4 : (6 < 10)%Z) by lia.
  split; [exact H1|]. split; [exact H2|]. split; [exact H3|].
  exact (proj1 (Solve_cap_irrelevant single (fun _ => zeroed 36) 0.0001 10 20 _
                  H1 H2) _ _ H3 H4).
Defined.

(** *** The SOR program from input to result *)

Lemma SOR_state_grid_ok tp dx dy w delta k :
  grid_ok tp Phi dx dy w -> grid_ok tp Phi dx dy (SOR_state tp w delta k).1.
Proof.
  intros Hok. induction k as [|k IH]; [done|].
  cbn [SOR_state]. unfold SOR_iteration. cbn [fst].
  apply (exchange_grid_ok tp Phi dx dy Exchange_Borders_calls).
  apply fmap_Do_Step_grid_ok.
  apply (exchange_grid_ok tp Phi dx dy Exchange_Borders_calls).
  by apply fmap_Do_Step_grid_ok.
Qed.

(** The processes of a run all return from Setup_Grid, or the run ends
    with the message of one that exits. *)
Lemma all_return_spec {A : Type} (l : list (Outcome A)) :
  match all_return l with
  | Returns l' => l = Returns <$> l'
  | Exits mesg => exists i, l !! i = Some (Exits mesg)
  end.
Proof.
  induction l as [|[a|mesg] l IH]; cbn [all_return].
  - done.
  - destruct (all_return l) as [l'|mesg].
    + by rewrite IH.
    + destruct IH as [i Hi]. by exists (S i).
  - by exists 0.
Qed.

Lemma processes_run_spec malloc tp inp :
  match processes_run malloc tp inp with
  | Returns w =>
      w = processes tp inp /\
      forall r, r < P_grid_X tp * P_grid_Y tp ->
        Setup_Grid_run (malloc r) tp inp r = Returns (Setup_Grid tp inp r)
  | Exits mesg =>
      exists r, r < P_grid_X tp * P_grid_Y tp /\
        Setup_Grid_run (malloc r) tp inp r = Exits mesg
  end.
Proof.
  unfold processes_run.
  match goal with |- context [all_return ?l] =>
    pose proof (all_return_spec l) as H; destruct (all_return l) as [w|mesg]
  end.
  - assert (Hlk : forall r, r < P_grid_X tp * P_grid_Y tp ->
              Some (Setup_Grid_run (malloc r) tp inp r)
              = Returns <$> (w !! r)).
    { intros r Hr. apply (f_equal (.!! r)) in H.
      rewrite !list_lookup_fmap, lookup_seq_lt in H by done. exact H. }
    assert (Hall : forall r, r < P_grid_X tp * P_grid_Y tp ->
              Setup_Grid_run (malloc r) tp inp r
              = Returns (Setup_Grid tp inp r)).
    { intros r Hr.
      destruct (Setup_Grid_run_cases (malloc r) tp inp r) as [E|[mesg E]];
        [done|].
      specialize (Hlk r Hr). rewrite E in Hlk. by destruct (w !! r). }
    split; [|exact Hall].
    apply list_eq. intros r.
    destruct (decide (r < P_grid_X tp * P_grid_Y tp)) as [Hr|Hr].
    + rewrite Setup_Grid_lookup by done.
      specialize (Hlk r Hr). rewrite (Hall r Hr) in Hlk.
      destruct (w !! r); inversion Hlk; done.
    + assert (length w = P_grid_X tp * P_grid_Y tp) as Hlen.
      { apply (f_equal length) in H.
        by rewrite !length_fmap, length_seq in H. }
      rewrite !lookup_ge_None_2; [done | |]; [|lia].
      unfold processes. rewrite length_fmap, length_seq. lia.
  - destruct H as [r Hr]. rewrite list_lookup_fmap in Hr.
    destruct (seq 0 (P_grid_X tp * P_grid_Y tp) !! r) as [r'|] eqn:Er;
      [|done].
    apply lookup_seq in Er as [-> Er]. exists r. split; [done|].
    simpl in Hr. by injection Hr.
Qed.

Lemma main_SOR_result tp inp :
  valid_input tp inp -> (0 <= max_iter_in inp <= CInt.INT_MAX)%Z ->
  exists (k : nat) w delta,
    main_SOR tp inp = Some (w, delta, Z.of_nat k) /\
    (Z.of_nat k <= max_iter_in inp)%Z /\
    length w = P_grid_X tp * P_grid_Y tp /\
    forall a x y,
      a < P_grid_X tp * P_grid_Y tp ->
      x < dim_X (Setup_Grid tp inp a) -> y < dim_Y (Setup_Grid tp inp a) ->
      not_fixed (Setup_Grid tp inp a) x y = false ->
      phi_at w a x y = phi_at (processes tp inp) a x y.
Proof.
  intros Hv Hmax. destruct (processes_ok tp inp Hv) as [_ Hok].
  unfold main_SOR, Solve_SOR. rewrite Solve_SOR_loop_while.
  destruct (while_running_from_zero
              (fun s : list Tile * float => SOR_iteration tp s.1) snd
              (precision_goal_in inp) (max_iter_in inp)
              (processes tp inp, (2 * precision_goal_in inp)%float) Hmax)
    as (k & Hrun & Hk & _).
  rewrite <- SOR_state_iter in Hrun.
  set (delta0 := (2 * precision_goal_in inp)%float) in *.
  exists k, (SOR_state tp (processes tp inp) delta0 k).1,
    (SOR_state tp (processes tp inp) delta0 k).2.
  split; [by rewrite Hrun; destruct (SOR_state _ _ _ _)|]. split; [done|].
  split.
  - exact (grid_ranks _ _ _ _ _
             (SOR_state_grid_ok tp _ _ _ delta0 k Hok)).
  - intros a x y Ha Hx Hy Hnf.
    pose proof (Setup_Grid_lookup tp inp a Ha) as HA.
    destruct (Setup_Grid_cells tp inp a x y Hv Ha Hx Hy) as [Hfix _].
    apply Hfix in Hnf as Hint. destruct Hint as [Hint _].
    destruct (SOR_state_keeps_phi tp _ _ a (Setup_Grid tp inp a) x y
                (processes tp inp) delta0 k Hok HA Hint Hnf)
      as (_ & A & HAk & (_ & HY & _) & Hcell).
    unfold phi_at. rewrite HAk, HA.
    by rewrite (cell_dims (Setup_Grid tp inp a) A).
Qed.

(** X16.  The SOR program from input to result.  On every input whose
    sizes do not overflow and with a non-negative iteration cap: either
    a call of [malloc] fails in Setup_Grid on some process and the
    program ends there with that process's message; or every process
    returns from Setup_Grid with its tile, and the program returns after
    at most [max_iter] iterations, with one tile per process, and every
    cell that Setup_Grid marked as a source holds its load-time value. *)
Theorem main_SOR_keeps_sources malloc tp inp :
  valid_input tp inp -> (0 <= max_iter_in inp <= CInt.INT_MAX)%Z ->
  match main_SOR_run malloc tp inp with
  | Exits mesg =>
      exists r, r < P_grid_X tp * P_grid_Y tp /\
        Setup_Grid_run (malloc r) tp inp r = Exits mesg
  | Returns result =>
      (forall r, r < P_grid_X tp * P_grid_Y tp ->
         Setup_Grid_run (malloc r) tp inp r
         = Returns (Setup_Grid tp inp r)) /\
      exists (k : nat) w delta,
        result = Some (w, delta, Z.of_nat k) /\
        (Z.of_nat k <= max_iter_in inp)%Z /\
        length w = P_grid_X tp * P_grid_Y tp /\
        forall a x y,
          a < P_grid_X tp * P_grid_Y tp ->
          x < dim_X (Setup_Grid tp inp a) ->
          y < dim_Y (Setup_Grid tp inp a) ->
          not_fixed (Setup_Grid tp inp a) x y = false ->
          phi_at w a x y = phi_at (processes tp inp) a x y
  end.
Proof.
  intros Hv Hmax. unfold main_SOR_run.
  pose proof (processes_run_spec malloc tp inp) as H.
  destruct (processes_run malloc tp inp) as [w|mesg]; [|exact H].
  destruct H as [-> Hall]. split; [exact Hall|].
  exact (main_SOR_result tp inp Hv Hmax).
Qed.

Lemma Setup_Grid_run_available tp inp r :
  Setup_Grid_run (fun _ _ => true) tp inp r = Returns (Setup_Grid tp inp r).
Proof. unfold Setup_Grid_run. by destruct (Cart_coords tp r). Qed.

Lemma main_SOR_keeps_sources_witness :
  valid_input quad small_input /\
  (0 <= max_iter_in small_input <= CInt.INT_MAX)%Z /\
  (exists (k : nat) w delta,
     main_SOR_run (fun _ _ _ => true) quad small_input
     = Returns (Some (w, delta, Z.of_nat k)) /\
     (Z.of_nat k <= max_iter_in small_input)%Z /\
     phi_at w 0 1 2 = 3%float) /\
  main_SOR_run (fun r _ bytes => (r =? 0) || (bytes <=? 100)%Z)
               quad small_input
  = Exits malloc_phi_block_failed.
Proof.
  assert (H : (0 <= max_iter_in small_input <= CInt.INT_MAX)%Z)
    by (cbn; unfold CInt.INT_MAX; lia).
  split; [exact small_valid_input|]. split; [exact H|].
  split; [|vm_compute; reflexivity].
  pose proof (main_SOR_keeps_sources (fun _ _ _ => true) quad small_input
                small_valid_input H) as Hmain.
  destruct (main_SOR_run (fun _ _ _ => true) quad small_input)
    as [result|mesg].
  - destruct Hmain as (_ & k & w & delta & -> & Hk & _ & Hsrc).
    exists k, w, delta. split; [reflexivity|]. split; [exact Hk|].
    rewrite (Hsrc 0 1 2); vm_compute; first [reflexivity | lia].
  - exfalso. destruct Hmain as (r & _ & Hr).
    by rewrite Setup_Grid_run_available in Hr.
Defined.

(** ** Write_Grid *)

(** *** The solver keeps the geometry of the tiles *)

Lemma geometry_set f t g : geometry (set f t g) = geometry t.
Proof. by destruct f. Qed.

Lemma geometry_recv_tile tp f c w r t :
  geometry (recv_tile tp f c w r t) = geometry t.
Proof.
  unfold recv_tile. destruct (neighbour tp r (recvfrom c)); [|done].
  destruct (w !! _); [|done]. destruct (decide _); [|done].
  apply geometry_set.
Qed.

Lemma geometry_Sendrecv tp f c w :
  geometry <$> MPI_Sendrecv tp f c w = geometry <$> w.
Proof.
  apply list_eq. intros r. rewrite !list_lookup_fmap, Sendrecv_lookup.
  destruct (w !! r); [|done]. cbn. f_equal. apply geometry_recv_tile.
Qed.

Lemma geometry_exchange tp f l w :
  geometry <$> exchange f tp l w = geometry <$> w.
Proof.
  unfold exchange. revert w. induction l as [|c l IH]; intros w; [done|].
  cbn [foldl]. rewrite IH. apply geometry_Sendrecv.
Qed.

Lemma geometry_InitCG malloc w : geometry <$> InitCG malloc w = geometry <$> w.
Proof.
  apply list_eq. intros r. rewrite !list_lookup_fmap, InitCG_lookup.
  destruct (w !! r) as [t|]; [|done]. cbn. f_equal.
  unfold InitCG_local. by destruct (for_interior _ _ _) as [[p q] rd].
Qed.

Lemma geometry_Do_Step_CG w : geometry <$> Do_Step_CG w = geometry <$> w.
Proof.
  unfold Do_Step_CG. rewrite <- !list_fmap_compose.
  apply list_fmap_ext. intros r t Ht. done.
Qed.

Lemma geometry_Solve_loop fuel tp goal max_iter w count w' k :
  Solve_loop fuel tp goal max_iter w count = Some (w', k) ->
  geometry <$> w' = geometry <$> w.
Proof.
  revert w count. induction fuel as [|fuel IH]; intros w count; cbn [Solve_loop].
  - destruct (_ && _); [done|]. by intros [= <- <-].
  - destruct (_ && _); [|by intros [= <- <-]].
    intros H%IH. rewrite H, geometry_Do_Step_CG.
    apply geometry_exchange.
Qed.

Lemma geometry_main tp malloc inp w k :
  main tp malloc inp = Some (w, k) ->
  geometry <$> w = geometry <$> processes tp inp.
Proof.
  unfold main, Solve. intros H%geometry_Solve_loop.
  by rewrite H, geometry_InitCG.
Qed.

(** *** The lines Write_Grid prints *)

Lemma Write_Grid_lines t :
  (0 <= offset_X t)%Z -> (0 <= offset_Y t)%Z ->
  (offset_X t + Z.of_nat (dim_X t) <= CInt.INT_MAX)%Z ->
  (offset_Y t + Z.of_nat (dim_Y t) <= CInt.INT_MAX)%Z ->
  Write_Grid t
  = (fun c => ((Z.of_nat c.1 + offset_X t)%Z, (Z.of_nat c.2 + offset_Y t)%Z,
               cell t (phi t) c.1 c.2)) <$> interior_cells t.
Proof.
  intros HoX HoY HfX HfY. unfold Write_Grid. rewrite for_interior_cells.
  set (pr := fun c : nat * nat =>
               ((Z.of_nat c.1 + offset_X t)%Z, (Z.of_nat c.2 + offset_Y t)%Z,
                cell t (phi t) c.1 c.2)).
  apply (foldl_inv (fun l out => out = pr <$> l)); [done|].
  intros l1 [x y] l2 out Hsplit ->.
  destruct (interior_cells_split _ _ _ _ _ Hsplit) as (Hint%interior_bounds & _).
  rewrite fmap_app. cbn [fst snd fmap list_fmap]. f_equal. unfold pr.
  cbn [fst snd]. unfold CInt.add.
  rewrite !wrap_small
    by (unfold CInt.in_range, CInt.INT_MIN, CInt.INT_MAX in *; lia).
  done.
Qed.

Lemma geometry_lookup tp inp w r t :
  geometry <$> w = geometry <$> processes tp inp ->
  w !! r = Some t ->
  r < P_grid_X tp * P_grid_Y tp /\ geometry t = geometry (Setup_Grid tp inp r).
Proof.
  intros Hg Ht.
  assert ((geometry <$> processes tp inp) !! r = Some (geometry t)) as H
    by (by rewrite <- Hg, list_lookup_fmap, Ht).
  rewrite list_lookup_fmap in H.
  destruct (processes tp inp !! r) as [T|] eqn:HT; [|done].
  apply Setup_Grid_lookup_inv in HT as [Hr ->].
  cbn [fmap option_fmap option_map] in H.
  split; [done|congruence].
Qed.

Section Output.
Variables (tp : Topology) (inp : Input).
Hypothesis Hv : valid_input tp inp.
Variable w : list Tile.
Hypothesis Hg : geometry <$> w = geometry <$> processes tp inp.

Lemma Write_Grid_elem r t gx gy v :
  w !! r = Some t ->
  (gx, gy, v) ∈ Write_Grid t <->
  exists x y, interior (Setup_Grid tp inp r) x y = true /\
              global_cell (Setup_Grid tp inp r) x y = ((gx - 1)%Z, (gy - 1)%Z) /\
              v = cell t (phi t) x y.
Proof using Hv Hg.
  intros Ht. destruct (geometry_lookup tp inp w r t Hg Ht) as [Hr Hgeo].
  destruct (Setup_Grid_geometry tp inp Hv r Hr)
    as (Hcx & Hcy & HoX & HoY & HdX & HdY & _).
  pose proof Hgeo as [= EX EY EoX EoY].
  destruct Hv as [Hnx Hny HPx HPy Hfx Hfy Hsum Hblk].
  pose proof (upper_le_n (nx inp) _ Hnx HPx _ Hcx).
  pose proof (upper_le_n (ny inp) _ Hny HPy _ Hcy).
  pose proof (floor_mono (nx inp) _ Hnx HPx (Z.of_nat (Cart_coords tp r).1)
                (Z.of_nat (Cart_coords tp r).1 + 1) ltac:(lia)).
  pose proof (floor_mono (ny inp) _ Hny HPy (Z.of_nat (Cart_coords tp r).2)
                (Z.of_nat (Cart_coords tp r).2 + 1) ltac:(lia)).
  rewrite Write_Grid_lines by lia.
  rewrite list_elem_of_fmap. split.
  - intros ([x y] & [= -> -> ->] & Hc%interior_cells_spec). cbn [fst snd].
    exists x, y. destruct (geometry_interior t _ x y Hgeo) as [<- <-].
    split; [done|]. split; [|done]. unfold global_cell. f_equal; lia.
  - intros (x & y & Hint & Hgc & ->). exists (x, y). cbn [fst snd].
    destruct (geometry_interior t _ x y Hgeo) as [Ei Eg].
    rewrite <- Ei in Hint. rewrite <- Eg in Hgc.
    split; [|by apply interior_cells_spec].
    unfold global_cell in Hgc. injection Hgc as G1 G2.
    replace gx with (Z.of_nat x + offset_X t)%Z by lia.
    replace gy with (Z.of_nat y + offset_Y t)%Z by lia. done.
Qed.

End Output.

(** X17.  What Write_Grid writes after a run of the program.  The files
    of all processes together hold a line for a pair of coordinates
    exactly if it is a cell of the global grid, numbered from 1:
    [1 <= x <= nx] and [1 <= y <= ny]; no cell is written by two
    processes or with two values; and the file of a process lists its
    interior cells in row-major order, each with its global coordinates
    and its value of [phi].  Halo cells are never written. *)
Theorem Write_Grid_covers tp malloc inp w k :
  valid_input tp inp -> main tp malloc inp = Some (w, k) ->
  (forall gx gy,
     (1 <= gx <= nx inp)%Z /\ (1 <= gy <= ny inp)%Z <->
     exists r t v, w !! r = Some t /\ (gx, gy, v) ∈ Write_Grid t) /\
  (forall r t r' t' gx gy v v',
     w !! r = Some t -> w !! r' = Some t' ->
     (gx, gy, v) ∈ Write_Grid t -> (gx, gy, v') ∈ Write_Grid t' ->
     r = r' /\ v = v') /\
  (forall r t, w !! r = Some t ->
     Write_Grid t
     = (fun c => ((Z.of_nat c.1 + offset_X t)%Z, (Z.of_nat c.2 + offset_Y t)%Z,
                  cell t (phi t) c.1 c.2)) <$> interior_cells t).
Proof.
  intros Hv Hmain. pose proof (geometry_main tp malloc inp w k Hmain) as Hg.
  split; [|split].
  - intros gx gy. split.
    + intros [Hx Hy].
      destruct (tiles_cover tp inp Hv (gx - 1) (gy - 1) ltac:(lia) ltac:(lia))
        as (r & x & y & Hr & Hint & Hgc).
      destruct (lookup_lt_is_Some_2 w r) as [t Ht].
      { assert (length (geometry <$> w) = length (geometry <$> processes tp inp))
          as Hl by (by rewrite Hg).
        rewrite !length_fmap in Hl. rewrite Hl. unfold processes.
        by rewrite length_fmap, length_seq. }
      exists r, t, (cell t (phi t) x y). split; [done|].
      apply (Write_Grid_elem tp inp Hv w Hg r t); [done|]. by exists x, y.
    + intros (r & t & v & Ht & Hin).
      destruct (geometry_lookup tp inp w r t Hg Ht) as [Hr _].
      apply (Write_Grid_elem tp inp Hv w Hg r t) in Hin
        as (x & y & Hint & Hgc & _); [|done].
      destruct (tiles_in_grid tp inp Hv r x y Hr Hint) as [H1 H2].
      rewrite Hgc in H1, H2. cbn [fst snd] in H1, H2. lia.
  - intros r t r' t' gx gy v v' Ht Ht' Hin Hin'.
    destruct (geometry_lookup tp inp w r t Hg Ht) as [Hr _].
    destruct (geometry_lookup tp inp w r' t' Hg Ht') as [Hr' _].
    apply (Write_Grid_elem tp inp Hv w Hg r t) in Hin
      as (x & y & Hint & Hgc & ->); [|done].
    apply (Write_Grid_elem tp inp Hv w Hg r' t') in Hin'
      as (x' & y' & Hint' & Hgc' & ->); [|done].
    destruct (tiles_disjoint tp inp Hv r r' x y x' y' Hr Hr' Hint Hint')
      as (-> & -> & ->); [congruence|].
    split; [done|]. congruence.
  - intros r t Ht.
    destruct (geometry_lookup tp inp w r t Hg Ht) as [Hr Hgeo].
    destruct (Setup_Grid_geometry tp inp Hv r Hr)
      as (Hcx & Hcy & HoX & HoY & HdX & HdY & _).
    pose proof Hgeo as [= EX EY EoX EoY].
    destruct Hv as [Hnx Hny HPx HPy Hfx Hfy Hsum Hblk].
    pose proof (upper_le_n (nx inp) _ Hnx HPx _ Hcx).
    pose proof (upper_le_n (ny inp) _ Hny HPy _ Hcy).
    pose proof (floor_mono (nx inp) _ Hnx HPx (Z.of_nat (Cart_coords tp r).1)
                  (Z.of_nat (Cart_coords tp r).1 + 1) ltac:(lia)).
    pose proof (floor_mono (ny inp) _ Hny HPy (Z.of_nat (Cart_coords tp r).2)
                  (Z.of_nat (Cart_coords tp r).2 + 1) ltac:(lia)).
    apply Write_Grid_lines; lia.
Qed.

(** ** Instances of the further properties on example runs *)

Lemma calloc_fits tp inp r t :
  processes tp inp !! r = Some t -> blocks_fit (calloc tp inp r) t.
Proof.
  intros [_ ->]%Setup_Grid_lookup_inv. unfold blocks_fit, calloc, zeroed.
  cbn [block_p block_r block_v]. by rewrite !length_replicate.
Qed.

Lemma quad_ok :
  grid_ok quad Phi (tile_dim_X quad small_input) (tile_dim_Y quad small_input)
          (processes quad small_input).
Proof. exact (proj2 (processes_ok quad small_input small_valid_input)). Qed.

Lemma quad_tiles_ok : Forall tile_ok (processes quad small_input).
Proof. exact (proj1 (processes_ok quad small_input small_valid_input)). Qed.

Lemma quad_first :
  processes quad small_input !! 0 = Some (Setup_Grid quad small_input 0).
Proof. apply Setup_Grid_lookup. cbn. lia. Qed.

Lemma quad_dims r t :
  processes quad small_input !! r = Some t -> 3 <= dim_X t /\ 3 <= dim_Y t.
Proof.
  intros [Hr ->]%Setup_Grid_lookup_inv. cbn in Hr.
  do 4 (destruct r as [|r]; [vm_compute; lia|]). lia.
Qed.

Lemma Exchange_Borders_matched_witness :
  let c := mkSendrecv (fun _ => (1, 1)) Y_DIR proc_top
                      (fun t => (1, dim_Y t - 1)) Y_DIR proc_bottom in
  c ∈ Exchange_Borders_calls /\
  neighbour quad 0 (recvfrom c) = Some 1 /\
  exists B, processes quad small_input !! 1 = Some B /\
            neighbour quad 1 (dest c) = Some 0.
Proof.
  cbv zeta.
  assert (Hc : mkSendrecv (fun _ => (1, 1)) Y_DIR proc_top
                          (fun t => (1, dim_Y t - 1)) Y_DIR proc_bottom
               ∈ Exchange_Borders_calls) by left.
  assert (Hn : neighbour quad 0 proc_bottom = Some 1) by reflexivity.
  split; [exact Hc|]. split; [exact Hn|].
  destruct (proj2 (Exchange_Borders_matched quad Phi _ _ _ _ 0 _ 1
                     quad_ok Hc quad_first) Hn) as (B & HB & Hback & _).
  exists B. split; [exact HB | exact Hback].
Defined.

Lemma Exchange_Borders_writes_halo_only_witness :
  exists A,
    Exchange_Borders_on Phi quad (processes quad small_input) !! 0 = Some A /\
    A = set Phi (Setup_Grid quad small_input 0) (get Phi A).
Proof.
  destruct (Exchange_Borders_writes_halo_only quad Phi _ _ _ 0 _
              quad_ok quad_first) as (A & HA & HAs & _).
  exists A. split; [exact HA | exact HAs].
Defined.

Lemma Exchange_Borders_idempotent_witness :
  Exchange_Borders_on Phi quad
    (Exchange_Borders_on Phi quad (processes quad small_input))
  = Exchange_Borders_on Phi quad (processes quad small_input).
Proof.
  exact (Exchange_Borders_idempotent quad Phi _ _ _ quad_ok quad_dims).
Defined.

Lemma Exchange_Borders_buffers_witness :
  let t := Setup_Grid quad small_input 0 in
  let c := mkSendrecv (fun _ => (1, 1)) Y_DIR proc_top
                      (fun t => (1, dim_Y t - 1)) Y_DIR proc_bottom in
  3 <= dim_X t /\ 3 <= dim_Y t /\
  forall d, d ∈ type_map (border_type t (sendtype c)) ->
            at_cell t (sendbuf c t) + d < dim_X t * dim_Y t.
Proof.
  cbv zeta.
  assert (HX : 3 <= dim_X (Setup_Grid quad small_input 0)) by (vm_compute; lia).
  assert (HY : 3 <= dim_Y (Setup_Grid quad small_input 0)) by (vm_compute; lia).
  assert (Hc : mkSendrecv (fun _ => (1, 1)) Y_DIR proc_top
                          (fun t => (1, dim_Y t - 1)) Y_DIR proc_bottom
               ∈ Exchange_Borders_calls) by left.
  split; [exact HX|]. split; [exact HY|].
  exact (proj1 (Exchange_Borders_buffers _ _ HX HY Hc)).
Defined.

Lemma SOR_iteration_red_black_witness :
  let A0 := Setup_Grid quad small_input 0 in
  interior A0 1 1 = true /\ not_fixed A0 1 1 = true /\
  exists A1 A2,
    Exchange_Borders_SOR quad
      (fst <$> ((fun t => Do_Step t 0) <$> processes quad small_input)) !! 0
    = Some A1 /\
    (SOR_iteration quad (processes quad small_input)).1 !! 0 = Some A2.
Proof.
  cbv zeta.
  assert (Hi : interior (Setup_Grid quad small_input 0) 1 1 = true)
    by (vm_compute; reflexivity).
  assert (Hn : not_fixed (Setup_Grid quad small_input 0) 1 1 = true)
    by (vm_compute; reflexivity).
  split; [exact Hi|]. split; [exact Hn|].
  destruct (SOR_iteration_red_black quad _ _ _ 0 _ 1 1
              quad_ok quad_tiles_ok quad_first Hi Hn)
    as (A1 & A2 & H1 & H2 & _).
  exists A1, A2. split; [exact H1 | exact H2].
Defined.

Lemma InitCG_spec_witness :
  exists A,
    InitCG (calloc quad small_input) (processes quad small_input) !! 0 = Some A /\
    phi A = phi (Setup_Grid quad small_input 0).
Proof.
  destruct (InitCG_spec (calloc quad small_input) _ 0 _ quad_first
              (calloc_fits quad small_input 0 _ quad_first))
    as (A & HA & _ & _ & Hphi & _).
  exists A. split; [exact HA | exact Hphi].
Defined.

Lemma pCG_boundary_halo_witness :
  let A0 := Setup_Grid quad small_input 0 in
  neighbour quad 0 proc_top = None /\ 1 < halo_length A0 proc_top /\
  exists A,
    Exchange_Borders quad
      (CG_state quad (InitCG (calloc quad small_input)
                             (processes quad small_input)) 1) !! 0 = Some A /\
    cell A (pCG A) (halo_cell A proc_top 1).1 (halo_cell A proc_top 1).2
    = cell A0 (block_p (calloc quad small_input 0))
           (halo_cell A0 proc_top 1).1 (halo_cell A0 proc_top 1).2.
Proof.
  cbv zeta.
  assert (Hn : neighbour quad 0 proc_top = None) by reflexivity.
  assert (Hk : 1 < halo_length (Setup_Grid quad small_input 0) proc_top)
    by (vm_compute; lia).
  split; [exact Hn|]. split; [exact Hk|].
  exact (pCG_boundary_halo quad _ _ (calloc quad small_input) _ 0 _ proc_top 1 1
           quad_ok (calloc_fits quad small_input) quad_first Hn Hk).
Defined.

Lemma global_residue_replicated_witness :
  let s := CG_state quad (InitCG (calloc quad small_input)
                                 (processes quad small_input)) 1 in
  exists A, s !! 3 = Some A /\ global_residue A = residue s.
Proof.
  cbv zeta.
  destruct (CG_state_ok quad _ _ (calloc quad small_input) _ 1
              quad_ok (calloc_fits quad small_input)) as [Hok _].
  destruct (lookup_lt_is_Some_2
              (CG_state quad (InitCG (calloc quad small_input)
                                     (processes quad small_input)) 1) 3)
    as [A HA].
  { rewrite (grid_ranks _ _ _ _ _ Hok). cbn. lia. }
  exists A. split; [exact HA|].
  exact (proj2 (global_residue_replicated quad _ _ (calloc quad small_input) _ 1
                  quad_ok (calloc_fits quad small_input) 3 A HA)).
Defined.

Lemma CG_phi_halo_stays_zero_witness :
  0 < P_grid_X quad * P_grid_Y quad /\
  interior (Setup_Grid quad small_input 0) 0 1 = false /\
  phi_at (CG_state quad (InitCG (calloc quad small_input)
                                (processes quad small_input)) 2) 0 0 1
  = 0%float.
Proof.
  assert (Ha : 0 < P_grid_X quad * P_grid_Y quad) by (cbn; lia).
  assert (Hx : 0 < dim_X (Setup_Grid quad small_input 0)) by (vm_compute; lia).
  assert (Hy : 1 < dim_Y (Setup_Grid quad small_input 0)) by (vm_compute; lia).
  assert (Hi : interior (Setup_Grid quad small_input 0) 0 1 = false)
    by (vm_compute; reflexivity).
  split; [exact Ha|]. split; [exact Hi|].
  refine (proj1 (CG_phi_halo_stays_zero quad (calloc quad small_input)
                   small_input 0 0 1 2 small_valid_input _ Ha Hx Hy Hi)).
  intros r Hr. apply calloc_fits. by apply Setup_Grid_lookup.
Defined.

Lemma main_returns tp malloc inp :
  (0 <= max_iter_in inp <= CInt.INT_MAX)%Z ->
  exists w k, main tp malloc inp = Some (w, k).
Proof.
  intros Hmax. unfold main, Solve. rewrite Solve_loop_while.
  destruct (while_running_from_zero
              (fun w => Do_Step_CG (Exchange_Borders tp w)) residue
              (precision_goal_in inp) (max_iter_in inp)
              (InitCG malloc (processes tp inp)) Hmax) as (k & -> & _).
  eauto.
Qed.

Lemma Write_Grid_covers_witness :
  exists w k,
    main quad (calloc quad small_input) small_input = Some (w, k) /\
    forall gx gy,
      (1 <= gx <= nx small_input)%Z /\ (1 <= gy <= ny small_input)%Z <->
      exists r t v, w !! r = Some t /\ (gx, gy, v) ∈ Write_Grid t.
Proof.
  destruct (main_returns quad (calloc quad small_input) small_input)
    as (w & k & Hm); [cbn; unfold CInt.INT_MAX; lia|].
  exists w, k. split; [exact Hm|].
  exact (proj1 (Write_Grid_covers quad _ small_input w k small_valid_input Hm)).
Defined.

(** ** The timer *)

#[local] Open Scope Z_scope.

Lemma CLong_wrap_small z : CLong.in_range z -> CLong.wrap z = z.
Proof.
  unfold CLong.in_range, CLong.wrap. intros H. rewrite Z.mod_small; lia.
Qed.

Lemma CLong_wrap_sub a b : CLong.wrap (a - CLong.wrap b) = CLong.wrap (a - b).
Proof.
  unfold CLong.wrap.
  rewrite (Z.mod_eq (b + 9223372036854775808) 18446744073709551616) by lia.
  set (q := (b + 9223372036854775808) / 18446744073709551616).
  replace (a - (b + 9223372036854775808 - 18446744073709551616 * q
                - 9223372036854775808) + 9223372036854775808)
    with (a - b + 9223372036854775808 + q * 18446744073709551616) by lia.
  by rewrite Z.mod_add by lia.
Qed.

Lemma CLong_wrap_add a b : CLong.wrap (a + CLong.wrap b) = CLong.wrap (a + b).
Proof.
  unfold CLong.wrap.
  rewrite (Z.mod_eq (b + 9223372036854775808) 18446744073709551616) by lia.
  set (q := (b + 9223372036854775808) / 18446744073709551616).
  replace (a + (b + 9223372036854775808 - 18446744073709551616 * q
                - 9223372036854775808) + 9223372036854775808)
    with (a + b + 9223372036854775808 + (- q) * 18446744073709551616) by lia.
  by rewrite Z.mod_add by lia.
Qed.

(** X18.  The timer accumulates.  Started at clock reading [c0], stopped
    at [c1], resumed at [c2] and stopped at [c3], a timer that was off
    holds [(c1 - c0) + (c3 - c2)] ticks (reduced to the range of
    [clock_t]) and is off; print_timer on a running timer is such a stop
    and resume, so the time spent printing is not counted; start_timer
    and resume_timer do nothing to a running timer, stop_timer nothing to
    a stopped one. *)
Theorem timer_accumulates (c0 c1 c2 c3 : Z) (w0 w1 w2 w3 : float) (s : Timer) :
  timer_on s = 0 ->
  let s1 := stop_timer c1 w1 (start_timer c0 w0 s) in
  let s2 := stop_timer c3 w3 (resume_timer c2 w2 s1) in
  let s2' := stop_timer c3 w3 (print_timer c1 w1 c2 w2 (start_timer c0 w0 s)).2 in
  (timer_on s1 = 0 /\ ticks s1 = CLong.wrap (c1 - c0)
   /\ wtime s1 = (w1 - w0)%float) /\
  (timer_on s2 = 0 /\ ticks s2 = CLong.wrap ((c1 - c0) + (c3 - c2))
   /\ wtime s2 = (w3 - (w2 - (w1 - w0)))%float) /\
  s2' = s2 /\
  (CLong.in_range ((c1 - c0) + (c3 - c2)) ->
   ticks s2 = (c1 - c0) + (c3 - c2)) /\
  start_timer c1 w1 (start_timer c0 w0 s) = start_timer c0 w0 s /\
  resume_timer c1 w1 (start_timer c0 w0 s) = start_timer c0 w0 s /\
  stop_timer c0 w0 s = s.
Proof.
  intros Hoff s1 s2 s2'.
  assert (E1 : s1 = mkTimer (CLong.wrap (c1 - c0)) 0 (w1 - w0)%float).
  { subst s1. unfold start_timer, stop_timer. rewrite Hoff. done. }
  assert (E2 : s2 = mkTimer (CLong.wrap ((c1 - c0) + (c3 - c2))) 0
                            (w3 - (w2 - (w1 - w0)))%float).
  { subst s2. rewrite E1. unfold resume_timer, stop_timer.
    cbn [timer_on ticks wtime Z.eqb negb]. unfold CLong.sub.
    rewrite CLong_wrap_sub.
    replace (c3 - (c2 - CLong.wrap (c1 - c0)))
      with ((c3 - c2) + CLong.wrap (c1 - c0)) by lia.
    rewrite CLong_wrap_add. do 2 f_equal. lia. }
  split; [by rewrite E1|]. split; [by rewrite E2|]. split.
  { subst s2' s2 s1. unfold print_timer, start_timer. rewrite Hoff. done. }
  split.
  { intros Hr. rewrite E2. cbn. by apply CLong_wrap_small. }
  unfold start_timer, resume_timer, stop_timer. rewrite Hoff. done.
Qed.

Lemma timer_accumulates_witness :
  let s := mkTimer 0 0 0%float in
  timer_on s = 0 /\
  ticks (stop_timer 40 4 (resume_timer 30 3 (stop_timer 20 2 (start_timer 10 1 s))))
  = CLong.wrap ((20 - 10) + (40 - 30)).
Proof.
  cbv zeta.
  assert (H : timer_on (mkTimer 0 0 0%float) = 0) by reflexivity.
  split; [exact H|].
  exact (proj1 (proj2 (proj1 (proj2 (timer_accumulates 10 20 30 40 1 2 3 4
                                       (mkTimer 0 0 0%float) H))))).
Defined.

